(** * mini-redis: the wire codec, the glob matcher, the keyspace table and
    the command handlers, embedded from the C sources under
    [examples/mini-redis/src] and checked against the specification.

    Conventions of the embedding.
    - A [char] buffer together with its length is a [list ascii]; the
      pointer arithmetic [buf + k] is [drop k buf].
    - [int64_t] arithmetic is written with its two's-complement wrap-around
      ([wrap64]); the [(int)] casts of the parser's return values are written
      with [to_int].  [size_t] quantities that measure an allocated object
      (buffer lengths, table capacity and counters) are below [2^63] on the
      targets the program runs on, so their sums are taken in [Z] unwrapped.
    - [malloc]/[calloc]/[realloc] are taken to succeed (the program exits
      otherwise).
    - [current_time_ms] is declared in [util.h]; the clock is external to
      the code embedded here, so every place where the code reads the clock
      takes the value read as an argument. *)

From Stdlib Require Import ZArith Ascii String List Lia Bool.
From stdpp Require Import base decidable option list numbers strings.

Set Warnings "-register-all".
Local Open Scope Z_scope.

(** ** Bytes and machine integers *)

Abbreviation bytes := (list ascii).

Definition bs (s : string) : bytes := list_ascii_of_string s.

Definition CR : ascii := "013"%char.
Definition LF : ascii := "010"%char.
Definition NUL : ascii := "000"%char.
Definition CRLF : bytes := [CR; LF].

(** The value of a byte read through [unsigned char]. *)
Definition uchar (c : ascii) : Z := Z.of_N (N_of_ascii c).

(** The value of a byte read through a plain (signed) [char]. *)
Definition schar (c : ascii) : Z :=
  if 128 <=? uchar c then uchar c - 256 else uchar c.

Definition INT64_MAX : Z := 9223372036854775807.
Definition INT64_MIN : Z := -9223372036854775808.
Definition INT_MAX : Z := 2147483647.

(** Two's-complement reduction to [int64_t] and to [int]. *)
Definition wrap64 (x : Z) : Z := (x + 2 ^ 63) mod 2 ^ 64 - 2 ^ 63.
Definition to_int (x : Z) : Z := (x + 2 ^ 31) mod 2 ^ 32 - 2 ^ 31.

Definition in_int64 (x : Z) : bool := (INT64_MIN <=? x) && (x <=? INT64_MAX).

(** [strlen]: the number of bytes before the first NUL. *)
Fixpoint strlen (s : bytes) : nat :=
  match s with
  | [] => O
  | c :: s' => if Ascii.eqb c NUL then O else S (strlen s')
  end.

(** What [printf]'s [%d], [%zu] and [PRId64] conversions print. *)
Definition digit_char (d : Z) : ascii := ascii_of_N (Z.to_N (48 + d)).

Fixpoint dec_digits (fuel : nat) (n : Z) (acc : bytes) : bytes :=
  match fuel with
  | O => acc
  | S fuel' =>
      let acc' := digit_char (n mod 10) :: acc in
      if n / 10 =? 0 then acc' else dec_digits fuel' (n / 10) acc'
  end.

Definition dec_of_nonneg (n : Z) : bytes :=
  dec_digits (S (Z.to_nat (Z.log2 n))) n [].

Definition dec_of_Z (n : Z) : bytes :=
  if n <? 0 then "-"%char :: dec_of_nonneg (- n) else dec_of_nonneg n.

(** ** client.c: the write buffer *)

Record client_t := mk_client {
  fd : Z;
  read_buf : bytes;
  write_buf : bytes
}.

Definition client_write_append (c : client_t) (data : bytes) : client_t :=
  mk_client (fd c) (read_buf c) (write_buf c ++ data).

(** ** resp.c *)

Module Resp.

(** [resp_value_t].  An array holds its elements; its [count] field,
    [(int)count], is the length of the list for every frame shorter than
    [INT_MAX] bytes. *)
Inductive resp_value :=
  | SimpleString (s : bytes)
  | Error (s : bytes)
  | Integer (i : Z)
  | BulkString (s : bytes)
  | NullBulk
  | Array (elements : list resp_value).

(** [resp_parse] returns an [int] [r] and fills [out] when [r > 0]; its
    caller in [server.c] reads [r = 0] as "need more data", [r < 0] as a
    protocol error and [r > 0] as the number of bytes consumed. *)
Inductive parse_result :=
  | NeedMore
  | Malformed
  | Parsed (v : resp_value) (n : Z).

(** [return (int)n;] after [out] has been set to [v]. *)
Definition ret_int (n : Z) (v : resp_value) : parse_result :=
  let r := to_int n in
  if 0 <? r then Parsed v r else if r =? 0 then NeedMore else Malformed.

(** [parse_line buf len]: offset of the first CR LF pair, if any. *)
Fixpoint parse_line (buf : bytes) : option nat :=
  match buf with
  | c :: ((d :: _) as rest) =>
      if Ascii.eqb c CR && Ascii.eqb d LF then Some O
      else S <$> parse_line rest
  | _ => None
  end.

(** The digit loop of [parse_integer_value]. *)
Fixpoint int_digits (s : bytes) (result : Z) : option Z :=
  match s with
  | [] => Some result
  | c :: s' =>
      if (schar c <? schar "0") || (schar "9" <? schar c) then None
      else int_digits s' (wrap64 (result * 10 + (schar c - schar "0")))
  end.

(** [parse_integer_value buf len out]: [None] is the return value -1. *)
Definition parse_integer_value (s : bytes) : option Z :=
  match s with
  | [] => None
  | c :: s' =>
      if Ascii.eqb c "-" then
        match s' with
        | [] => None
        | _ => r ← int_digits s' 0; Some (wrap64 (r * -1))
        end
      else r ← int_digits s 0; Some (wrap64 (r * 1))
  end.

(** [parse_bulk_string buf len out], [buf] starting after the dollar sign. *)
Definition parse_bulk_string (buf : bytes) : parse_result :=
  let len := Z.of_nat (length buf) in
  match parse_line buf with
  | None => NeedMore
  | Some line_len =>
      match parse_integer_value (take line_len buf) with
      | None => Malformed
      | Some slen =>
          let ll := Z.of_nat line_len in
          if slen =? -1 then ret_int (1 + ll + 2) NullBulk
          else if slen <? 0 then Malformed
          else
            let header_len := 1 + ll + 2 in
            let total := header_len + slen + 2 in
            if (1 + len <? total) && (len <? ll + 2 + slen + 2) then NeedMore
            else
              ret_int (1 + ll + 2 + slen + 2)
                (BulkString (take (Z.to_nat slen) (drop (line_len + 2) buf)))
      end
  end.

(** The element loop of [parse_array]: [k] elements remain to be read,
    [consumed] bytes of [buf] are used up, [acc] holds the elements read so
    far (latest first).  [parse] is [resp_parse] on the rest of the buffer;
    it answers [None] when the recursion budget is spent. *)
Fixpoint parse_elements (parse : bytes -> option parse_result) (k : nat)
    (buf : bytes) (consumed : Z) (acc : list resp_value)
    : option parse_result :=
  match k with
  | O => Some (ret_int consumed (Array (rev acc)))
  | S k' =>
      if Z.of_nat (length buf) <=? consumed then Some NeedMore
      else
        match parse (drop (Z.to_nat consumed) buf) with
        | None => None
        | Some NeedMore => Some NeedMore
        | Some Malformed => Some Malformed
        | Some (Parsed v r) =>
            parse_elements parse k' buf (consumed + r) (v :: acc)
        end
  end.

(** [parse_array buf len out], [buf] starting at the star. *)
Definition parse_array (parse : bytes -> option parse_result) (buf : bytes)
    : option parse_result :=
  let rest := drop 1 buf in
  match parse_line rest with
  | None => Some NeedMore
  | Some line_len =>
      match parse_integer_value (take line_len rest) with
      | None => Some Malformed
      | Some count =>
          if count <? 0 then Some Malformed
          else
            let consumed := 1 + Z.of_nat line_len + 2 in
            if count =? 0 then Some (ret_int consumed (Array []))
            else parse_elements parse (Z.to_nat count) buf consumed []
      end
  end.

(** The body of [resp_parse buf len out]; [self] stands for the recursive
    calls made by [parse_array]. *)
Definition resp_parse_body (self : bytes -> option parse_result)
    (buf : bytes) : option parse_result :=
  match buf with
  | [] => Some NeedMore
  | tag :: rest =>
      if Ascii.eqb tag "+" || Ascii.eqb tag "-" then
        match parse_line rest with
        | None => Some NeedMore
        | Some line_len =>
            Some (ret_int (1 + Z.of_nat line_len + 2)
                    ((if Ascii.eqb tag "+" then SimpleString else Error)
                       (take line_len rest)))
        end
      else if Ascii.eqb tag ":" then
        match parse_line rest with
        | None => Some NeedMore
        | Some line_len =>
            match parse_integer_value (take line_len rest) with
            | None => Some Malformed
            | Some val =>
                Some (ret_int (1 + Z.of_nat line_len + 2) (Integer val))
            end
        end
      else if Ascii.eqb tag "$" then Some (parse_bulk_string rest)
      else if Ascii.eqb tag "*" then parse_array self buf
      else Some Malformed
  end.

(** [resp_parse]: every recursive call is on a strictly shorter buffer;
    [fuel] bounds the depth of the recursion and [None] means that the
    bound was too small. *)
Fixpoint resp_parse_fuel (fuel : nat) (buf : bytes) : option parse_result :=
  match fuel with
  | O => None
  | S fuel' => resp_parse_body (resp_parse_fuel fuel') buf
  end.

Definition resp_parse (buf : bytes) : option parse_result :=
  resp_parse_fuel (S (length buf)) buf.

(** The writers. *)
Definition resp_write_simple_string (c : client_t) (str : bytes) : client_t :=
  let c := client_write_append c (bs "+") in
  let c := client_write_append c (take (strlen str) str) in
  client_write_append c CRLF.

Definition resp_write_error (c : client_t) (msg : bytes) : client_t :=
  let c := client_write_append c (bs "-") in
  let c := client_write_append c (take (strlen msg) msg) in
  client_write_append c CRLF.

Definition resp_write_integer (c : client_t) (val : Z) : client_t :=
  client_write_append c (bs ":" ++ dec_of_Z val ++ CRLF).

Definition resp_write_bulk_string (c : client_t) (data : bytes) : client_t :=
  let c :=
    client_write_append c
      (bs "$" ++ dec_of_Z (Z.of_nat (length data)) ++ CRLF) in
  let c := client_write_append c data in
  client_write_append c CRLF.

Definition resp_write_null_bulk_string (c : client_t) : client_t :=
  client_write_append c (bs "$-1" ++ CRLF).

Definition resp_write_array_header (c : client_t) (count : Z) : client_t :=
  client_write_append c (bs "*" ++ dec_of_Z count ++ CRLF).

End Resp.


(** ** Serializing a whole wire value

    The server has no single serializing function: a handler calls the
    writer that matches the reply, and for an array the header writer
    followed by one writer call per element (as [cmd_keys] does).
    [resp_write_value] is that sequence of calls for a value [v]. *)

Import Resp.

Fixpoint resp_write_value (c : client_t) (v : resp_value) {struct v}
    : client_t :=
  match v with
  | SimpleString s => resp_write_simple_string c s
  | Error s => resp_write_error c s
  | Integer i => resp_write_integer c i
  | BulkString s => resp_write_bulk_string c s
  | NullBulk => resp_write_null_bulk_string c
  | Array l =>
      fold_left (fun c' e => resp_write_value c' e) l
        (resp_write_array_header c (Z.of_nat (length l)))
  end.

Definition empty_client : client_t := mk_client (-1) [] [].

Definition serialize (v : resp_value) : bytes :=
  write_buf (resp_write_value empty_client v).

(** A text holds a CR immediately followed by a LF. *)
Fixpoint has_crlf (s : bytes) : bool :=
  match s with
  | c :: ((d :: _) as rest) =>
      (Ascii.eqb c CR && Ascii.eqb d LF) || has_crlf rest
  | _ => false
  end.

Definition no_nul (s : bytes) : bool :=
  forallb (fun c => negb (Ascii.eqb c NUL)) s.

(** A text that can be handed to a line writer as a C string and read
    back as one line. *)
Definition line_text (s : bytes) : bool := no_nul s && negb (has_crlf s).

(** The wire values of the round-trip property: line texts for simple
    strings and errors, [int64_t] integers, any bulk payload. *)
Fixpoint producible (v : resp_value) : bool :=
  match v with
  | SimpleString s => line_text s
  | Error s => line_text s
  | Integer i => in_int64 i
  | BulkString _ => true
  | NullBulk => true
  | Array l => forallb producible l
  end.

(** ** glob.c *)

Module Glob.

(** [s[i]] for an index inside the buffer. *)
Definition byte_at (s : bytes) (i : nat) : ascii := default NUL (s !! i).

(** The [while] loop of [match_char_class]: one class element per round.
    Every round advances [i], so [length pattern] rounds are enough;
    [None] means that the round budget was too small. *)
Fixpoint class_loop (fuel : nat) (pattern : bytes) (c : ascii)
    (i : nat) (first matched : bool) : option (nat * bool) :=
  let plen := length pattern in
  if (i <? plen)%nat
     && (negb (Ascii.eqb (byte_at pattern i) "]") || first) then
    match fuel with
    | O => None
    | S fuel' =>
        let lo := byte_at pattern i in
        let range :=
          (i + 2 <? plen)%nat
          && Ascii.eqb (byte_at pattern (i + 1)) "-"
          && negb (Ascii.eqb (byte_at pattern (i + 2)) "]") in
        let hi := if range then byte_at pattern (i + 2) else lo in
        let i' := if range then (i + 3)%nat else (i + 1)%nat in
        let matched' :=
          if (uchar lo <=? uchar c) && (uchar c <=? uchar hi) then true
          else matched in
        class_loop fuel' pattern c i' false matched'
    end
  else Some (i, matched).

(** [match_char_class pattern plen pi c]: the result and the value left in
    [*pi] (unchanged when the class is not closed). *)
Definition match_char_class (pattern : bytes) (pi : nat) (c : ascii)
    : option (bool * nat) :=
  let plen := length pattern in
  let i := S pi in
  if (plen <=? i)%nat then Some (false, pi)
  else
    let negate :=
      Ascii.eqb (byte_at pattern i) "!" || Ascii.eqb (byte_at pattern i) "^" in
    let i := if negate then S i else i in
    match class_loop plen pattern c i true false with
    | None => None
    | Some (i, matched) =>
        if (plen <=? i)%nat then Some (false, pi)
        else Some (if negate then negb matched else matched, S i)
    end.

(** The trailing loop of [glob_match]: skip stars, then [pi == plen]. *)
Fixpoint only_stars (rest : bytes) : bool :=
  match rest with
  | [] => true
  | c :: rest' => if Ascii.eqb c "*" then only_stars rest' else false
  end.

(** The main loop of [glob_match].  [star_pi = None] stands for the
    sentinel [(size_t)-1]; [star_si] is read only once [star_pi] is set. *)
Fixpoint glob_loop (fuel : nat) (pattern str : bytes) (pi si : nat)
    (star_pi : option nat) (star_si : nat) : option bool :=
  let plen := length pattern in
  let slen := length str in
  if (si <? slen)%nat then
    match fuel with
    | O => None
    | S fuel' =>
        if (pi <? plen)%nat && Ascii.eqb (byte_at pattern pi) "*" then
          glob_loop fuel' pattern str (S pi) si (Some pi) si
        else if (pi <? plen)%nat
                && (Ascii.eqb (byte_at pattern pi) "?"
                    || Ascii.eqb (byte_at pattern pi) (byte_at str si)) then
          glob_loop fuel' pattern str (S pi) (S si) star_pi star_si
        else
          let class :=
            if (pi <? plen)%nat && Ascii.eqb (byte_at pattern pi) "[" then
              match_char_class pattern pi (byte_at str si)
            else Some (false, pi) in
          match class with
          | None => None
          | Some (true, pi') =>
              glob_loop fuel' pattern str pi' (S si) star_pi star_si
          | Some (false, _) =>
              match star_pi with
              | Some sp =>
                  glob_loop fuel' pattern str (S sp) (S star_si)
                    star_pi (S star_si)
              | None => Some false
              end
          end
    end
  else Some (only_stars (drop pi pattern)).

(** [glob_match pattern plen str slen].  Between two backtracking steps
    [pi] only grows, and every backtracking step moves [star_si] forward,
    so [(plen + 2) * (slen + 2)] rounds are enough. *)
Definition glob_match (pattern str : bytes) : option bool :=
  glob_loop ((length pattern + 2) * (length str + 2)) pattern str 0 0 None 0.

End Glob.

(** ** hashtable.c *)

Module Hashtable.

Abbreviation rstr_t := (list ascii).

(** [memcmp a b n == 0] on buffers of at least [n] bytes. *)
Fixpoint memcmp_eq (a b : bytes) (n : nat) : bool :=
  match n with
  | O => true
  | S n' =>
      match a, b with
      | x :: a', y :: b' => Ascii.eqb x y && memcmp_eq a' b' n'
      | _, _ => false
      end
  end.

(** rstr.c *)
Definition rstr_eq (a b : rstr_t) : bool :=
  if negb (length a =? length b)%nat then false
  else if (length a =? 0)%nat then true
  else memcmp_eq a b (length a).

Inductive entry_state_t := ENTRY_EMPTY | ENTRY_OCCUPIED | ENTRY_TOMBSTONE.

Record ht_entry_t := mk_entry {
  state : entry_state_t;
  key : rstr_t;
  value : rstr_t;
  expire_at : Z
}.

Record hashtable_t := mk_hashtable {
  entries : list ht_entry_t;
  capacity : Z;
  count : Z;
  used : Z
}.

(** A slot as [calloc] and the initialisation loops leave it: state 0,
    null strings, no expiry. *)
Definition empty_entry : ht_entry_t := mk_entry ENTRY_EMPTY [] [] (-1).

#[global] Instance ht_entry_inhabited : Inhabited ht_entry_t :=
  populate empty_entry.

Definition HT_INITIAL_CAPACITY : Z := 64.

Definition fnv1a_hash (data : bytes) : Z :=
  fold_left
    (fun hash c => (Z.lxor hash (uchar c) * 16777619) mod 2 ^ 32)
    data 2166136261.

(** [is_expired entry], the clock showing [now] if it is read. *)
Definition is_expired (entry : ht_entry_t) (now : Z) : bool :=
  if expire_at entry =? -1 then false else expire_at entry <=? now.

(** [entry_free] frees both strings (leaving them null and empty) and
    marks the slot. *)
Definition entry_free (entry : ht_entry_t) : ht_entry_t :=
  mk_entry ENTRY_TOMBSTONE [] [] (-1).

Definition set_entry (ht : hashtable_t) (slot : nat) (e : ht_entry_t)
    : hashtable_t :=
  mk_hashtable (<[slot := e]> (entries ht)) (capacity ht) (count ht) (used ht).

Definition set_count (ht : hashtable_t) (n : Z) : hashtable_t :=
  mk_hashtable (entries ht) (capacity ht) n (used ht).

Definition set_used (ht : hashtable_t) (n : Z) : hashtable_t :=
  mk_hashtable (entries ht) (capacity ht) (count ht) n.

(** [(idx + i) & (cap - 1)] *)
Definition slot_index (cap idx : Z) (i : nat) : nat :=
  Z.to_nat (Z.land (idx + Z.of_nat i) (cap - 1)).

Definition home (cap : Z) (key : rstr_t) : Z :=
  Z.land (fnv1a_hash key) (cap - 1).

(** The [for] loop of [probe]: [n] rounds remain, [i] is the loop counter,
    [first_tombstone = None] stands for the sentinel [(size_t)-1].  The
    result is the table (an expired match is freed on the way), [*found]
    and the slot returned. *)
Fixpoint probe_loop (now : Z) (ht : hashtable_t) (k : rstr_t) (idx : Z)
    (n i : nat) (first_tombstone : option nat)
    : hashtable_t * bool * nat :=
  match n with
  | O => (ht, false, default O first_tombstone)
  | S n' =>
      let slot := slot_index (capacity ht) idx i in
      let e := entries ht !!! slot in
      match state e with
      | ENTRY_EMPTY => (ht, false, default slot first_tombstone)
      | ENTRY_TOMBSTONE =>
          probe_loop now ht k idx n' (S i)
            (match first_tombstone with
             | None => Some slot
             | Some _ => first_tombstone
             end)
      | ENTRY_OCCUPIED =>
          if rstr_eq (key e) k then
            if is_expired e now then
              (set_count (set_entry ht slot (entry_free e)) (count ht - 1),
               false, default slot first_tombstone)
            else (ht, true, slot)
          else probe_loop now ht k idx n' (S i) first_tombstone
      end
  end.

Definition probe (now : Z) (ht : hashtable_t) (k : rstr_t)
    : hashtable_t * bool * nat :=
  probe_loop now ht k (home (capacity ht) k) (Z.to_nat (capacity ht)) O None.

(** The [while] loop of [ht_resize] looking for a slot that is not
    occupied.  It visits every slot within [new_cap] rounds; [None] means
    that all slots are occupied, in which case the C loop does not end. *)
Fixpoint find_free (fuel : nat) (new_entries : list ht_entry_t)
    (new_cap idx : Z) : option nat :=
  match fuel with
  | O => None
  | S fuel' =>
      match state (new_entries !!! Z.to_nat idx) with
      | ENTRY_OCCUPIED =>
          find_free fuel' new_entries new_cap (Z.land (idx + 1) (new_cap - 1))
      | _ => Some (Z.to_nat idx)
      end
  end.

(** The copying loop of [ht_resize] over the old array, which has
    [capacity] elements. *)
Fixpoint rehash (old new_entries : list ht_entry_t) (new_cap : Z)
    : option (list ht_entry_t) :=
  match old with
  | [] => Some new_entries
  | e :: old' =>
      match state e with
      | ENTRY_OCCUPIED =>
          idx ← find_free (Z.to_nat new_cap) new_entries new_cap
                  (home new_cap (key e));
          rehash old' (<[idx := e]> new_entries) new_cap
      | _ => rehash old' new_entries new_cap
      end
  end.

Definition ht_resize (ht : hashtable_t) : option hashtable_t :=
  let new_cap := capacity ht * 2 in
  new_entries ← rehash (entries ht)
                  (replicate (Z.to_nat new_cap) empty_entry) new_cap;
  Some (mk_hashtable new_entries new_cap (count ht) (count ht)).

Definition ht_create : hashtable_t :=
  mk_hashtable (replicate (Z.to_nat HT_INITIAL_CAPACITY) empty_entry)
    HT_INITIAL_CAPACITY 0 0.

(** [(double)used >= (double)capacity * 0.7].  The capacity is a power of
    two, so the product is the exact multiple of the [double] nearest to
    0.7, which lies [0.4 * 2^-53] below 0.7; [7 * capacity - 10 * used] is
    an even integer, so for capacities up to [2^51] the comparison holds
    exactly when [7 * capacity <= 10 * used]. *)
Definition load_reached (ht : hashtable_t) : bool :=
  7 * capacity ht <=? 10 * used ht.

(** [ht_set]; the result is the table and the value returned. *)
Definition ht_set (now : Z) (ht : hashtable_t) (k v : rstr_t)
    : option (hashtable_t * bool) :=
  ht ← (if load_reached ht then ht_resize ht else Some ht);
  let '(ht, found, slot) := probe now ht k in
  let e := entries ht !!! slot in
  if found then
    Some (set_entry ht slot (mk_entry (state e) k v (-1)), false)
  else
    let was_empty :=
      match state e with ENTRY_EMPTY => true | _ => false end in
    let ht := set_entry ht slot (mk_entry ENTRY_OCCUPIED k v (-1)) in
    let ht := set_count ht (count ht + 1) in
    let ht := if was_empty then set_used ht (used ht + 1) else ht in
    Some (ht, true).

(** [ht_get] returns a pointer into the table: the slot whose [value]
    field it points to, or [None] for [NULL]. *)
Definition ht_get (now : Z) (ht : hashtable_t) (k : rstr_t)
    : hashtable_t * option nat :=
  let '(ht, found, slot) := probe now ht k in
  (ht, if found then Some slot else None).

Definition ht_delete (now : Z) (ht : hashtable_t) (k : rstr_t)
    : hashtable_t * bool :=
  let '(ht, found, slot) := probe now ht k in
  if found then
    (set_count (set_entry ht slot (entry_free (entries ht !!! slot)))
       (count ht - 1), true)
  else (ht, false).

Definition ht_exists (now : Z) (ht : hashtable_t) (k : rstr_t)
    : hashtable_t * bool :=
  let '(ht, found, _) := probe now ht k in (ht, found).

Definition ht_set_expire (now : Z) (ht : hashtable_t) (k : rstr_t)
    (expire_at_ms : Z) : hashtable_t :=
  let '(ht, found, slot) := probe now ht k in
  if found then
    let e := entries ht !!! slot in
    set_entry ht slot (mk_entry (state e) (key e) (value e) expire_at_ms)
  else ht.

Definition ht_get_expire (now : Z) (ht : hashtable_t) (k : rstr_t)
    : hashtable_t * Z :=
  let '(ht, found, slot) := probe now ht k in
  if found then (ht, expire_at (entries ht !!! slot)) else (ht, -1).

Definition ht_count (ht : hashtable_t) : Z := count ht.

(** [ht_iter_next]: [n] bounds the rounds left ([capacity - index]);
    [clock i] is what the clock shows when slot [i] is examined.  The
    result is the table, the iterator's index and the pair yielded. *)
Fixpoint iter_loop (clock : nat -> Z) (ht : hashtable_t) (n index : nat)
    : hashtable_t * nat * option (rstr_t * rstr_t) :=
  match n with
  | O => (ht, index, None)
  | S n' =>
      if Z.of_nat index <? capacity ht then
        let e := entries ht !!! index in
        match state e with
        | ENTRY_OCCUPIED =>
            if is_expired e (clock index) then
              iter_loop clock
                (set_count (set_entry ht index (entry_free e)) (count ht - 1))
                n' (S index)
            else (ht, S index, Some (key e, value e))
        | _ => iter_loop clock ht n' (S index)
        end
      else (ht, index, None)
  end.

Definition ht_iter_next (clock : nat -> Z) (ht : hashtable_t) (index : nat)
    : hashtable_t * nat * option (rstr_t * rstr_t) :=
  iter_loop clock ht (Z.to_nat (capacity ht) - index) index.

End Hashtable.

(** ** commands.c *)

Module Commands.

Import Resp Hashtable Glob.

(** The digit loop of [parse_int64].  The overflow test of the negative
    branch has an empty body in the source and so has no effect. *)
Fixpoint int64_digits (s : bytes) (negative : bool) (result : Z)
    : option Z :=
  match s with
  | [] => Some result
  | c :: s' =>
      if (schar c <? schar "0") || (schar "9" <? schar c) then None
      else
        let digit := schar c - schar "0" in
        if negb negative && ((INT64_MAX - digit) `quot` 10 <? result) then None
        else int64_digits s' negative (wrap64 (result * 10 + digit))
  end.

(** [parse_int64 data len out]: [None] is the return value [false]. *)
Definition parse_int64 (data : bytes) : option Z :=
  match data with
  | [] => None
  | c :: data' =>
      if Ascii.eqb c "-" then
        match data' with
        | [] => None
        | _ => r ← int64_digits data' true 0; Some (wrap64 (- r))
        end
      else int64_digits data false 0
  end.

(** [toupper] in the C locale. *)
Definition toupper (c : ascii) : ascii :=
  if (97 <=? uchar c) && (uchar c <=? 122)
  then ascii_of_N (N_of_ascii c - 32) else c.

(** The C string held by a NUL-terminated buffer. *)
Definition c_str (s : bytes) : bytes := take (strlen s) s.

(** [strcmp a b == 0] *)
Definition strcmp_eq (a b : bytes) : bool := bool_decide (c_str a = c_str b).

(** [args[i].str], the elements being bulk strings. *)
Definition arg_str (args : list resp_value) (i : nat) : bytes :=
  match args !! i with
  | Some (BulkString s) => s
  | _ => []
  end.

(** A handler gets [clock], where [clock n] is what [current_time_ms]
    returns at the [n]-th place of the handler that may read the clock,
    the client, the store and the argument vector; it may fail to return
    only where [ht_resize] or [glob_match] do. *)
Definition clock := nat -> Z.

Definition cmd_handler_t : Type :=
  clock -> client_t -> hashtable_t -> list resp_value ->
  option (client_t * hashtable_t).

Definition cmd_ping : cmd_handler_t := fun clk client store args =>
  if (length args =? 1)%nat
  then Some (resp_write_simple_string client (bs "PONG"), store)
  else Some (resp_write_bulk_string client (arg_str args 1), store).

Definition cmd_echo : cmd_handler_t := fun clk client store args =>
  Some (resp_write_bulk_string client (arg_str args 1), store).

Definition cmd_set : cmd_handler_t := fun clk client store args =>
  let k := arg_str args 1 in
  let v := arg_str args 2 in
  '(store, _) ← ht_set (clk 0%nat) store k v;
  if (length args =? 5)%nat then
    let a3 := arg_str args 3 in
    let ex_buf :=
      if (length a3 =? 2)%nat
      then [toupper (byte_at a3 0); toupper (byte_at a3 1)] else [] in
    if strcmp_eq ex_buf (bs "EX") then
      match parse_int64 (arg_str args 4) with
      | Some seconds =>
          if seconds <=? 0 then
            let '(store, _) := ht_delete (clk 1%nat) store k in
            Some (resp_write_error client
                    (bs "ERR invalid expire time in 'set' command"), store)
          else
            let expire_at := wrap64 (clk 1%nat + wrap64 (seconds * 1000)) in
            let store := ht_set_expire (clk 2%nat) store k expire_at in
            Some (resp_write_simple_string client (bs "OK"), store)
      | None =>
          let '(store, _) := ht_delete (clk 1%nat) store k in
          Some (resp_write_error client
                  (bs "ERR invalid expire time in 'set' command"), store)
      end
    else
      let '(store, _) := ht_delete (clk 1%nat) store k in
      Some (resp_write_error client (bs "ERR syntax error"), store)
  else Some (resp_write_simple_string client (bs "OK"), store).

Definition cmd_get : cmd_handler_t := fun clk client store args =>
  let '(store, val) := ht_get (clk 0%nat) store (arg_str args 1) in
  match val with
  | Some slot =>
      Some (resp_write_bulk_string client (value (entries store !!! slot)),
            store)
  | None => Some (resp_write_null_bulk_string client, store)
  end.

(** The loops of [cmd_del] and [cmd_exists] over [args[i]], [i >= 1]. *)
Fixpoint del_loop (clk : clock) (store : hashtable_t)
    (keys : list resp_value) (i : nat) (n : Z) : hashtable_t * Z :=
  match keys with
  | [] => (store, n)
  | _ :: keys' =>
      let '(store, deleted) :=
        ht_delete (clk i) store (arg_str keys 0) in
      del_loop clk store keys' (S i) (if deleted then wrap64 (n + 1) else n)
  end.

Definition cmd_del : cmd_handler_t := fun clk client store args =>
  let '(store, n) := del_loop clk store (drop 1 args) 1 0 in
  Some (resp_write_integer client n, store).

Fixpoint exists_loop (clk : clock) (store : hashtable_t)
    (keys : list resp_value) (i : nat) (n : Z) : hashtable_t * Z :=
  match keys with
  | [] => (store, n)
  | _ :: keys' =>
      let '(store, present) :=
        ht_exists (clk i) store (arg_str keys 0) in
      exists_loop clk store keys' (S i) (if present then wrap64 (n + 1) else n)
  end.

Definition cmd_exists : cmd_handler_t := fun clk client store args =>
  let '(store, n) := exists_loop clk store (drop 1 args) 1 0 in
  Some (resp_write_integer client n, store).

Definition cmd_expire : cmd_handler_t := fun clk client store args =>
  match parse_int64 (arg_str args 2) with
  | None =>
      Some (resp_write_error client
              (bs "ERR value is not an integer or out of range"), store)
  | Some seconds =>
      let '(store, present) := ht_exists (clk 0%nat) store (arg_str args 1) in
      if negb present then Some (resp_write_integer client 0, store)
      else
        let expire_at := wrap64 (clk 1%nat + wrap64 (seconds * 1000)) in
        let store :=
          ht_set_expire (clk 2%nat) store (arg_str args 1) expire_at in
        Some (resp_write_integer client 1, store)
  end.

(** [cmd_ttl]: the clock may be read by [ht_exists] ([clk 0]), by
    [ht_get_expire] ([clk 1]), is read by the handler itself ([clk 2]) and
    may be read by [ht_delete] ([clk 3]). *)
Definition cmd_ttl : cmd_handler_t := fun clk client store args =>
  let '(store, present) := ht_exists (clk 0%nat) store (arg_str args 1) in
  if negb present then Some (resp_write_integer client (-2), store)
  else
    let '(store, expire_at) :=
      ht_get_expire (clk 1%nat) store (arg_str args 1) in
    if expire_at =? -1 then Some (resp_write_integer client (-1), store)
    else
      let now := clk 2%nat in
      let remaining_ms := wrap64 (expire_at - now) in
      if remaining_ms <=? 0 then
        let '(store, _) := ht_delete (clk 3%nat) store (arg_str args 1) in
        Some (resp_write_integer client (-2), store)
      else
        let seconds := wrap64 (remaining_ms + 999) `quot` 1000 in
        Some (resp_write_integer client seconds, store).

(** The [while (ht_iter_next ...)] loop of [cmd_keys]; every call moves the
    iterator forward, so [capacity + 1] calls are enough. *)
Fixpoint keys_loop (fuel : nat) (clk : clock) (store : hashtable_t)
    (index : nat) (pattern : bytes) (matches : list rstr_t)
    : option (hashtable_t * list rstr_t) :=
  match fuel with
  | O => None
  | S fuel' =>
      match ht_iter_next clk store index with
      | (store, index, Some (k, _)) =>
          match glob_match pattern k with
          | None => None
          | Some m =>
              keys_loop fuel' clk store index pattern
                (if m then matches ++ [k] else matches)
          end
      | (store, _, None) => Some (store, matches)
      end
  end.

Definition cmd_keys : cmd_handler_t := fun clk client store args =>
  let pattern := arg_str args 1 in
  '(store, matches) ←
    keys_loop (S (Z.to_nat (capacity store))) clk store 0 pattern [];
  let client :=
    resp_write_array_header client (Z.of_nat (length matches)) in
  Some (fold_left resp_write_bulk_string matches client, store).

Definition cmd_type : cmd_handler_t := fun clk client store args =>
  let '(store, present) := ht_exists (clk 0%nat) store (arg_str args 1) in
  if present then Some (resp_write_simple_string client (bs "string"), store)
  else Some (resp_write_simple_string client (bs "none"), store).

(** [cmd_incr] and [cmd_decr] differ in the bound tested and in the step.
    [val] points into the table, so the value parsed is the one the slot
    holds after [ht_get_expire] has run. *)
Definition incr_decr (bound step : Z) : cmd_handler_t :=
  fun clk client store args =>
  let k := arg_str args 1 in
  let '(store, val) := ht_get (clk 0%nat) store k in
  let '(store, expire_at, parsed) :=
    match val with
    | Some slot =>
        let '(store, expire_at) := ht_get_expire (clk 1%nat) store k in
        (store, expire_at, parse_int64 (value (entries store !!! slot)))
    | None => (store, -1, Some 0)
    end in
  match parsed with
  | None =>
      Some (resp_write_error client
              (bs "ERR value is not an integer or out of range"), store)
  | Some current =>
      if current =? bound then
        Some (resp_write_error client
                (bs "ERR value is not an integer or out of range"), store)
      else
        let current := wrap64 (current + step) in
        let new_val := dec_of_Z current in
        '(store, _) ← ht_set (clk 2%nat) store k new_val;
        let store :=
          if negb (expire_at =? -1)
          then ht_set_expire (clk 3%nat) store k expire_at else store in
        Some (resp_write_integer client current, store)
  end.

Definition cmd_incr : cmd_handler_t := incr_decr INT64_MAX 1.
Definition cmd_decr : cmd_handler_t := incr_decr INT64_MIN (-1).

Record cmd_entry_t := mk_cmd {
  name : bytes;
  handler : cmd_handler_t;
  min_args : Z;
  max_args : Z
}.

Definition command_table : list cmd_entry_t :=
  [ mk_cmd (bs "PING") cmd_ping 1 2;
    mk_cmd (bs "ECHO") cmd_echo 2 2;
    mk_cmd (bs "SET") cmd_set 3 5;
    mk_cmd (bs "GET") cmd_get 2 2;
    mk_cmd (bs "DEL") cmd_del 2 (-1);
    mk_cmd (bs "EXISTS") cmd_exists 2 (-1);
    mk_cmd (bs "EXPIRE") cmd_expire 3 3;
    mk_cmd (bs "TTL") cmd_ttl 2 2;
    mk_cmd (bs "KEYS") cmd_keys 2 2;
    mk_cmd (bs "TYPE") cmd_type 2 2;
    mk_cmd (bs "INCR") cmd_incr 2 2;
    mk_cmd (bs "DECR") cmd_decr 2 2 ].

Definition is_bulk (v : resp_value) : bool :=
  match v with BulkString _ => true | _ => false end.

Definition wrong_arity (entry : cmd_entry_t) : bytes :=
  bs "ERR wrong number of arguments for '" ++ name entry ++ bs "' command".

(** The lookup loop of [dispatch_command] over the table rows. *)
Fixpoint dispatch_loop (table : list cmd_entry_t) (name_buf : bytes)
    (clk : clock) (client : client_t) (store : hashtable_t)
    (args : list resp_value) : option (client_t * hashtable_t) :=
  match table with
  | [] =>
      Some (resp_write_error client
              (bs "ERR unknown command '" ++ c_str name_buf ++ bs "'"),
            store)
  | entry :: table' =>
      if strcmp_eq name_buf (name entry) then
        let argc := Z.of_nat (length args) in
        if argc <? min_args entry then
          Some (resp_write_error client (wrong_arity entry), store)
        else if negb (max_args entry =? -1) && (max_args entry <? argc) then
          Some (resp_write_error client (wrong_arity entry), store)
        else handler entry clk client store args
      else dispatch_loop table' name_buf clk client store args
  end.

Definition dispatch_command (clk : clock) (client : client_t)
    (store : hashtable_t) (cmd : resp_value)
    : option (client_t * hashtable_t) :=
  match cmd with
  | Array args =>
      if (length args =? 0)%nat || negb (forallb is_bulk args) then
        Some (resp_write_error client (bs "ERR invalid command format"),
              store)
      else
        let a0 := arg_str args 0 in
        let name_len := Nat.min (length a0) 63 in
        let name_buf := map toupper (take name_len a0) in
        dispatch_loop command_table name_buf clk client store args
  | _ =>
      Some (resp_write_error client (bs "ERR invalid command format"), store)
  end.

End Commands.

(** ** The invariants of the keyspace table *)

Import Hashtable.

Definition is_occupied (e : ht_entry_t) : bool :=
  match state e with ENTRY_OCCUPIED => true | _ => false end.

Definition is_used (e : ht_entry_t) : bool :=
  match state e with ENTRY_EMPTY => false | _ => true end.

Definition is_tombstone (e : ht_entry_t) : bool :=
  match state e with ENTRY_TOMBSTONE => true | _ => false end.

(** The number of slots that satisfy [p]. *)
Fixpoint count_if (p : ht_entry_t -> bool) (es : list ht_entry_t) : Z :=
  match es with
  | [] => 0
  | e :: es' => (if p e then 1 else 0) + count_if p es'
  end.

Definition pow2 (cap : Z) : Prop := exists n : nat, cap = 2 ^ Z.of_nat n.

(** The slots visited before step [d] of the probe sequence of [k] are
    tombstones or hold other keys. *)
Definition chain_clear (es : list ht_entry_t) (cap : Z) (k : rstr_t)
    (d : nat) : Prop :=
  forall j, (j < d)%nat ->
    let e := es !!! slot_index cap (home cap k) j in
    state e = ENTRY_TOMBSTONE \/ (state e = ENTRY_OCCUPIED /\ key e <> k).

(** The probe sequence of the key held in slot [s] reaches [s]. *)
Definition probe_chain_ok (es : list ht_entry_t) (cap : Z) (s : nat)
    : Prop :=
  forall e, es !! s = Some e -> state e = ENTRY_OCCUPIED ->
    exists d, (d < Z.to_nat cap)%nat /\
              slot_index cap (home cap (key e)) d = s /\
              chain_clear es cap (key e) d.

Definition chains_ok (ht : hashtable_t) : Prop :=
  forall s, probe_chain_ok (entries ht) (capacity ht) s.

Definition counters_ok (ht : hashtable_t) : Prop :=
  count ht = count_if is_occupied (entries ht) /\
  used ht = count_if is_used (entries ht) /\
  count ht <= used ht <= capacity ht.

Record Inv (ht : hashtable_t) : Prop := mk_Inv {
  inv_pow2 : pow2 (capacity ht);
  inv_min : HT_INITIAL_CAPACITY <= capacity ht;
  inv_len : length (entries ht) = Z.to_nat (capacity ht);
  inv_chains : chains_ok ht;
  inv_counters : counters_ok ht;
  inv_load : 10 * used ht < 7 * capacity ht + 10
}.

(** What [probe] returns on a table [ht]: the table [ht'], [*found] and the
    slot. *)
Definition probe_post (now : Z) (ht : hashtable_t) (k : rstr_t)
    (ht' : hashtable_t) (found : bool) (slot : nat) : Prop :=
  (slot < length (entries ht))%nat /\
  if found then
    ht' = ht /\
    exists e, entries ht !! slot = Some e /\ state e = ENTRY_OCCUPIED /\
              key e = k /\ is_expired e now = false
  else
    (ht' = ht \/
     exists s e, entries ht !! s = Some e /\ state e = ENTRY_OCCUPIED /\
                 key e = k /\ is_expired e now = true /\
                 ht' = set_count (set_entry ht s (entry_free e))
                         (count ht - 1)) /\
    is_occupied (entries ht' !!! slot) = false /\
    (exists d, (d < Z.to_nat (capacity ht))%nat /\
               slot_index (capacity ht) (home (capacity ht) k) d = slot /\
               forall j, (j < d)%nat ->
                 is_used (entries ht' !!!
                            slot_index (capacity ht) (home (capacity ht) k) j)
                 = true) /\
    (forall s e, entries ht' !! s = Some e -> state e = ENTRY_OCCUPIED ->
                 key e <> k).

(** Sequences of keyspace operations, each with the clock readings it may
    use. *)
Inductive ht_op :=
  | OpSet (now : Z) (k v : rstr_t)
  | OpGet (now : Z) (k : rstr_t)
  | OpExists (now : Z) (k : rstr_t)
  | OpDelete (now : Z) (k : rstr_t)
  | OpSetExpire (now : Z) (k : rstr_t) (expire_at_ms : Z)
  | OpGetExpire (now : Z) (k : rstr_t)
  | OpIterNext (clock : nat -> Z) (index : nat)
  | OpResize.

Definition run_op (op : ht_op) (ht : hashtable_t) : option hashtable_t :=
  match op with
  | OpSet now k v => fst <$> ht_set now ht k v
  | OpGet now k => Some (fst (ht_get now ht k))
  | OpExists now k => Some (fst (ht_exists now ht k))
  | OpDelete now k => Some (fst (ht_delete now ht k))
  | OpSetExpire now k ts => Some (ht_set_expire now ht k ts)
  | OpGetExpire now k => Some (fst (ht_get_expire now ht k))
  | OpIterNext clock index => Some (fst (fst (ht_iter_next clock ht index)))
  | OpResize => ht_resize ht
  end.

Fixpoint run_ops (ops : list ht_op) (ht : hashtable_t)
    : option hashtable_t :=
  match ops with
  | [] => Some ht
  | op :: ops' => ht' ← run_op op ht; run_ops ops' ht'
  end.

(** ** Properties of parsers used in the proofs *)

(** A parser whose complete parses consume a positive number of bytes
    that the buffer holds. *)
Definition bounded (self : bytes -> option parse_result) : Prop :=
  forall b v n, self b = Some (Parsed v n) -> 0 < n <= Z.of_nat (length b).

(** [self'] answers as [self] wherever [self] answers. *)
Definition extends (self self' : bytes -> option parse_result) : Prop :=
  forall b r, self b = Some r -> self' b = Some r.

(** A complete parse of an extension of [p] is either not yet available
    from [p] or already the parse of [p]. *)
Definition prefix_stable (self : bytes -> option parse_result) : Prop :=
  forall p s v n,
    self (p ++ s) = Some (Parsed v n) ->
    self p = Some NeedMore \/ self p = Some (Parsed v n).

(** What a parse of a serialized value has to give. *)
Definition reads_back (self : bytes -> option parse_result) (v : resp_value)
    : Prop :=
  forall tail,
    self (serialize v ++ tail)
    = Some (Parsed v (Z.of_nat (length (serialize v)))).

(** Every occupied slot is reached by the probe sequence of its key. *)
Definition chains_at (cap : Z) (es : list ht_entry_t) : Prop :=
  forall s, probe_chain_ok es cap s.

(** ** Sample runs *)

(** Three keys with the same home slot, the middle one deleted again. *)
Definition colliding_ops : list ht_op :=
  [ OpSet 0 (bs "a") (bs "1"); OpSet 0 (bs "cv") (bs "2");
    OpSet 0 (bs "gb") (bs "3"); OpDelete 0 (bs "cv") ].

Definition colliding_table : hashtable_t :=
  default ht_create (run_ops colliding_ops ht_create).

(** Forty-five one-byte keys: the smallest table at which
    [used >= 0.7 * capacity]. *)
Definition loaded_ops : list ht_op :=
  map (fun n => OpSet 0 [ascii_of_nat n] (bs "v")) (seq 48 45).

Definition loaded_table : hashtable_t :=
  default ht_create (run_ops loaded_ops ht_create).

(** A clock that ticks from 10999 to 11000 between the first and the
    second reading of a handler. *)
Definition ticking_clock : Commands.clock :=
  fun n => match n with O => 10999 | _ => 11000 end.

(** The store after [SET k v] and [EXPIRE k 10], both at time 1000. *)
Definition expiring_store : option hashtable_t :=
  r ← Commands.dispatch_command (fun _ => 1000) empty_client ht_create
        (Array [BulkString (bs "SET"); BulkString (bs "k");
                BulkString (bs "v")]);
  r ← Commands.dispatch_command (fun _ => 1000) empty_client (snd r)
        (Array [BulkString (bs "EXPIRE"); BulkString (bs "k");
                BulkString (bs "10")]);
  Some (snd r).

Definition expiring_table : hashtable_t := default ht_create expiring_store.

(** [TTL k] on that store while the clock ticks. *)
Definition ttl_while_ticking : option (client_t * hashtable_t) :=
  Commands.cmd_ttl ticking_clock empty_client expiring_table
    [BulkString (bs "TTL"); BulkString (bs "k")].

(** The reply to one command on the store that holds [k = v] alone. *)
Definition reply_on (k v : bytes) (cmd : resp_value) : option bytes :=
  store ← fst <$> ht_set 0 ht_create k v;
  r ← Commands.dispatch_command (fun _ => 0) empty_client store cmd;
  Some (write_buf (fst r)).

(** ** The keyspace table read as a map *)

(** The slot [e] holds the key [k]. *)
Definition holds (k : rstr_t) (e : ht_entry_t) : bool :=
  is_occupied e && rstr_eq (key e) k.

(** The entry stored under [k], found by a scan of the slot array. *)
Definition lookup_entry (ht : hashtable_t) (k : rstr_t)
    : option ht_entry_t :=
  List.find (holds k) (entries ht).

(** The entry a reader sees under [k] when the clock shows [now]. *)
Definition live_entry (ht : hashtable_t) (k : rstr_t) (now : Z)
    : option ht_entry_t :=
  match lookup_entry ht k with
  | Some e => if is_expired e now then None else Some e
  | None => None
  end.

(** Whether an optional result is there: a pointer that is not [NULL]. *)
Definition present {A : Type} (o : option A) : bool :=
  match o with Some _ => true | None => false end.

(** The string a pointer returned by [ht_get] points to. *)
Definition pointee (r : hashtable_t * option nat) : option rstr_t :=
  match snd r with
  | Some slot => Some (value (entries (fst r) !!! slot))
  | None => None
  end.

(** ** What an iteration over the table yields *)

(** The keys [cmd_keys] collects from the slots [es], the first of which
    has index [i]: those of the occupied slots that are not expired when
    they are examined and whose key matches the pattern. *)
Fixpoint keys_from (clk : nat -> Z) (pattern : bytes) (i : nat)
    (es : list ht_entry_t) : list rstr_t :=
  match es with
  | [] => []
  | e :: es' =>
      (if is_occupied e && negb (is_expired e (clk i))
          && match Glob.glob_match pattern (key e) with
             | Some true => true
             | _ => false
             end
       then [key e] else [])
      ++ keys_from clk pattern (S i) es'
  end.

(** The slots after the iteration has passed them: expired entries are
    freed. *)
Fixpoint sweep (clk : nat -> Z) (i : nat) (es : list ht_entry_t)
    : list ht_entry_t :=
  match es with
  | [] => []
  | e :: es' =>
      (if is_occupied e && is_expired e (clk i) then entry_free e else e)
      :: sweep clk (S i) es'
  end.


(** The result of a handler run on the client [c], given its result on a
    client with an empty write buffer: the reply is appended to the
    write buffer of [c]. *)
Definition reply_to (c : client_t) (r : option (client_t * hashtable_t))
    : option (client_t * hashtable_t) :=
  (fun p => (client_write_append c (write_buf (fst p)), snd p)) <$> r.

(** ** client.c and server.c: reading from a connection

    The buffers of a client are modelled by their contents (the first
    [read_len] and [write_len] bytes); the capacities [read_cap] and
    [write_cap], which only decide when [realloc] is called, are not. *)

Module Server.

Import Resp Hashtable Commands.



Definition set_read_buf (c : client_t) (buf : bytes) : client_t :=
  mk_client (fd c) buf (write_buf c).




End Server.

(** Commands dispatched one after the other on the same connection. *)
Fixpoint dispatch_all (clks : nat -> Commands.clock) (i : nat)
    (c : client_t) (store : hashtable_t) (cmds : list resp_value)
    : option (client_t * hashtable_t) :=
  match cmds with
  | [] => Some (c, store)
  | cmd :: cmds' =>
      '(c, store) ← Commands.dispatch_command (clks i) c store cmd;
      dispatch_all clks (S i) c store cmds'
  end.


(** ** Decimal strings *)

Definition is_digit (c : ascii) : bool := (48 <=? uchar c) && (uchar c <=? 57).

(** The number that a string of decimal digits denotes. *)
Definition dec_value (s : bytes) : Z :=
  fold_left (fun a c => a * 10 + (uchar c - 48)) s 0.

(** ** Patterns without special bytes *)

(** No byte of [p] is a star, a question mark or an opening bracket. *)
Definition literal (p : bytes) : bool :=
  forallb (fun c => negb (Ascii.eqb c "*" || Ascii.eqb c "?"
                          || Ascii.eqb c "[")) p.

(** * Verification *)

(** ** Facts about the machine integers *)

Section MachineIntegers.

Lemma wrap64_id x : INT64_MIN <= x <= INT64_MAX -> wrap64 x = x.
Proof.
  unfold wrap64, INT64_MIN, INT64_MAX. intros H.
  rewrite Z.mod_small; lia.
Qed.

Lemma wrap64_congr x y : x mod 2 ^ 64 = y mod 2 ^ 64 -> wrap64 x = wrap64 y.
Proof.
  unfold wrap64. intros H.
  rewrite (Zplus_mod x), (Zplus_mod y), H. reflexivity.
Qed.

Lemma wrap64_mod x : wrap64 x mod 2 ^ 64 = x mod 2 ^ 64.
Proof.
  unfold wrap64.
  rewrite Zminus_mod, Z.mod_mod by lia.
  rewrite <- Zminus_mod. f_equal. lia.
Qed.

Lemma wrap64_step a b : wrap64 (wrap64 a * 10 + b) = wrap64 (a * 10 + b).
Proof.
  apply wrap64_congr.
  rewrite (Zplus_mod (wrap64 a * 10)), (Zmult_mod (wrap64 a)), wrap64_mod.
  rewrite <- Zmult_mod, <- Zplus_mod. reflexivity.
Qed.

Lemma wrap64_neg a : wrap64 (wrap64 a * -1) = wrap64 (- a).
Proof.
  apply wrap64_congr.
  rewrite (Zmult_mod (wrap64 a)), wrap64_mod, <- Zmult_mod.
  f_equal. lia.
Qed.

Lemma wrap64_range x : INT64_MIN <= wrap64 x <= INT64_MAX.
Proof.
  unfold wrap64, INT64_MIN, INT64_MAX.
  pose proof (Z.mod_pos_bound (x + 2 ^ 63) (2 ^ 64)). lia.
Qed.

Lemma to_int_id x : - 2 ^ 31 <= x <= INT_MAX -> to_int x = x.
Proof.
  unfold to_int, INT_MAX. intros H. rewrite Z.mod_small; lia.
Qed.

Lemma to_int_le x : 0 <= x -> to_int x <= x.
Proof.
  unfold to_int. intros H.
  pose proof (Z.mod_le (x + 2 ^ 31) (2 ^ 32)). lia.
Qed.

Lemma to_int_range x : - 2 ^ 31 <= to_int x <= INT_MAX.
Proof.
  unfold to_int, INT_MAX.
  pose proof (Z.mod_pos_bound (x + 2 ^ 31) (2 ^ 32)). lia.
Qed.

End MachineIntegers.

(** ** Lines and decimal fields *)

Section Lines.

Lemma parse_line_cons c d rest :
  parse_line (c :: d :: rest) =
  if Ascii.eqb c CR && Ascii.eqb d LF then Some O
  else S <$> parse_line (d :: rest).
Proof. reflexivity. Qed.

Lemma parse_line_bound buf k :
  parse_line buf = Some k -> (k + 2 <= length buf)%nat.
Proof.
  revert k. induction buf as [|c buf IH]; intros k; [discriminate|].
  destruct buf as [|d buf]; [discriminate|]. rewrite parse_line_cons.
  destruct (Ascii.eqb c CR && Ascii.eqb d LF).
  - intros [= <-]. simpl. lia.
  - destruct (parse_line (d :: buf)) as [j|] eqn:E; [|discriminate].
    intros [= <-]. specialize (IH j eq_refl). simpl in *. lia.
Qed.

Lemma parse_line_app buf tail k :
  parse_line buf = Some k -> parse_line (buf ++ tail) = Some k.
Proof.
  revert k. induction buf as [|c buf IH]; intros k; [discriminate|].
  destruct buf as [|d buf]; [discriminate|].
  change ((c :: d :: buf) ++ tail) with (c :: d :: (buf ++ tail)).
  rewrite !parse_line_cons.
  destruct (Ascii.eqb c CR && Ascii.eqb d LF); [auto|].
  destruct (parse_line (d :: buf)) as [j|] eqn:E; [|discriminate].
  intros [= <-].
  change (d :: buf ++ tail) with ((d :: buf) ++ tail).
  rewrite (IH j eq_refl). reflexivity.
Qed.

(** A line found in an extension of [buf] is either the line found in
    [buf] or lies beyond it. *)
Lemma parse_line_prefix buf tail k :
  parse_line (buf ++ tail) = Some k ->
  parse_line buf = None \/ parse_line buf = Some k.
Proof.
  intros H. destruct (parse_line buf) as [j|] eqn:E; [right|left; reflexivity].
  rewrite (parse_line_app _ tail _ E) in H. congruence.
Qed.

Lemma has_crlf_cons c d rest :
  has_crlf (c :: d :: rest) =
  (Ascii.eqb c CR && Ascii.eqb d LF) || has_crlf (d :: rest).
Proof. reflexivity. Qed.

Lemma parse_line_terminated s tail :
  has_crlf s = false -> parse_line (s ++ CR :: LF :: tail) = Some (length s).
Proof.
  induction s as [|c s IH]; intros H; [reflexivity|].
  destruct s as [|d s].
  - change ([c] ++ CR :: LF :: tail) with (c :: CR :: LF :: tail).
    rewrite !parse_line_cons. destruct (Ascii.eqb c CR); reflexivity.
  - rewrite has_crlf_cons in H.
    apply orb_false_iff in H as [H1 H2].
    change ((c :: d :: s) ++ CR :: LF :: tail)
      with (c :: d :: (s ++ CR :: LF :: tail)).
    rewrite parse_line_cons, H1.
    change (d :: s ++ CR :: LF :: tail) with ((d :: s) ++ CR :: LF :: tail).
    rewrite (IH H2). reflexivity.
Qed.

Lemma no_cr_no_crlf s : Forall (fun c => c <> CR) s -> has_crlf s = false.
Proof.
  induction 1 as [|c s Hc Hs IH]; [reflexivity|].
  destruct s as [|d s]; [reflexivity|].
  rewrite has_crlf_cons, IH. apply Ascii.eqb_neq in Hc. rewrite Hc. reflexivity.
Qed.

Lemma strlen_no_nul s : no_nul s = true -> strlen s = length s.
Proof.
  induction s as [|c s IH]; simpl; [reflexivity|].
  intros H. apply andb_true_iff in H as [H1 H2].
  destruct (Ascii.eqb c NUL); [discriminate|]. rewrite IH; auto.
Qed.

Lemma digit_cases d :
  0 <= d < 10 ->
  d = 0 \/ d = 1 \/ d = 2 \/ d = 3 \/ d = 4 \/
  d = 5 \/ d = 6 \/ d = 7 \/ d = 8 \/ d = 9.
Proof. lia. Qed.

Ltac each_digit H :=
  apply digit_cases in H;
  repeat (destruct H as [H|H]); subst.

Lemma digit_char_value d :
  0 <= d < 10 ->
  ((schar (digit_char d) <? schar "0") || (schar "9" <? schar (digit_char d)))
    = false
  /\ schar (digit_char d) - schar "0" = d.
Proof. intros H. each_digit H; split; reflexivity. Qed.

Lemma digit_char_plain d :
  0 <= d < 10 -> digit_char d <> CR /\ digit_char d <> "-"%char.
Proof. intros H. each_digit H; split; discriminate. Qed.

Lemma dec_digits_head f n l :
  (0 < f)%nat -> 0 <= n ->
  exists d rest, 0 <= d < 10 /\ dec_digits f n l = digit_char d :: rest.
Proof.
  revert n l. induction f as [|f IH]; intros n l Hf Hn; [lia|].
  simpl. pose proof (Z.mod_pos_bound n 10 ltac:(lia)) as Hd.
  destruct (n / 10 =? 0) eqn:E; [eauto|].
  destruct f as [|f]; [simpl; eauto|].
  apply IH; [lia|]. apply Z.div_pos; lia.
Qed.

Lemma dec_digits_no_cr f n l :
  0 <= n -> Forall (fun c => c <> CR) l ->
  Forall (fun c => c <> CR) (dec_digits f n l).
Proof.
  revert n l. induction f as [|f IH]; intros n l Hn Hl; [exact Hl|].
  simpl. pose proof (Z.mod_pos_bound n 10 ltac:(lia)) as Hd.
  assert (Forall (fun c => c <> CR) (digit_char (n mod 10) :: l)) as Hl'.
  { constructor; [apply digit_char_plain; lia | exact Hl]. }
  destruct (n / 10 =? 0); [exact Hl'|].
  apply IH; [apply Z.div_pos; lia | exact Hl'].
Qed.

(** Reading back the digits printed for [n] continues from [n]. *)
Lemma int_digits_dec_digits f n l :
  0 <= n < 2 ^ Z.of_nat f ->
  int_digits (dec_digits f n l) 0 = int_digits l (wrap64 n).
Proof.
  revert n l. induction f as [|f IH]; intros n l Hn.
  - simpl in *. assert (n = 0) as -> by lia. reflexivity.
  - cbn [dec_digits].
    pose proof (Z.mod_pos_bound n 10 ltac:(lia)) as Hd.
    destruct (digit_char_value (n mod 10) Hd) as [Hrng Hval].
    destruct (n / 10 =? 0) eqn:E.
    + apply Z.eqb_eq in E. cbn [int_digits]. rewrite Hrng, Hval.
      f_equal. f_equal. rewrite (Z.div_mod n 10) at 2 by lia. lia.
    + apply Z.eqb_neq in E.
      assert (0 <= n / 10 < 2 ^ Z.of_nat f) as Hq.
      { split; [apply Z.div_pos; lia|].
        rewrite Nat2Z.inj_succ, Z.pow_succ_r in Hn by lia.
        apply Z.div_lt_upper_bound; lia. }
      rewrite (IH _ _ Hq). cbn [int_digits]. rewrite Hrng, Hval.
      rewrite wrap64_step. f_equal. f_equal.
      rewrite (Z.div_mod n 10) at 3 by lia. lia.
Qed.

Lemma log2_fuel n : 0 <= n -> 0 <= n < 2 ^ Z.of_nat (S (Z.to_nat (Z.log2 n))).
Proof.
  intros Hn. split; [exact Hn|].
  rewrite Nat2Z.inj_succ, Z2Nat.id by apply Z.log2_nonneg.
  destruct (Z.eq_dec n 0) as [->|Hne]; [reflexivity|].
  apply Z.log2_spec. lia.
Qed.

Lemma int_digits_dec_of_nonneg n :
  0 <= n -> int_digits (dec_of_nonneg n) 0 = Some (wrap64 n).
Proof.
  intros Hn. unfold dec_of_nonneg.
  rewrite int_digits_dec_digits by (apply log2_fuel; exact Hn).
  reflexivity.
Qed.

Lemma dec_of_nonneg_head n :
  0 <= n ->
  exists d rest, 0 <= d < 10 /\ dec_of_nonneg n = digit_char d :: rest.
Proof. intros Hn. apply dec_digits_head; [lia | exact Hn]. Qed.

Lemma parse_integer_value_minus c s :
  parse_integer_value ("-"%char :: c :: s) =
  r ← int_digits (c :: s) 0; Some (wrap64 (r * -1)).
Proof. reflexivity. Qed.

Lemma parse_integer_value_plain c s :
  c <> "-"%char ->
  parse_integer_value (c :: s) =
  r ← int_digits (c :: s) 0; Some (wrap64 (r * 1)).
Proof.
  intros H. apply Ascii.eqb_neq in H.
  unfold parse_integer_value. rewrite H. reflexivity.
Qed.

(** [parse_integer_value] reads back what [printf] prints for an
    [int64_t]. *)
Lemma parse_integer_value_dec_of_Z i :
  in_int64 i = true -> parse_integer_value (dec_of_Z i) = Some i.
Proof.
  unfold in_int64. intros H. apply andb_true_iff in H as [Hlo Hhi].
  apply Z.leb_le in Hlo, Hhi. unfold dec_of_Z, INT64_MIN, INT64_MAX in *.
  destruct (i <? 0) eqn:Hneg.
  - apply Z.ltb_lt in Hneg.
    destruct (dec_of_nonneg_head (- i) ltac:(lia)) as (d & rest & Hd & E).
    pose proof (int_digits_dec_of_nonneg (- i) ltac:(lia)) as Hread.
    rewrite E in *. rewrite parse_integer_value_minus, Hread. simpl.
    rewrite wrap64_neg, Z.opp_involutive.
    f_equal. apply wrap64_id. unfold INT64_MIN, INT64_MAX. lia.
  - apply Z.ltb_ge in Hneg.
    destruct (dec_of_nonneg_head i Hneg) as (d & rest & Hd & E).
    pose proof (int_digits_dec_of_nonneg i Hneg) as Hread.
    rewrite E in *.
    rewrite parse_integer_value_plain, Hread by (apply digit_char_plain, Hd).
    simpl. rewrite Z.mul_1_r.
    assert (wrap64 i = i) as Hi
      by (apply wrap64_id; unfold INT64_MIN, INT64_MAX; lia).
    rewrite !Hi. reflexivity.
Qed.

Lemma dec_of_Z_no_crlf i : has_crlf (dec_of_Z i) = false.
Proof.
  apply no_cr_no_crlf. unfold dec_of_Z, dec_of_nonneg.
  destruct (i <? 0) eqn:Hneg.
  - apply Z.ltb_lt in Hneg. constructor; [discriminate|].
    apply dec_digits_no_cr; [lia | constructor].
  - apply Z.ltb_ge in Hneg. apply dec_digits_no_cr; [lia | constructor].
Qed.

End Lines.

(** ** The parser: results, fuel and prefixes *)

Section Parser.

Lemma ret_int_parsed n v v' r :
  ret_int n v = Parsed v' r -> v' = v /\ r = to_int n /\ 0 < r.
Proof.
  unfold ret_int. destruct (0 <? to_int n) eqn:E.
  - intros [= <- <-]. apply Z.ltb_lt in E. auto.
  - destruct (to_int n =? 0); discriminate.
Qed.

Lemma ret_int_small n v : 0 < n <= INT_MAX -> ret_int n v = Parsed v n.
Proof.
  intros H. unfold ret_int. rewrite to_int_id by (unfold INT_MAX in *; lia).
  destruct (0 <? n) eqn:E; [reflexivity|]. apply Z.ltb_ge in E. lia.
Qed.

Lemma parse_bulk_string_bounds buf v n :
  parse_bulk_string buf = Parsed v n ->
  0 < n <= 1 + Z.of_nat (length buf).
Proof.
  unfold parse_bulk_string.
  destruct (parse_line buf) as [k|] eqn:Hline; [|discriminate].
  apply parse_line_bound in Hline.
  destruct (parse_integer_value (take k buf)) as [slen|]; [|discriminate].
  destruct (slen =? -1).
  { intros H. apply ret_int_parsed in H as (_ & -> & Hpos). split; [lia|].
    etransitivity; [apply to_int_le|]; lia. }
  destruct (slen <? 0) eqn:Hneg; [discriminate|]. apply Z.ltb_ge in Hneg.
  match goal with |- context [if ?c then _ else _] => destruct c eqn:Hc end;
    [discriminate|].
  intros H. apply ret_int_parsed in H as (_ & -> & Hpos). split; [lia|].
  etransitivity; [apply to_int_le; lia|].
  apply andb_false_iff in Hc as [Hc|Hc]; apply Z.ltb_ge in Hc; lia.
Qed.

(** *** Bounds on the consumed count *)

Lemma parse_elements_bounds self k buf consumed acc v n :
  bounded self ->
  0 <= consumed <= Z.of_nat (length buf) ->
  parse_elements self k buf consumed acc = Some (Parsed v n) ->
  0 < n <= Z.of_nat (length buf).
Proof.
  intros Hself. revert consumed acc.
  induction k as [|k IH]; intros consumed acc Hc; cbn [parse_elements].
  - intros [= H]. apply ret_int_parsed in H as (_ & -> & Hpos).
    split; [lia|]. etransitivity; [apply to_int_le|]; lia.
  - destruct (Z.of_nat (length buf) <=? consumed) eqn:E; [discriminate|].
    apply Z.leb_gt in E.
    destruct (self (drop (Z.to_nat consumed) buf)) as [[| |v1 r1]|] eqn:Hp;
      try discriminate.
    apply Hself in Hp. rewrite length_drop in Hp.
    apply IH. lia.
Qed.

Lemma parse_array_bounds self buf v n :
  bounded self ->
  parse_array self buf = Some (Parsed v n) ->
  0 < n <= Z.of_nat (length buf).
Proof.
  intros Hself. unfold parse_array.
  destruct (parse_line (drop 1 buf)) as [k|] eqn:Hline; [|discriminate].
  apply parse_line_bound in Hline. rewrite length_drop in Hline.
  destruct (parse_integer_value _) as [count|]; [|discriminate].
  destruct (count <? 0); [discriminate|].
  destruct (count =? 0).
  - intros [= H]. apply ret_int_parsed in H as (_ & -> & Hpos).
    split; [lia|]. etransitivity; [apply to_int_le|]; lia.
  - apply parse_elements_bounds; [exact Hself | lia].
Qed.

Lemma resp_parse_body_bounds self :
  bounded self -> bounded (resp_parse_body self).
Proof.
  intros Hself [|tag rest] v n; [discriminate|]. unfold resp_parse_body.
  destruct (Ascii.eqb tag "+" || Ascii.eqb tag "-").
  { destruct (parse_line rest) as [k|] eqn:Hline; [|discriminate].
    apply parse_line_bound in Hline.
    intros [= H]. apply ret_int_parsed in H as (_ & -> & Hpos).
    split; [lia|]. etransitivity; [apply to_int_le|]; simpl; lia. }
  destruct (Ascii.eqb tag ":").
  { destruct (parse_line rest) as [k|] eqn:Hline; [|discriminate].
    apply parse_line_bound in Hline.
    destruct (parse_integer_value _); [|discriminate].
    intros [= H]. apply ret_int_parsed in H as (_ & -> & Hpos).
    split; [lia|]. etransitivity; [apply to_int_le|]; simpl; lia. }
  destruct (Ascii.eqb tag "$").
  { intros [= H]. apply parse_bulk_string_bounds in H. simpl. lia. }
  destruct (Ascii.eqb tag "*"); [|discriminate].
  apply parse_array_bounds, Hself.
Qed.

Lemma resp_parse_fuel_bounds fuel : bounded (resp_parse_fuel fuel).
Proof.
  induction fuel as [|fuel IH]; [intros b v n; discriminate|].
  apply resp_parse_body_bounds, IH.
Qed.

(** *** More fuel never changes an answer *)

Lemma parse_elements_extends self self' k buf consumed acc r :
  extends self self' ->
  parse_elements self k buf consumed acc = Some r ->
  parse_elements self' k buf consumed acc = Some r.
Proof.
  intros Hext. revert consumed acc.
  induction k as [|k IH]; intros consumed acc; cbn [parse_elements]; [auto|].
  destruct (Z.of_nat (length buf) <=? consumed); [auto|].
  destruct (self (drop (Z.to_nat consumed) buf)) as [res|] eqn:Hp;
    [|discriminate].
  rewrite (Hext _ _ Hp). destruct res; auto.
Qed.

Lemma resp_parse_body_extends self self' :
  extends self self' -> extends (resp_parse_body self) (resp_parse_body self').
Proof.
  intros Hext [|tag rest] r; [auto|]. unfold resp_parse_body.
  destruct (Ascii.eqb tag "+" || Ascii.eqb tag "-"); [auto|].
  destruct (Ascii.eqb tag ":"); [auto|].
  destruct (Ascii.eqb tag "$"); [auto|].
  destruct (Ascii.eqb tag "*"); [|auto].
  unfold parse_array.
  destruct (parse_line _); [|auto].
  destruct (parse_integer_value _) as [count|]; [|auto].
  destruct (count <? 0); [auto|]. destruct (count =? 0); [auto|].
  apply parse_elements_extends, Hext.
Qed.

Lemma resp_parse_fuel_mono f f' :
  (f <= f')%nat -> extends (resp_parse_fuel f) (resp_parse_fuel f').
Proof.
  revert f'. induction f as [|f IH]; intros f' Hle; [intros b r; discriminate|].
  destruct f' as [|f']; [lia|].
  apply resp_parse_body_extends, IH. lia.
Qed.

(** *** Enough fuel always gives an answer *)

Lemma parse_elements_total self k buf consumed acc :
  bounded self ->
  (forall b, (length b < length buf)%nat -> is_Some (self b)) ->
  0 < consumed ->
  is_Some (parse_elements self k buf consumed acc).
Proof.
  intros Hb Htot. revert consumed acc.
  induction k as [|k IH]; intros consumed acc Hc; cbn [parse_elements];
    [eauto|].
  destruct (Z.of_nat (length buf) <=? consumed) eqn:E; [eauto|].
  apply Z.leb_gt in E.
  destruct (Htot (drop (Z.to_nat consumed) buf)) as [res Hres].
  { rewrite length_drop. lia. }
  rewrite Hres. destruct res as [| |v r]; eauto.
  apply Hb in Hres. apply IH. lia.
Qed.

Lemma resp_parse_fuel_total fuel buf :
  (length buf < fuel)%nat -> is_Some (resp_parse_fuel fuel buf).
Proof.
  revert buf. induction fuel as [|fuel IH]; intros buf Hlen; [lia|].
  cbn [resp_parse_fuel]. destruct buf as [|tag rest]; [eauto|].
  unfold resp_parse_body.
  destruct (Ascii.eqb tag "+" || Ascii.eqb tag "-").
  { destruct (parse_line rest); eauto. }
  destruct (Ascii.eqb tag ":").
  { destruct (parse_line rest); [|eauto].
    destruct (parse_integer_value _); eauto. }
  destruct (Ascii.eqb tag "$"); [eauto|].
  destruct (Ascii.eqb tag "*"); [|eauto].
  unfold parse_array.
  destruct (parse_line _); [|eauto].
  destruct (parse_integer_value _) as [count|]; [|eauto].
  destruct (count <? 0); [eauto|]. destruct (count =? 0); [eauto|].
  apply parse_elements_total; [apply resp_parse_fuel_bounds| |lia].
  intros b Hb. apply IH. simpl in *. lia.
Qed.

(** [resp_parse] always returns, and any sufficient fuel gives its answer. *)
Lemma resp_parse_total buf : is_Some (resp_parse buf).
Proof. apply resp_parse_fuel_total. lia. Qed.

Lemma resp_parse_fuel_resp_parse fuel buf r :
  resp_parse_fuel fuel buf = Some r -> resp_parse buf = Some r.
Proof.
  intros H. destruct (resp_parse_total buf) as [r' Hr']. rewrite Hr'.
  unfold resp_parse in Hr'.
  pose proof (resp_parse_fuel_mono _ (max fuel (S (length buf)))
                ltac:(apply Nat.le_max_l) _ _ H) as H1.
  pose proof (resp_parse_fuel_mono _ (max fuel (S (length buf)))
                ltac:(apply Nat.le_max_r) _ _ Hr') as H2.
  congruence.
Qed.

End Parser.

(** ** Restartability *)

Section Restart.

Lemma parse_bulk_string_prefix p s v n :
  parse_bulk_string (p ++ s) = Parsed v n ->
  parse_bulk_string p = NeedMore \/ parse_bulk_string p = Parsed v n.
Proof.
  unfold parse_bulk_string.
  destruct (parse_line (p ++ s)) as [k|] eqn:Hline; [|discriminate].
  destruct (parse_line_prefix _ _ _ Hline) as [Hp|Hp]; rewrite Hp; [auto|].
  pose proof (parse_line_bound _ _ Hp) as Hk.
  rewrite take_app_le by lia.
  destruct (parse_integer_value (take k p)) as [slen|]; [|discriminate].
  destruct (slen =? -1); [auto|].
  destruct (slen <? 0) eqn:Hneg; [discriminate|]. apply Z.ltb_ge in Hneg.
  match goal with |- context [if ?c then _ else _] => destruct c end;
    [discriminate|].
  match goal with |- context [if ?c then NeedMore else _] =>
    destruct c eqn:Hc end; [auto|].
  assert (Z.of_nat k + 2 + slen + 2 <= Z.of_nat (length p)) as Hroom.
  { apply andb_false_iff in Hc as [Hc|Hc]; apply Z.ltb_ge in Hc; lia. }
  rewrite drop_app_le by lia.
  rewrite take_app_le by (rewrite length_drop; lia). auto.
Qed.

Lemma parse_elements_prefix self k p s consumed acc v n :
  prefix_stable self ->
  parse_elements self k (p ++ s) consumed acc = Some (Parsed v n) ->
  parse_elements self k p consumed acc = Some NeedMore \/
  parse_elements self k p consumed acc = Some (Parsed v n).
Proof.
  intros Hself. revert consumed acc.
  induction k as [|k IH]; intros consumed acc; cbn [parse_elements]; [auto|].
  destruct (Z.of_nat (length (p ++ s)) <=? consumed); [discriminate|].
  destruct (Z.of_nat (length p) <=? consumed) eqn:E; [auto|].
  apply Z.leb_gt in E.
  rewrite drop_app_le by lia.
  destruct (self (drop (Z.to_nat consumed) p ++ s)) as [[| |v1 r1]|] eqn:Hp;
    try discriminate.
  destruct (Hself _ _ _ _ Hp) as [Hq|Hq]; rewrite Hq; [auto|]. apply IH.
Qed.

Lemma parse_array_prefix self p s v n :
  prefix_stable self ->
  parse_array self (p ++ s) = Some (Parsed v n) ->
  parse_array self p = Some NeedMore \/
  parse_array self p = Some (Parsed v n).
Proof.
  intros Hself. unfold parse_array.
  destruct p as [|tag rest].
  { intros _. left. reflexivity. }
  change (drop 1 ((tag :: rest) ++ s)) with (rest ++ s).
  change (drop 1 (tag :: rest)) with rest.
  destruct (parse_line (rest ++ s)) as [k|] eqn:Hline; [|discriminate].
  destruct (parse_line_prefix _ _ _ Hline) as [Hp|Hp]; rewrite Hp; [auto|].
  pose proof (parse_line_bound _ _ Hp) as Hk.
  rewrite take_app_le by lia.
  destruct (parse_integer_value (take k rest)) as [count|]; [|discriminate].
  destruct (count <? 0); [discriminate|]. destruct (count =? 0); [auto|].
  apply parse_elements_prefix, Hself.
Qed.

Lemma resp_parse_body_prefix self :
  prefix_stable self -> prefix_stable (resp_parse_body self).
Proof.
  intros Hself [|tag rest] s v n.
  { intros _. left. reflexivity. }
  change ((tag :: rest) ++ s) with (tag :: (rest ++ s)).
  unfold resp_parse_body.
  destruct (Ascii.eqb tag "+" || Ascii.eqb tag "-").
  { destruct (parse_line (rest ++ s)) as [k|] eqn:Hline; [|discriminate].
    destruct (parse_line_prefix _ _ _ Hline) as [Hp|Hp]; rewrite Hp; [auto|].
    pose proof (parse_line_bound _ _ Hp) as Hk.
    rewrite take_app_le by lia. auto. }
  destruct (Ascii.eqb tag ":").
  { destruct (parse_line (rest ++ s)) as [k|] eqn:Hline; [|discriminate].
    destruct (parse_line_prefix _ _ _ Hline) as [Hp|Hp]; rewrite Hp; [auto|].
    pose proof (parse_line_bound _ _ Hp) as Hk.
    rewrite take_app_le by lia. auto. }
  destruct (Ascii.eqb tag "$").
  { intros [= H]. apply parse_bulk_string_prefix in H as [-> | ->]; auto. }
  destruct (Ascii.eqb tag "*"); [|discriminate].
  change (tag :: rest ++ s) with ((tag :: rest) ++ s).
  apply parse_array_prefix, Hself.
Qed.

Lemma resp_parse_fuel_prefix fuel : prefix_stable (resp_parse_fuel fuel).
Proof.
  induction fuel as [|fuel IH]; [intros p s v n; discriminate|].
  apply resp_parse_body_prefix, IH.
Qed.

Lemma resp_parse_prefix p s v n :
  resp_parse (p ++ s) = Some (Parsed v n) ->
  resp_parse p = Some NeedMore \/ resp_parse p = Some (Parsed v n).
Proof.
  intros H. unfold resp_parse in H.
  destruct (resp_parse_fuel_prefix _ _ _ _ _ H) as [Hp|Hp];
    apply resp_parse_fuel_resp_parse in Hp; auto.
Qed.

(** C2.  Restartability: when the bytes [B] parse as one frame that uses
    all of [B], then for every split [B = P ++ S] the parser on [P] alone
    answers [NeedMore] or a complete parse that consumed at most [|P|]
    bytes (the parse of [B] itself), never [Malformed], and on [P ++ S]
    it gives the value and the count it gives on [B]. *)
Theorem resp_parse_restartable (B P S : bytes) (v : resp_value) :
  B = P ++ S ->
  resp_parse B = Some (Parsed v (Z.of_nat (length B))) ->
  (resp_parse P = Some NeedMore \/
   exists n, resp_parse P = Some (Parsed v n) /\ n <= Z.of_nat (length P)) /\
  resp_parse P <> Some Malformed /\
  resp_parse (P ++ S) = Some (Parsed v (Z.of_nat (length B))).
Proof.
  intros -> H.
  destruct (resp_parse_prefix _ _ _ _ H) as [Hp|Hp].
  - repeat split; [left; exact Hp | congruence | exact H].
  - repeat split; [right | congruence | exact H].
    eexists. split; [exact Hp|].
    pose proof (resp_parse_fuel_bounds _ _ _ _ Hp). lia.
Qed.

Lemma resp_parse_restartable_witness :
  (resp_parse (bs "*1" ++ CRLF ++ bs "$4" ++ CRLF ++ bs "PI")
   = Some NeedMore \/
   exists n,
     resp_parse (bs "*1" ++ CRLF ++ bs "$4" ++ CRLF ++ bs "PI")
     = Some (Parsed (Array [BulkString (bs "PING")]) n) /\
     n <= Z.of_nat (length (bs "*1" ++ CRLF ++ bs "$4" ++ CRLF ++ bs "PI"))) /\
  resp_parse (bs "*1" ++ CRLF ++ bs "$4" ++ CRLF ++ bs "PI")
  <> Some Malformed /\
  resp_parse ((bs "*1" ++ CRLF ++ bs "$4" ++ CRLF ++ bs "PI")
              ++ (bs "NG" ++ CRLF))
  = Some (Parsed (Array [BulkString (bs "PING")]) 14).
Proof.
  apply (resp_parse_restartable
           (bs "*1" ++ CRLF ++ bs "$4" ++ CRLF ++ bs "PING" ++ CRLF)
           (bs "*1" ++ CRLF ++ bs "$4" ++ CRLF ++ bs "PI")
           (bs "NG" ++ CRLF)
           (Array [BulkString (bs "PING")]));
    reflexivity.
Defined.

(** A proper prefix of a frame that uses all its bytes is never complete. *)
Corollary resp_parse_proper_prefix (P S : bytes) (v : resp_value) :
  S <> [] ->
  resp_parse (P ++ S) = Some (Parsed v (Z.of_nat (length (P ++ S)))) ->
  resp_parse P = Some NeedMore.
Proof.
  intros HS H. destruct (resp_parse_prefix _ _ _ _ H) as [Hp|Hp]; [exact Hp|].
  pose proof (resp_parse_fuel_bounds _ _ _ _ Hp) as Hb.
  rewrite length_app in Hb. destruct S; [congruence|]. simpl in Hb. lia.
Qed.

End Restart.

(** ** Round trip *)

Section RoundTrip.

Lemma resp_value_ind_nested (P : resp_value -> Prop) :
  (forall s, P (SimpleString s)) ->
  (forall s, P (Error s)) ->
  (forall i, P (Integer i)) ->
  (forall s, P (BulkString s)) ->
  P NullBulk ->
  (forall l, Forall P l -> P (Array l)) ->
  forall v, P v.
Proof.
  intros Hs He Hi Hb Hn Ha.
  fix self 1.
  intros [s|s|i|s| |l];
    [apply Hs | apply He | apply Hi | apply Hb | apply Hn |].
  apply Ha. induction l as [|e l IH]; constructor; [apply self | exact IH].
Qed.

Lemma write_buf_fold (l : list resp_value) :
  Forall (fun e => forall c,
            write_buf (resp_write_value c e) = write_buf c ++ serialize e) l ->
  forall c,
    write_buf (fold_left (fun c' e => resp_write_value c' e) l c)
    = write_buf c ++ concat (map serialize l).
Proof.
  induction 1 as [|e l He Hl IH]; intros c; simpl.
  - rewrite app_nil_r. reflexivity.
  - rewrite IH, He, <- app_assoc. reflexivity.
Qed.

Ltac norm_app :=
  cbn [app]; repeat (rewrite <- app_assoc; cbn [app]).

Ltac list_len :=
  repeat first [rewrite length_app | progress cbn [length CRLF]].

Lemma resp_write_value_app v :
  forall c, write_buf (resp_write_value c v) = write_buf c ++ serialize v.
Proof.
  induction v as [s|s|i|s| |l IH] using resp_value_ind_nested; intros c;
    unfold serialize; cbn [resp_write_value].
  - unfold resp_write_simple_string. simpl. norm_app. reflexivity.
  - unfold resp_write_error. simpl. norm_app. reflexivity.
  - reflexivity.
  - unfold resp_write_bulk_string, client_write_append.
    cbn [write_buf fd read_buf empty_client bs list_ascii_of_string].
    norm_app. reflexivity.
  - reflexivity.
  - rewrite !(write_buf_fold l IH).
    unfold resp_write_array_header, client_write_append.
    cbn [write_buf fd read_buf empty_client bs list_ascii_of_string].
    norm_app. reflexivity.
Qed.

Lemma serialize_simple_string s :
  serialize (SimpleString s) = "+"%char :: take (strlen s) s ++ CRLF.
Proof. reflexivity. Qed.

Lemma serialize_error s :
  serialize (Error s) = "-"%char :: take (strlen s) s ++ CRLF.
Proof. reflexivity. Qed.

Lemma serialize_integer i :
  serialize (Integer i) = ":"%char :: dec_of_Z i ++ CRLF.
Proof. reflexivity. Qed.

Lemma serialize_bulk_string s :
  serialize (BulkString s)
  = "$"%char :: dec_of_Z (Z.of_nat (length s)) ++ CRLF ++ s ++ CRLF.
Proof.
  unfold serialize, resp_write_value, resp_write_bulk_string,
    client_write_append.
  cbn [write_buf fd read_buf empty_client bs list_ascii_of_string].
  norm_app. reflexivity.
Qed.

Lemma serialize_array l :
  serialize (Array l)
  = "*"%char :: dec_of_Z (Z.of_nat (length l)) ++ CRLF
      ++ concat (map serialize l).
Proof.
  unfold serialize. cbn [resp_write_value].
  rewrite write_buf_fold.
  - unfold resp_write_array_header, client_write_append.
    cbn [write_buf fd read_buf empty_client bs list_ascii_of_string].
    norm_app. reflexivity.
  - apply Forall_forall. intros e _ c. apply resp_write_value_app.
Qed.

Lemma serialize_nonempty v : (0 < length (serialize v))%nat.
Proof.
  destruct v; rewrite ?serialize_simple_string, ?serialize_error,
    ?serialize_integer, ?serialize_bulk_string, ?serialize_array;
    simpl; lia.
Qed.

Lemma line_text_take s :
  line_text s = true -> take (strlen s) s = s /\ has_crlf s = false.
Proof.
  unfold line_text. intros H. apply andb_true_iff in H as [H1 H2].
  rewrite strlen_no_nul by exact H1. rewrite firstn_all.
  split; [reflexivity|]. destruct (has_crlf s); [discriminate|reflexivity].
Qed.

Lemma serialize_member_length (e : resp_value) (l : list resp_value) :
  e ∈ l ->
  (length (serialize e) <= length (concat (map serialize l)))%nat.
Proof.
  induction 1 as [e l|e e' l He IH]; cbn [map concat]; rewrite length_app;
    lia.
Qed.

Lemma parse_elements_serialized self l :
  Forall (reads_back self) l ->
  forall pre acc tail,
    Z.of_nat (length (pre ++ concat (map serialize l))) <= INT_MAX ->
    (0 < length pre)%nat ->
    parse_elements self (length l) (pre ++ concat (map serialize l) ++ tail)
      (Z.of_nat (length pre)) acc
    = Some (Parsed (Array (rev acc ++ l))
              (Z.of_nat (length (pre ++ concat (map serialize l))))).
Proof.
  induction 1 as [|e l He Hl IH]; intros pre acc tail Hmax Hpre.
  - simpl in *. rewrite !app_nil_r in *. rewrite ret_int_small by lia.
    reflexivity.
  - pose proof (serialize_nonempty e) as Hne.
    cbn [length parse_elements map concat] in *.
    rewrite !length_app in *.
    destruct (Z.of_nat _ <=? Z.of_nat (length pre)) eqn:E.
    { apply Z.leb_le in E. lia. }
    rewrite Nat2Z.id, drop_app_length, <- app_assoc, He.
    rewrite <- Nat2Z.inj_add, <- length_app.
    specialize (IH (pre ++ serialize e) (e :: acc) tail).
    rewrite <- !app_assoc in IH. rewrite IH.
    + f_equal. f_equal.
      * f_equal. cbn [rev]. rewrite <- app_assoc. reflexivity.
      * rewrite !length_app. reflexivity.
    + rewrite !length_app. lia.
    + rewrite length_app. lia.
Qed.

Lemma dec_field_line i tail :
  parse_line (dec_of_Z i ++ CRLF ++ tail) = Some (length (dec_of_Z i)).
Proof. apply parse_line_terminated, dec_of_Z_no_crlf. Qed.

Lemma in_int64_length n :
  Z.of_nat n <= INT_MAX -> in_int64 (Z.of_nat n) = true.
Proof.
  unfold in_int64, INT_MAX, INT64_MIN, INT64_MAX. intros H.
  apply andb_true_iff. split; apply Z.leb_le; lia.
Qed.

Lemma resp_parse_fuel_serialize v :
  producible v = true ->
  forall fuel,
    (length (serialize v) < fuel)%nat ->
    Z.of_nat (length (serialize v)) <= INT_MAX ->
    reads_back (resp_parse_fuel fuel) v.
Proof.
  induction v as [s|s|i|s| |l IH] using resp_value_ind_nested;
    intros Hprod [|fuel] Hfuel Hmax tail; try lia;
    cbn [resp_parse_fuel].
  - (* simple string *)
    apply line_text_take in Hprod as [Htake Hcrlf].
    rewrite serialize_simple_string, Htake in *.
    cbn [app resp_parse_body]. rewrite <- app_assoc. simpl Ascii.eqb.
    cbn [orb]. unfold CRLF. cbn [app].
    rewrite parse_line_terminated, take_app_length by exact Hcrlf.
    rewrite ret_int_small.
    + do 2 f_equal. simpl. rewrite length_app. simpl. lia.
    + simpl in Hmax. rewrite length_app in Hmax. simpl in Hmax. lia.
  - (* error *)
    apply line_text_take in Hprod as [Htake Hcrlf].
    rewrite serialize_error, Htake in *.
    cbn [app resp_parse_body]. rewrite <- app_assoc. simpl Ascii.eqb.
    cbn [orb]. unfold CRLF. cbn [app].
    rewrite parse_line_terminated, take_app_length by exact Hcrlf.
    rewrite ret_int_small.
    + do 2 f_equal. simpl. rewrite length_app. simpl. lia.
    + simpl in Hmax. rewrite length_app in Hmax. simpl in Hmax. lia.
  - (* integer *)
    rewrite serialize_integer in *.
    cbn [app resp_parse_body]. rewrite <- app_assoc. simpl Ascii.eqb.
    cbn [orb]. rewrite dec_field_line, take_app_length.
    rewrite parse_integer_value_dec_of_Z by exact Hprod.
    rewrite ret_int_small.
    + do 2 f_equal. simpl. rewrite length_app. simpl. lia.
    + simpl in Hmax. rewrite length_app in Hmax. simpl in Hmax. lia.
  - (* bulk string *)
    rewrite serialize_bulk_string in *.
    cbn [length] in Hmax. rewrite !length_app in Hmax. cbn [length CRLF] in Hmax.
    cbn [app resp_parse_body]. rewrite <- !app_assoc. simpl Ascii.eqb.
    cbn [orb]. unfold parse_bulk_string.
    rewrite dec_field_line, take_app_length.
    rewrite parse_integer_value_dec_of_Z by (apply in_int64_length; lia).
    destruct (Z.of_nat (length s) =? -1) eqn:E1; [apply Z.eqb_eq in E1; lia|].
    destruct (Z.of_nat (length s) <? 0) eqn:E2; [apply Z.ltb_lt in E2; lia|].
    rewrite !length_app. cbn [length CRLF].
    match goal with |- context [if ?c then NeedMore else _] =>
      destruct c eqn:Hc end.
    { apply andb_true_iff in Hc as [Hc _]. apply Z.ltb_lt in Hc. lia. }
    rewrite ret_int_small by lia.
    rewrite Nat2Z.id.
    replace (dec_of_Z (Z.of_nat (length s)) ++ CRLF ++ s ++ CRLF ++ tail)
      with ((dec_of_Z (Z.of_nat (length s)) ++ CRLF) ++ s ++ CRLF ++ tail)
      by (rewrite <- app_assoc; reflexivity).
    rewrite drop_app_length' by (rewrite length_app; reflexivity).
    rewrite take_app_length. do 2 f_equal. list_len. lia.
  - (* null bulk *) reflexivity.
  - (* array *)
    rewrite serialize_array in *.
    cbn [length] in Hmax, Hfuel. rewrite !length_app in Hmax, Hfuel.
    cbn [length CRLF] in Hmax, Hfuel.
    cbn [app resp_parse_body]. simpl Ascii.eqb. cbn [orb].
    unfold parse_array. cbn [drop]. rewrite !drop_0, <- !app_assoc.
    rewrite dec_field_line, take_app_length.
    rewrite parse_integer_value_dec_of_Z.
    2:{ apply in_int64_length.
        assert (length l <= length (concat (map serialize l)))%nat; [|lia].
        clear. induction l as [|e l IHl]; simpl; [lia|].
        pose proof (serialize_nonempty e). rewrite length_app. lia. }
    destruct (Z.of_nat (length l) <? 0) eqn:E2; [apply Z.ltb_lt in E2; lia|].
    destruct (Z.of_nat (length l) =? 0) eqn:E1.
    + apply Z.eqb_eq in E1. destruct l; [|simpl in E1; lia].
      cbn [map concat length] in *.
      rewrite ret_int_small by lia.
      do 2 f_equal; list_len; lia.
    + rewrite Nat2Z.id.
      assert (Forall (reads_back (resp_parse_fuel fuel)) l) as Hall.
      { rewrite Forall_forall in IH |- *. intros e He.
        pose proof (serialize_member_length e l He) as Hlen.
        apply IH; [exact He | | lia | lia].
        cbn [producible] in Hprod.
        rewrite forallb_forall in Hprod. apply Hprod.
        apply list_elem_of_In, He. }
      pose proof (parse_elements_serialized (resp_parse_fuel fuel) l Hall)
        as Hloop.
      specialize (Hloop ("*"%char :: dec_of_Z (Z.of_nat (length l)) ++ CRLF)
                    [] tail).
      cbn [length] in Hloop. rewrite !length_app in Hloop.
      cbn [length CRLF app] in Hloop. rewrite <- !app_assoc in Hloop.
      replace (1 + Z.of_nat (length (dec_of_Z (Z.of_nat (length l)))) + 2)
        with (Z.of_nat (S (length (dec_of_Z (Z.of_nat (length l))) + 2)))
        by lia.
      rewrite Hloop;
        [cbn [rev app]; do 2 f_equal; list_len; lia | list_len; lia | lia].
Qed.

(** C1 (as amended).  Round trip: for every wire value [v] whose simple
    string and error texts are C strings without a CR LF pair, whose
    integers are [int64_t] values, and whose serialization is at most
    [INT_MAX] bytes long (the parser reports the consumed count as an
    [int]), parsing the serialization of [v] yields [v] and consumes
    exactly the bytes the serializer emitted. *)
Theorem serialize_parse_roundtrip (v : resp_value) :
  producible v = true ->
  Z.of_nat (length (serialize v)) <= INT_MAX ->
  resp_parse (serialize v)
  = Some (Parsed v (Z.of_nat (length (serialize v)))).
Proof.
  intros Hprod Hmax.
  pose proof (resp_parse_fuel_serialize v Hprod (S (length (serialize v)))
                ltac:(lia) Hmax []) as H.
  rewrite app_nil_r in H. exact H.
Qed.

Lemma serialize_parse_roundtrip_witness :
  resp_parse
    (serialize
       (Array [SimpleString (bs "OK"); Error (bs "ERR syntax error");
               Integer (-42); BulkString (bs "a" ++ CRLF ++ bs "b");
               NullBulk; Array [Integer INT64_MIN]]))
  = Some
      (Parsed
         (Array [SimpleString (bs "OK"); Error (bs "ERR syntax error");
                 Integer (-42); BulkString (bs "a" ++ CRLF ++ bs "b");
                 NullBulk; Array [Integer INT64_MIN]])
         (Z.of_nat
            (length
               (serialize
                  (Array [SimpleString (bs "OK");
                          Error (bs "ERR syntax error");
                          Integer (-42);
                          BulkString (bs "a" ++ CRLF ++ bs "b");
                          NullBulk; Array [Integer INT64_MIN]]))))).
Proof.
  apply (serialize_parse_roundtrip
           (Array [SimpleString (bs "OK"); Error (bs "ERR syntax error");
                   Integer (-42); BulkString (bs "a" ++ CRLF ++ bs "b");
                   NullBulk; Array [Integer INT64_MIN]])).
  - reflexivity.
  - vm_compute. discriminate.
Defined.

(** A bulk string of [2^31] bytes: the serializer emits it, and the parser
    returns the consumed count through [(int)], which comes out negative. *)
Lemma bulk_string_too_long payload :
  Z.of_nat (length payload) = 2147483648 ->
  resp_parse (serialize (BulkString payload)) = Some Malformed.
Proof.
  intros Hlen. apply (resp_parse_fuel_resp_parse 1).
  rewrite serialize_bulk_string, Hlen.
  cbn [resp_parse_fuel resp_parse_body]. simpl Ascii.eqb. cbn [orb].
  unfold parse_bulk_string.
  rewrite dec_field_line, take_app_length.
  rewrite parse_integer_value_dec_of_Z by reflexivity.
  change (2147483648 =? -1) with false.
  change (2147483648 <? 0) with false. cbv iota.
  list_len. rewrite !Nat2Z.inj_add, Hlen.
  change (Z.of_nat (length (dec_of_Z 2147483648))) with 10.
  reflexivity.
Qed.

(** C1 as stated puts no condition on error texts, nor on sizes.  The error
    reply to an unknown command quotes the command name, which may hold a
    CR LF pair; such a reply is read back as a shorter error.  And a bulk
    string of [2^31] bytes is read back as a protocol error. *)
Lemma roundtrip_error_counterexample :
  (fun r => write_buf (fst r)) <$>
    Commands.dispatch_command (fun _ => 0) empty_client ht_create
      (Array [BulkString (bs "a" ++ CRLF ++ bs "b")])
  = Some (serialize (Error (bs "ERR unknown command 'A" ++ CRLF ++ bs "B'")))
  /\
  resp_parse
    (serialize (Error (bs "ERR unknown command 'A" ++ CRLF ++ bs "B'")))
  = Some (Parsed (Error (bs "ERR unknown command 'A")) 25) /\
  resp_parse
    (serialize (Error (bs "ERR unknown command 'A" ++ CRLF ++ bs "B'")))
  <> Some
       (Parsed (Error (bs "ERR unknown command 'A" ++ CRLF ++ bs "B'"))
          (Z.of_nat
             (length
                (serialize
                   (Error (bs "ERR unknown command 'A" ++ CRLF ++ bs "B'"))))))
  /\
  resp_parse
    (serialize (BulkString (replicate (Z.to_nat 2147483648) "a"%char)))
  = Some Malformed.
Proof.
  split; [vm_compute; reflexivity|].
  split; [vm_compute; reflexivity|].
  split; [vm_compute; discriminate|].
  apply bulk_string_too_long. rewrite length_replicate.
  apply Z2Nat.id. discriminate.
Qed.

End RoundTrip.

(** ** The keyspace table: slots and counters *)

Section Slots.

Lemma land_mask cap x : pow2 cap -> Z.land x (cap - 1) = x mod cap.
Proof.
  intros [n ->]. rewrite <- Z.land_ones by lia.
  f_equal. rewrite Z.ones_equiv. lia.
Qed.

Lemma pow2_pos cap : pow2 cap -> 0 < cap.
Proof. intros [n ->]. apply Z.pow_pos_nonneg; lia. Qed.

Lemma pow2_double cap : pow2 cap -> pow2 (cap * 2).
Proof.
  intros [n ->]. exists (S n).
  rewrite Nat2Z.inj_succ, Z.pow_succ_r by lia. lia.
Qed.

Lemma home_range cap k : pow2 cap -> 0 <= home cap k < cap.
Proof.
  intros H. unfold home. rewrite land_mask by exact H.
  apply Z.mod_pos_bound, pow2_pos, H.
Qed.

Lemma slot_index_mod cap idx i :
  pow2 cap -> 0 <= idx ->
  slot_index cap idx i = ((Z.to_nat idx + i) mod Z.to_nat cap)%nat.
Proof.
  intros Hp Hidx. pose proof (pow2_pos _ Hp) as Hpos.
  unfold slot_index. rewrite land_mask by exact Hp.
  rewrite <- (Z2Nat.id cap) at 1 by lia.
  rewrite <- (Z2Nat.id idx) at 1 by lia.
  rewrite <- Nat2Z.inj_add, <- Nat2Z.inj_mod, Nat2Z.id. reflexivity.
Qed.

Lemma mod_wrap (a n : nat) :
  (0 < n)%nat -> (a < 2 * n)%nat ->
  (a mod n = if (a <? n)%nat then a else a - n)%nat.
Proof.
  intros Hn Ha. destruct (a <? n)%nat eqn:E.
  - apply Nat.ltb_lt in E. apply Nat.mod_small, E.
  - apply Nat.ltb_ge in E.
    replace a with ((a - n) + 1 * n)%nat at 1 by lia.
    rewrite Nat.Div0.mod_add. apply Nat.mod_small. lia.
Qed.

Lemma slot_index_lt cap idx i :
  pow2 cap -> 0 <= idx -> (slot_index cap idx i < Z.to_nat cap)%nat.
Proof.
  intros Hp Hidx. rewrite slot_index_mod by assumption.
  apply Nat.mod_upper_bound. pose proof (pow2_pos _ Hp). lia.
Qed.

Lemma slot_index_inj cap idx i j :
  pow2 cap -> 0 <= idx < cap ->
  (i < Z.to_nat cap)%nat -> (j < Z.to_nat cap)%nat ->
  slot_index cap idx i = slot_index cap idx j -> i = j.
Proof.
  intros Hp Hidx Hi Hj. rewrite !slot_index_mod by (assumption || lia).
  rewrite !mod_wrap by lia.
  destruct (Z.to_nat idx + i <? Z.to_nat cap)%nat eqn:E1;
    destruct (Z.to_nat idx + j <? Z.to_nat cap)%nat eqn:E2;
    try apply Nat.ltb_lt in E1; try apply Nat.ltb_ge in E1;
    try apply Nat.ltb_lt in E2; try apply Nat.ltb_ge in E2; lia.
Qed.

Lemma slot_index_surj cap idx s :
  pow2 cap -> 0 <= idx < cap -> (s < Z.to_nat cap)%nat ->
  exists i, (i < Z.to_nat cap)%nat /\ slot_index cap idx i = s.
Proof.
  intros Hp Hidx Hs.
  destruct (le_lt_dec (Z.to_nat idx) s) as [Hle|Hlt].
  - exists (s - Z.to_nat idx)%nat. split; [lia|].
    rewrite slot_index_mod by (assumption || lia).
    rewrite mod_wrap by lia.
    destruct (_ <? _)%nat eqn:E;
      [apply Nat.ltb_lt in E | apply Nat.ltb_ge in E]; lia.
  - exists (s + Z.to_nat cap - Z.to_nat idx)%nat. split; [lia|].
    rewrite slot_index_mod by (assumption || lia).
    rewrite mod_wrap by lia.
    destruct (_ <? _)%nat eqn:E;
      [apply Nat.ltb_lt in E | apply Nat.ltb_ge in E]; lia.
Qed.

Lemma slot_index_0 cap idx :
  pow2 cap -> 0 <= idx < cap -> slot_index cap idx 0 = Z.to_nat idx.
Proof.
  intros Hp Hidx. rewrite slot_index_mod by (assumption || lia).
  rewrite Nat.add_0_r. apply Nat.mod_small. lia.
Qed.

Lemma slot_index_succ cap idx i :
  pow2 cap -> 0 <= idx ->
  Z.land (Z.of_nat (slot_index cap idx i) + 1) (cap - 1)
  = Z.of_nat (slot_index cap idx (S i)).
Proof.
  intros Hp Hidx. pose proof (pow2_pos _ Hp) as Hpos.
  unfold slot_index. rewrite !land_mask by exact Hp.
  pose proof (Z.mod_pos_bound (idx + Z.of_nat i) cap Hpos).
  pose proof (Z.mod_pos_bound (idx + Z.of_nat (S i)) cap Hpos).
  rewrite !Z2Nat.id by lia.
  rewrite Z.add_mod_idemp_l by lia. f_equal. lia.
Qed.

(** *** Counting slots *)

Lemma count_if_range p es : 0 <= count_if p es <= Z.of_nat (length es).
Proof.
  induction es as [|e es IH]; simpl; [lia|]. destruct (p e); lia.
Qed.

Lemma count_if_le p q es :
  (forall e, p e = true -> q e = true) -> count_if p es <= count_if q es.
Proof.
  intros H. induction es as [|e es IH]; simpl; [lia|].
  specialize (H e). destruct (p e), (q e); try lia;
    discriminate H; reflexivity.
Qed.

Lemma count_if_app p es1 es2 :
  count_if p (es1 ++ es2) = count_if p es1 + count_if p es2.
Proof. induction es1 as [|e es1 IH]; simpl; lia. Qed.

Lemma count_if_insert p es s e e' :
  es !! s = Some e ->
  count_if p (<[s := e']> es)
  = count_if p es - (if p e then 1 else 0) + (if p e' then 1 else 0).
Proof.
  revert s. induction es as [|x es IH]; intros [|s]; simpl; try discriminate.
  - intros [= ->]. lia.
  - intros H. rewrite (IH _ H). lia.
Qed.

Lemma count_if_all p es :
  (forall s e, es !! s = Some e -> p e = true) ->
  count_if p es = Z.of_nat (length es).
Proof.
  induction es as [|x es IH]; intros H; [reflexivity|].
  cbn [count_if length]. rewrite (H O x eq_refl), IH; [lia|].
  intros s e Hs. apply (H (S s) e Hs).
Qed.

Lemma count_if_replicate p e n :
  count_if p (replicate n e) = if p e then Z.of_nat n else 0.
Proof.
  induction n as [|n IH]; simpl replicate; cbn [count_if].
  - destruct (p e); reflexivity.
  - rewrite IH. destruct (p e); lia.
Qed.

Lemma occupied_used e : is_occupied e = true -> is_used e = true.
Proof. unfold is_occupied, is_used. destruct (state e); auto. Qed.

Lemma is_occupied_true e : is_occupied e = true <-> state e = ENTRY_OCCUPIED.
Proof. unfold is_occupied. destruct (state e); split; congruence. Qed.

Lemma is_occupied_false e :
  is_occupied e = false <-> state e <> ENTRY_OCCUPIED.
Proof. unfold is_occupied. destruct (state e); split; congruence. Qed.

Lemma is_used_true e : is_used e = true <-> state e <> ENTRY_EMPTY.
Proof. unfold is_used. destruct (state e); split; congruence. Qed.

Lemma lookup_total_Some (es : list ht_entry_t) s e :
  es !! s = Some e -> es !!! s = e.
Proof. intros H. apply list_lookup_total_correct, H. Qed.

Lemma lookup_total_lt (es : list ht_entry_t) s :
  (s < length es)%nat -> es !! s = Some (es !!! s).
Proof. intros H. apply list_lookup_lookup_total_lt, H. Qed.

(** Byte-string equality is equality of the byte sequences. *)
Lemma memcmp_eq_spec a b :
  length a = length b -> memcmp_eq a b (length a) = true <-> a = b.
Proof.
  revert b. induction a as [|x a IH]; intros [|y b] Hlen; simpl in *;
    try discriminate; [tauto|].
  rewrite andb_true_iff, Ascii.eqb_eq, IH by lia.
  split; [intros [-> ->]; reflexivity | intros [= -> ->]; auto].
Qed.

Lemma rstr_eq_spec a b : rstr_eq a b = true <-> a = b.
Proof.
  unfold rstr_eq. destruct (length a =? length b)%nat eqn:E; simpl.
  - apply Nat.eqb_eq in E.
    destruct (length a =? 0)%nat eqn:E0.
    + apply Nat.eqb_eq in E0. destruct a, b; simpl in *; try lia. tauto.
    + apply memcmp_eq_spec, E.
  - apply Nat.eqb_neq in E. split; [discriminate|]. intros ->. lia.
Qed.

End Slots.

(** ** Probe chains under updates of a slot *)

Section Chains.

Variable cap : Z.
Hypothesis Hcap : pow2 cap.

Local Abbreviation chains := (chains_at cap).

(** Two occupied slots never hold the same key. *)
Lemma chains_unique es s1 s2 e1 e2 :
  chains es ->
  es !! s1 = Some e1 -> es !! s2 = Some e2 ->
  state e1 = ENTRY_OCCUPIED -> state e2 = ENTRY_OCCUPIED ->
  key e1 = key e2 -> s1 = s2.
Proof.
  intros Hch H1 H2 Ho1 Ho2 Hk.
  destruct (Hch s1 e1 H1 Ho1) as (d1 & Hd1 & Hs1 & Hc1).
  destruct (Hch s2 e2 H2 Ho2) as (d2 & Hd2 & Hs2 & Hc2).
  destruct (lt_eq_lt_dec d1 d2) as [[Hlt|Heq]|Hgt].
  - specialize (Hc2 d1 Hlt). cbn zeta in Hc2.
    rewrite <- Hk, Hs1, (lookup_total_Some _ _ _ H1) in Hc2.
    destruct Hc2 as [Hc2|[_ Hc2]]; congruence.
  - subst d2. rewrite <- Hk in Hs2. congruence.
  - specialize (Hc1 d2 Hgt). cbn zeta in Hc1.
    rewrite Hk, Hs2, (lookup_total_Some _ _ _ H2) in Hc1.
    destruct Hc1 as [Hc1|[_ Hc1]]; congruence.
Qed.

(** The chains depend on the states and keys only. *)
Lemma chains_ext es es' :
  length es' = length es ->
  (forall u, state (es' !!! u) = state (es !!! u) /\
             key (es' !!! u) = key (es !!! u)) ->
  chains es -> chains es'.
Proof.
  intros Hlen Hsame Hch s e' Hs Ho.
  assert (s < length es)%nat as Hlt
    by (rewrite <- Hlen; eapply lookup_lt_Some, Hs).
  pose proof (lookup_total_Some _ _ _ Hs) as He'.
  destruct (Hsame s) as [Hst Hkey]. rewrite He' in Hst, Hkey.
  destruct (Hch s (es !!! s) (lookup_total_lt _ _ Hlt) ltac:(congruence))
    as (d & Hd & Hslot & Hclear).
  exists d. rewrite Hkey. repeat split; [exact Hd | exact Hslot|].
  intros j Hj. specialize (Hclear j Hj). cbn zeta in *.
  destruct (Hsame (slot_index cap (home cap (key (es !!! s))) j)) as [-> ->].
  exact Hclear.
Qed.

Lemma lookup_total_insert_eq' (es : list ht_entry_t) s e :
  (s < length es)%nat -> <[s := e]> es !!! s = e.
Proof. intros H. apply list_lookup_total_insert_eq, H. Qed.

Lemma lookup_total_insert_ne' (es : list ht_entry_t) s u e :
  s <> u -> <[s := e]> es !!! u = es !!! u.
Proof. intros H. apply list_lookup_total_insert_ne, H. Qed.

Lemma chains_keep es s e e' :
  chains es -> es !! s = Some e ->
  state e' = state e -> key e' = key e ->
  chains (<[s := e']> es).
Proof.
  intros Hch Hs Hst Hkey. eapply chains_ext; [| |exact Hch].
  - apply length_insert.
  - intros u. destruct (decide (s = u)) as [<-|Hne].
    + rewrite lookup_total_insert_eq' by (eapply lookup_lt_Some, Hs).
      rewrite (lookup_total_Some _ _ _ Hs). auto.
    + rewrite lookup_total_insert_ne' by exact Hne. auto.
Qed.

(** Freeing a slot keeps every other chain: a tombstone does not stop a
    probe. *)
Lemma chains_tombstone es s e' :
  chains es -> (s < length es)%nat -> state e' = ENTRY_TOMBSTONE ->
  chains (<[s := e']> es).
Proof.
  intros Hch Hlt Hst t x Ht Ho.
  destruct (decide (s = t)) as [<-|Hne].
  { rewrite list_lookup_insert_eq in Ht by exact Hlt. congruence. }
  rewrite list_lookup_insert_ne in Ht by exact Hne.
  destruct (Hch t x Ht Ho) as (d & Hd & Hslot & Hclear).
  exists d. repeat split; [exact Hd | exact Hslot|].
  intros j Hj. specialize (Hclear j Hj). cbn zeta in *.
  destruct (decide (s = slot_index cap (home cap (key x)) j)) as [<-|Hne'].
  - rewrite lookup_total_insert_eq' by exact Hlt. left. exact Hst.
  - rewrite lookup_total_insert_ne' by exact Hne'. exact Hclear.
Qed.

(** Installing a key that the table does not hold, at a slot reached by
    its probe sequence without passing an empty slot. *)
Lemma chains_insert es k d e' :
  length es = Z.to_nat cap ->
  chains es ->
  (d < Z.to_nat cap)%nat ->
  (forall j, (j < d)%nat ->
     is_used (es !!! slot_index cap (home cap k) j) = true) ->
  (forall t x, es !! t = Some x -> state x = ENTRY_OCCUPIED -> key x <> k) ->
  state e' = ENTRY_OCCUPIED -> key e' = k ->
  chains (<[slot_index cap (home cap k) d := e']> es).
Proof.
  intros Hlen Hch Hd Hused Habsent Hst Hkey t x Ht Ho.
  pose proof (home_range cap k Hcap) as Hhome.
  set (s := slot_index cap (home cap k) d) in *.
  assert (s < length es)%nat as Hlt
    by (rewrite Hlen; apply slot_index_lt; [exact Hcap | lia]).
  destruct (decide (s = t)) as [<-|Hne].
  - rewrite list_lookup_insert_eq in Ht by exact Hlt.
    injection Ht as <-. rewrite Hkey.
    exists d. repeat split; [exact Hd|].
    intros j Hj. cbn zeta.
    assert (s <> slot_index cap (home cap k) j) as Hne.
    { intros Heq. apply slot_index_inj in Heq; [lia|auto|auto|lia|lia]. }
    rewrite lookup_total_insert_ne' by exact Hne.
    specialize (Hused j Hj). apply is_used_true in Hused.
    destruct (state (es !!! slot_index cap (home cap k) j)) eqn:E;
      [congruence | right | left; reflexivity].
    split; [reflexivity|]. eapply Habsent; [|exact E].
    apply lookup_total_lt. rewrite Hlen.
    apply slot_index_lt; [exact Hcap | lia].
  - rewrite list_lookup_insert_ne in Ht by exact Hne.
    destruct (Hch t x Ht Ho) as (d' & Hd' & Hslot & Hclear).
    exists d'. repeat split; [exact Hd' | exact Hslot|].
    intros j Hj. specialize (Hclear j Hj). cbn zeta in *.
    destruct (decide (s = slot_index cap (home cap (key x)) j)) as [<-|Hne'].
    + rewrite lookup_total_insert_eq' by exact Hlt. right.
      split; [exact Hst|]. rewrite Hkey. intros Heq.
      apply (Habsent t x Ht Ho). congruence.
    + rewrite lookup_total_insert_ne' by exact Hne'. exact Hclear.
Qed.

(** A table that is not full has an empty slot. *)
Lemma exists_unused es :
  count_if is_used es < Z.of_nat (length es) ->
  exists s e, es !! s = Some e /\ is_used e = false.
Proof.
  induction es as [|x es IH]; cbn [count_if length]; [lia|].
  destruct (is_used x) eqn:E.
  - intros H. destruct IH as (s & e & Hs & He); [lia|].
    exists (S s), e. auto.
  - intros _. exists O, x. auto.
Qed.

End Chains.

(** ** What [probe] returns *)

Section Probe.

Variables (now : Z) (ht : hashtable_t) (k : rstr_t).
Hypothesis Hcap : pow2 (capacity ht).
Hypothesis Hlen : length (entries ht) = Z.to_nat (capacity ht).
Hypothesis Hchains : chains_ok ht.
Hypothesis Hroom :
  exists s e, entries ht !! s = Some e /\ is_used e = false.

Local Abbreviation slot_k := (slot_index (capacity ht) (home (capacity ht) k)).

Lemma slot_k_lt j : (slot_k j < length (entries ht))%nat.
Proof.
  rewrite Hlen. apply slot_index_lt; [exact Hcap|].
  apply home_range, Hcap.
Qed.

Lemma slot_k_lookup j : entries ht !! slot_k j = Some (entries ht !!! slot_k j).
Proof. apply lookup_total_lt, slot_k_lt. Qed.

(** A slot holding [k] sits at the first step of the probe sequence that is
    empty or holds [k]. *)
Lemma key_position i s e :
  (forall j, (j < i)%nat ->
     let x := entries ht !!! slot_k j in
     is_used x = true /\ (state x = ENTRY_OCCUPIED -> key x <> k)) ->
  entries ht !! s = Some e -> state e = ENTRY_OCCUPIED -> key e = k ->
  exists d, (i <= d < Z.to_nat (capacity ht))%nat /\ slot_k d = s /\
            chain_clear (entries ht) (capacity ht) k d.
Proof.
  intros Hbefore Hs Ho Hk.
  destruct (Hchains s e Hs Ho) as (d & Hd & Hslot & Hclear).
  rewrite Hk in Hslot, Hclear.
  exists d. repeat split; try assumption.
  destruct (le_lt_dec i d) as [Hle|Hlt]; [exact Hle|].
  destruct (Hbefore d Hlt) as [_ Hne]. cbn zeta in Hne.
  rewrite Hslot, (lookup_total_Some _ _ _ Hs) in Hne.
  exfalso. apply (Hne Ho Hk).
Qed.

Lemma probe_loop_post n i ft :
  (n + i = Z.to_nat (capacity ht))%nat ->
  (forall j, (j < i)%nat ->
     let x := entries ht !!! slot_k j in
     is_used x = true /\ (state x = ENTRY_OCCUPIED -> key x <> k)) ->
  match ft with
  | None => True
  | Some s => exists d, (d < i)%nat /\ slot_k d = s /\
                        state (entries ht !!! s) = ENTRY_TOMBSTONE
  end ->
  forall ht' found slot,
    probe_loop now ht k (home (capacity ht) k) n i ft = (ht', found, slot) ->
    probe_post now ht k ht' found slot.
Proof.
  revert i ft. induction n as [|n IH]; intros i ft Hni Hbefore Hft ht' found slot.
  { (* the loop cannot run through the whole table *)
    exfalso. destruct Hroom as (s & e & Hs & He).
    destruct (slot_index_surj (capacity ht) (home (capacity ht) k) s)
      as (j & Hj & Hslot);
      [exact Hcap | apply home_range, Hcap
       | rewrite <- Hlen; eapply lookup_lt_Some, Hs |].
    destruct (Hbefore j ltac:(lia)) as [Hu _]. cbn zeta in Hu.
    rewrite Hslot, (lookup_total_Some _ _ _ Hs) in Hu. congruence. }
  cbn [probe_loop].
  pose proof (slot_k_lt i) as Hlt. pose proof (slot_k_lookup i) as Hlook.
  set (s := slot_k i) in *. set (e := entries ht !!! s) in *.
  (* the slot returned when the key is not found *)
  assert (exists d, (d <= i)%nat /\ slot_k d = default s ft) as Hret.
  { destruct ft as [t|]; cbn [default from_option id].
    - destruct Hft as (d & Hd & Hs & _). exists d. split; [lia | exact Hs].
    - exists i. split; [lia | reflexivity]. }
  destruct (state e) eqn:Hstate.
  - (* empty slot: the key is not in the table *)
    intros [= <- <- <-]. split.
    { destruct Hret as (d & _ & <-). apply slot_k_lt. }
    split; [left; reflexivity|]. split.
    { destruct ft as [t|]; cbn [default from_option id].
      - destruct Hft as (_ & _ & _ & Ht). apply is_occupied_false. congruence.
      - apply is_occupied_false. fold e. congruence. }
    split.
    { destruct Hret as (d & Hd & Hs). exists d. split; [lia|].
      split; [exact Hs|]. intros j Hj. apply Hbefore. lia. }
    intros t x Ht Ho Hk.
    destruct (key_position i t x Hbefore Ht Ho Hk) as (d & Hd & Hs & Hclear).
    destruct (decide (d = i)) as [->|Hne].
    + fold s in Hs. subst t. rewrite Hlook in Ht. injection Ht as <-.
      congruence.
    + specialize (Hclear i ltac:(lia)). cbn zeta in Hclear.
      fold s e in Hclear. destruct Hclear as [Hc|[Hc _]]; congruence.
  - (* occupied slot *)
    destruct (rstr_eq (key e) k) eqn:Heq.
    + apply rstr_eq_spec in Heq.
      destruct (is_expired e now) eqn:Hexp.
      * (* expired match: freed on the way *)
        intros [= <- <- <-]. split.
        { destruct Hret as (d & _ & <-). apply slot_k_lt. }
        split.
        { right. exists s, e. auto. }
        cbn [entries set_count set_entry capacity].
        assert (forall u, is_occupied (entries ht !!! u) = false \/ u = s ->
                  is_occupied (<[s := entry_free e]> (entries ht) !!! u)
                  = false) as Hfree.
        { intros u Hu. destruct (decide (s = u)) as [<-|Hne].
          - rewrite lookup_total_insert_eq' by exact Hlt. reflexivity.
          - rewrite lookup_total_insert_ne' by exact Hne.
            destruct Hu; congruence. }
        split.
        { apply Hfree. destruct ft as [t|]; cbn [default from_option id]; [left|right; auto].
          destruct Hft as (_ & _ & _ & Ht). apply is_occupied_false.
          congruence. }
        split.
        { destruct Hret as (d & Hd & Hs). exists d. split; [lia|].
          split; [exact Hs|]. intros j Hj.
          destruct (decide (s = slot_k j)) as [<-|Hne].
          - rewrite lookup_total_insert_eq' by exact Hlt. reflexivity.
          - rewrite lookup_total_insert_ne' by exact Hne.
            apply Hbefore. lia. }
        intros t x Ht Ho Hk.
        destruct (decide (s = t)) as [<-|Hne].
        { rewrite list_lookup_insert_eq in Ht by exact Hlt.
          injection Ht as <-. discriminate Ho. }
        rewrite list_lookup_insert_ne in Ht by exact Hne.
        apply Hne. symmetry.
        apply (chains_unique (capacity ht) _ _ _ _ _ Hchains Ht Hlook Ho Hstate).
        congruence.
      * (* live match *)
        intros [= <- <- <-]. split; [exact Hlt|].
        split; [reflexivity|]. exists e. auto.
    + (* another key: go on *)
      apply IH; [lia | | ].
      * intros j Hj. destruct (decide (j = i)) as [->|Hne].
        -- cbn zeta. fold s e. split; [apply is_used_true; congruence|].
           intros _ Hk. apply rstr_eq_spec in Hk. congruence.
        -- apply Hbefore. lia.
      * destruct ft as [t|]; [|exact I].
        destruct Hft as (d & Hd & Hs & Ht). exists d. split; [lia|auto].
  - (* tombstone: remember the first one and go on *)
    apply IH; [lia | | ].
    + intros j Hj. destruct (decide (j = i)) as [->|Hne].
      * cbn zeta. fold s e. split; [apply is_used_true; congruence|].
        congruence.
      * apply Hbefore. lia.
    + destruct ft as [t|].
      * destruct Hft as (d & Hd & Hs & Ht). exists d. split; [lia|auto].
      * exists i. split; [lia|auto].
Qed.

Lemma probe_post_holds ht' found slot :
  probe now ht k = (ht', found, slot) -> probe_post now ht k ht' found slot.
Proof.
  unfold probe. apply probe_loop_post; [lia | intros j Hj; lia | exact I].
Qed.

End Probe.

(** ** The invariant is kept by every operation *)

Section Invariant.

Lemma Inv_room ht :
  Inv ht -> exists s e, entries ht !! s = Some e /\ is_used e = false.
Proof.
  intros [Hp Hmin Hlen _ (Hc & Hu & Hle) Hload].
  apply exists_unused. rewrite <- Hu, Hlen.
  unfold HT_INITIAL_CAPACITY in Hmin. lia.
Qed.

Lemma Inv_create : Inv ht_create.
Proof.
  split.
  - exists 6%nat. reflexivity.
  - reflexivity.
  - reflexivity.
  - intros s e Hs Ho. apply lookup_replicate in Hs as [-> _]. discriminate.
  - repeat split; try reflexivity; vm_compute; discriminate.
  - reflexivity.
Qed.

(** Freeing an occupied slot. *)
Lemma Inv_free ht s e :
  Inv ht -> entries ht !! s = Some e -> state e = ENTRY_OCCUPIED ->
  Inv (set_count (set_entry ht s (entry_free e)) (count ht - 1)).
Proof.
  intros [Hp Hmin Hlen Hch (Hc & Hu & Hle) Hload] Hs Ho.
  pose proof (lookup_lt_Some _ _ _ Hs) as Hlt.
  split; cbn [set_count set_entry capacity entries count used];
    try assumption.
  - rewrite length_insert. exact Hlen.
  - apply chains_tombstone; [exact Hch | exact Hlt | reflexivity].
  - unfold counters_ok. cbn [set_count set_entry capacity entries count used].
    rewrite !(count_if_insert _ _ _ _ _ Hs).
    apply is_occupied_true in Ho.
    rewrite Ho, (occupied_used _ Ho).
    change (is_occupied (entry_free e)) with false.
    change (is_used (entry_free e)) with true. cbv iota. lia.
Qed.

(** Rewriting the value and the expiry of an occupied slot. *)
Lemma Inv_keep ht s e e' :
  Inv ht -> entries ht !! s = Some e ->
  state e' = state e -> key e' = key e ->
  Inv (set_entry ht s e').
Proof.
  intros [Hp Hmin Hlen Hch (Hc & Hu & Hle) Hload] Hs Hst Hkey.
  split; cbn [set_entry capacity entries count used]; try assumption.
  - rewrite length_insert. exact Hlen.
  - eapply chains_keep; eassumption.
  - unfold counters_ok. cbn [set_count set_entry capacity entries count used].
    rewrite !(count_if_insert _ _ _ _ _ Hs).
    assert (is_occupied e' = is_occupied e) as ->
      by (unfold is_occupied; rewrite Hst; reflexivity).
    assert (is_used e' = is_used e) as ->
      by (unfold is_used; rewrite Hst; reflexivity).
    lia.
Qed.

Lemma probe_Inv now ht k ht' found slot :
  Inv ht -> probe now ht k = (ht', found, slot) ->
  probe_post now ht k ht' found slot /\ Inv ht' /\
  capacity ht' = capacity ht /\ used ht' = used ht.
Proof.
  intros HI Hprobe.
  assert (probe_post now ht k ht' found slot) as Hpost.
  { apply probe_post_holds; [apply HI.. | apply Inv_room, HI | exact Hprobe]. }
  split; [exact Hpost|].
  destruct Hpost as [_ Hpost]. destruct found.
  - destruct Hpost as [-> _]. auto.
  - destruct Hpost as [[->|(s & e & Hs & Ho & _ & _ & ->)] _]; [auto|].
    split; [apply Inv_free; assumption|]. auto.
Qed.

(** [probe] on a key that a slot holds unexpired finds that slot and
    leaves the table alone. *)
Lemma probe_live now ht k s e :
  Inv ht -> entries ht !! s = Some e -> state e = ENTRY_OCCUPIED ->
  key e = k -> is_expired e now = false ->
  probe now ht k = (ht, true, s).
Proof.
  intros HI Hs Ho Hk Hexp.
  destruct (probe now ht k) as [[ht' found] slot] eqn:Hprobe.
  destruct (probe_Inv _ _ _ _ _ _ HI Hprobe) as ([Hlt Hpost] & _).
  assert (forall t x, entries ht !! t = Some x -> state x = ENTRY_OCCUPIED ->
            key x = k -> t = s) as Huniq.
  { intros t x Ht Hox Hkx.
    eapply (chains_unique (capacity ht)); try eassumption;
      [apply HI | congruence]. }
  destruct found.
  - destruct Hpost as (-> & x & Hx & Hox & Hkx & _).
    rewrite (Huniq _ _ Hx Hox Hkx). reflexivity.
  - exfalso. destruct Hpost as ([->|(t & x & Ht & Hox & Hkx & Hxexp & ->)]
                                  & _ & _ & Habsent).
    + apply (Habsent s e Hs Ho Hk).
    + rewrite (Huniq _ _ Ht Hox Hkx) in Ht. congruence.
Qed.

(** [probe] on a key whose slot is expired frees that slot. *)
Lemma probe_expired now ht k s e :
  Inv ht -> entries ht !! s = Some e -> state e = ENTRY_OCCUPIED ->
  key e = k -> is_expired e now = true ->
  exists slot,
    probe now ht k
    = (set_count (set_entry ht s (entry_free e)) (count ht - 1), false, slot).
Proof.
  intros HI Hs Ho Hk Hexp.
  destruct (probe now ht k) as [[ht' found] slot] eqn:Hprobe.
  destruct (probe_Inv _ _ _ _ _ _ HI Hprobe) as ([Hlt Hpost] & _).
  assert (forall t x, entries ht !! t = Some x -> state x = ENTRY_OCCUPIED ->
            key x = k -> t = s) as Huniq.
  { intros t x Ht Hox Hkx.
    eapply (chains_unique (capacity ht)); try eassumption;
      [apply HI | congruence]. }
  exists slot. destruct found.
  - exfalso. destruct Hpost as (-> & x & Hx & Hox & Hkx & Hxexp).
    rewrite (Huniq _ _ Hx Hox Hkx) in Hx. congruence.
  - destruct Hpost as ([->|(t & x & Ht & Hox & Hkx & Hxexp & ->)]
                         & _ & _ & Habsent).
    + exfalso. apply (Habsent s e Hs Ho Hk).
    + pose proof (Huniq _ _ Ht Hox Hkx) as ->.
      assert (x = e) as -> by congruence. reflexivity.
Qed.

(** [probe] on a key that no slot holds leaves the table alone. *)
Lemma probe_absent now ht k :
  Inv ht ->
  (forall s e, entries ht !! s = Some e -> state e = ENTRY_OCCUPIED ->
               key e <> k) ->
  exists slot, probe now ht k = (ht, false, slot).
Proof.
  intros HI Habs.
  destruct (probe now ht k) as [[ht' found] slot] eqn:Hprobe.
  destruct (probe_Inv _ _ _ _ _ _ HI Hprobe) as ([Hlt Hpost] & _).
  exists slot. destruct found.
  - exfalso. destruct Hpost as (-> & x & Hx & Hox & Hkx & _).
    apply (Habs _ _ Hx Hox Hkx).
  - destruct Hpost as ([->|(t & x & Ht & Hox & Hkx & _)] & _); [reflexivity|].
    exfalso. apply (Habs _ _ Ht Hox Hkx).
Qed.

Lemma ht_get_Inv now ht k : Inv ht -> Inv (fst (ht_get now ht k)).
Proof.
  intros HI. unfold ht_get.
  destruct (probe now ht k) as [[ht' found] slot] eqn:Hprobe.
  apply (probe_Inv _ _ _ _ _ _ HI Hprobe).
Qed.

Lemma ht_exists_Inv now ht k : Inv ht -> Inv (fst (ht_exists now ht k)).
Proof.
  intros HI. unfold ht_exists.
  destruct (probe now ht k) as [[ht' found] slot] eqn:Hprobe.
  apply (probe_Inv _ _ _ _ _ _ HI Hprobe).
Qed.

Lemma ht_get_expire_Inv now ht k :
  Inv ht -> Inv (fst (ht_get_expire now ht k)).
Proof.
  intros HI. unfold ht_get_expire.
  destruct (probe now ht k) as [[ht' found] slot] eqn:Hprobe.
  destruct found; apply (probe_Inv _ _ _ _ _ _ HI Hprobe).
Qed.

Lemma ht_delete_Inv now ht k : Inv ht -> Inv (fst (ht_delete now ht k)).
Proof.
  intros HI. unfold ht_delete.
  destruct (probe now ht k) as [[ht' found] slot] eqn:Hprobe.
  destruct (probe_Inv _ _ _ _ _ _ HI Hprobe) as ([Hlt Hpost] & HI' & _).
  destruct found; [|exact HI'].
  destruct Hpost as (-> & e & Hs & Ho & _).
  cbn [fst]. rewrite (lookup_total_Some _ _ _ Hs).
  apply Inv_free; assumption.
Qed.

Lemma ht_set_expire_Inv now ht k ts : Inv ht -> Inv (ht_set_expire now ht k ts).
Proof.
  intros HI. unfold ht_set_expire.
  destruct (probe now ht k) as [[ht' found] slot] eqn:Hprobe.
  destruct (probe_Inv _ _ _ _ _ _ HI Hprobe) as ([Hlt Hpost] & HI' & _).
  destruct found; [|exact HI'].
  destruct Hpost as (-> & e & Hs & Ho & _).
  rewrite (lookup_total_Some _ _ _ Hs).
  eapply Inv_keep; [exact HI | exact Hs | reflexivity | reflexivity].
Qed.

Lemma iter_loop_Inv clock n : forall ht index,
  Inv ht -> Inv (fst (fst (iter_loop clock ht n index))).
Proof.
  induction n as [|n IH]; intros ht index HI; cbn [iter_loop]; [exact HI|].
  destruct (Z.of_nat index <? capacity ht) eqn:E; [|exact HI].
  apply Z.ltb_lt in E.
  assert (entries ht !! index = Some (entries ht !!! index)) as Hs.
  { apply lookup_total_lt. rewrite (inv_len _ HI). lia. }
  destruct (state (entries ht !!! index)) eqn:Hst; [apply IH, HI| |apply IH, HI].
  destruct (is_expired _ _); [|exact HI].
  apply IH, Inv_free; assumption.
Qed.

Lemma ht_iter_next_Inv clock ht index :
  Inv ht -> Inv (fst (fst (ht_iter_next clock ht index))).
Proof. apply iter_loop_Inv. Qed.

End Invariant.

(** ** Resizing *)

Section Resize.

Lemma counters_intro ht :
  0 <= capacity ht ->
  length (entries ht) = Z.to_nat (capacity ht) ->
  count ht = count_if is_occupied (entries ht) ->
  used ht = count_if is_used (entries ht) ->
  counters_ok ht.
Proof.
  intros Hcap Hlen Hc Hu. repeat split; try assumption.
  - rewrite Hc, Hu. apply count_if_le, occupied_used.
  - rewrite Hu. pose proof (count_if_range is_used (entries ht)). lia.
Qed.

Lemma exists_not p es :
  count_if p es < Z.of_nat (length es) ->
  exists s e, es !! s = Some e /\ p e = false.
Proof.
  induction es as [|x es IH]; cbn [count_if length]; [lia|].
  destruct (p x) eqn:E.
  - intros H. destruct IH as (s & e & Hs & He); [lia|].
    exists (S s), e. auto.
  - intros _. exists O, x. auto.
Qed.

Lemma count_if_ext p q es :
  (forall s e, es !! s = Some e -> p e = q e) ->
  count_if p es = count_if q es.
Proof.
  induction es as [|x es IH]; intros H; [reflexivity|].
  cbn [count_if]. rewrite (H O x eq_refl), IH; [reflexivity|].
  intros s e Hs. apply (H (S s) e Hs).
Qed.

Variable cap : Z.
Hypothesis Hcap : pow2 cap.

(** The search loop stops at the first slot of the probe sequence that is
    not occupied. *)
Lemma find_free_spec new h fuel i :
  length new = Z.to_nat cap -> 0 <= h < cap ->
  (fuel + i = Z.to_nat cap)%nat ->
  (forall j, (j < i)%nat ->
     state (new !!! slot_index cap h j) = ENTRY_OCCUPIED) ->
  (exists s e, new !! s = Some e /\ is_occupied e = false) ->
  exists d, (d < Z.to_nat cap)%nat /\
    find_free fuel new cap (Z.of_nat (slot_index cap h i))
    = Some (slot_index cap h d) /\
    state (new !!! slot_index cap h d) <> ENTRY_OCCUPIED /\
    forall j, (j < d)%nat ->
      state (new !!! slot_index cap h j) = ENTRY_OCCUPIED.
Proof.
  intros Hlen Hh. revert i.
  induction fuel as [|fuel IH]; intros i Hfi Hbefore Hroom.
  { exfalso. destruct Hroom as (s & e & Hs & He).
    destruct (slot_index_surj cap h s Hcap Hh) as (j & Hj & Hslot).
    { rewrite <- Hlen. eapply lookup_lt_Some, Hs. }
    specialize (Hbefore j ltac:(lia)).
    rewrite Hslot, (lookup_total_Some _ _ _ Hs) in Hbefore.
    apply is_occupied_false in He. congruence. }
  cbn [find_free]. rewrite Nat2Z.id.
  destruct (state (new !!! slot_index cap h i)) eqn:Hst.
  - exists i. repeat split; [lia | congruence | exact Hbefore].
  - rewrite slot_index_succ by (exact Hcap || lia).
    apply IH; [lia | | exact Hroom].
    intros j Hj. destruct (decide (j = i)) as [->|Hne]; [exact Hst|].
    apply Hbefore. lia.
  - exists i. repeat split; [lia | congruence | exact Hbefore].
Qed.

(** The copying loop: [processed] is the part of the old array already
    walked through. *)
Lemma rehash_spec old : forall new processed,
  length new = Z.to_nat cap ->
  chains_at cap new ->
  (forall s e, new !! s = Some e -> state e <> ENTRY_TOMBSTONE) ->
  (forall s e, new !! s = Some e -> state e = ENTRY_OCCUPIED ->
               e ∈ processed) ->
  (forall e, e ∈ processed -> state e = ENTRY_OCCUPIED -> e ∈ new) ->
  count_if is_occupied new = count_if is_occupied processed ->
  (forall i j e1 e2,
     (processed ++ old) !! i = Some e1 -> (processed ++ old) !! j = Some e2 ->
     state e1 = ENTRY_OCCUPIED -> state e2 = ENTRY_OCCUPIED ->
     key e1 = key e2 -> i = j) ->
  count_if is_occupied (processed ++ old) < cap ->
  exists new',
    rehash old new cap = Some new' /\
    length new' = Z.to_nat cap /\
    chains_at cap new' /\
    (forall s e, new' !! s = Some e -> state e <> ENTRY_TOMBSTONE) /\
    (forall s e, new' !! s = Some e -> state e = ENTRY_OCCUPIED ->
                 e ∈ processed ++ old) /\
    (forall e, e ∈ processed ++ old -> state e = ENTRY_OCCUPIED ->
               e ∈ new') /\
    count_if is_occupied new' = count_if is_occupied (processed ++ old).
Proof.
  induction old as [|e old IH];
    intros new processed Hlen Hch Hnt Hfrom Hto Hcnt Huniq Hfit.
  { exists new. rewrite app_nil_r in *. cbn [rehash]. auto 10. }
  cbn [rehash].
  assert ((processed ++ [e]) ++ old = processed ++ e :: old) as Happ
    by (rewrite <- app_assoc; reflexivity).
  destruct (state e) eqn:Hst.
  - (* an empty slot is skipped *)
    rewrite <- Happ in *. apply IH; try assumption.
    + intros s x Hs Ho. apply elem_of_app. left. eauto.
    + intros x Hx Ho. apply elem_of_app in Hx as [Hx|Hx]; [eauto|].
      apply list_elem_of_singleton in Hx. congruence.
    + rewrite count_if_app. cbn [count_if]. unfold is_occupied at 3.
      rewrite Hst. lia.
  - (* an occupied slot is copied *)
    assert (forall t x, new !! t = Some x -> state x = ENTRY_OCCUPIED ->
              key x <> key e) as Habsent.
    { intros t x Ht Ho Hk.
      apply Hfrom in Ht as Hin; [|exact Ho].
      apply list_elem_of_lookup in Hin as [i Hi].
      pose proof (lookup_lt_Some _ _ _ Hi) as Hilt.
      assert (i = length processed); [|lia].
      apply (Huniq i (length processed) x e); try assumption.
      - rewrite lookup_app_l by exact Hilt. exact Hi.
      - rewrite list_lookup_middle by reflexivity. reflexivity. }
    assert (exists s x, new !! s = Some x /\ is_occupied x = false) as Hroom.
    { apply exists_not. rewrite Hcnt, Hlen.
      rewrite count_if_app in Hfit. cbn [count_if] in Hfit.
      unfold is_occupied at 2 in Hfit. rewrite Hst in Hfit.
      pose proof (count_if_range is_occupied old).
      pose proof (pow2_pos _ Hcap). lia. }
    pose proof (home_range cap (key e) Hcap) as Hhome.
    destruct (find_free_spec new (home cap (key e)) (Z.to_nat cap) 0 Hlen Hhome
                ltac:(lia) ltac:(intros j Hj; lia) Hroom)
      as (d & Hd & Hfind & Hfree & Hbefore).
    rewrite slot_index_0, Z2Nat.id in Hfind by (exact Hcap || lia).
    rewrite Hfind. cbn [mbind option_bind].
    set (s := slot_index cap (home cap (key e)) d) in *.
    assert (s < length new)%nat as Hslt
      by (rewrite Hlen; apply slot_index_lt; [exact Hcap | lia]).
    pose proof (lookup_total_lt _ _ Hslt) as Hsold.
    rewrite <- Happ in *. apply IH.
    + rewrite length_insert. exact Hlen.
    + apply chains_insert; try assumption; [|reflexivity].
      intros j Hj. apply is_used_true. rewrite (Hbefore j Hj). discriminate.
    + intros t x Ht. destruct (decide (s = t)) as [<-|Hne].
      * rewrite list_lookup_insert_eq in Ht by exact Hslt.
        injection Ht as <-. congruence.
      * rewrite list_lookup_insert_ne in Ht by exact Hne. eauto.
    + intros t x Ht Ho. apply elem_of_app.
      destruct (decide (s = t)) as [<-|Hne].
      * rewrite list_lookup_insert_eq in Ht by exact Hslt.
        injection Ht as <-. right. apply list_elem_of_singleton. reflexivity.
      * rewrite list_lookup_insert_ne in Ht by exact Hne. left. eauto.
    + intros x Hx Ho. apply list_elem_of_lookup.
      apply elem_of_app in Hx as [Hx|Hx].
      * apply Hto in Hx; [|exact Ho].
        apply list_elem_of_lookup in Hx as [t Ht]. exists t.
        rewrite list_lookup_insert_ne; [exact Ht|].
        intros <-. rewrite Hsold in Ht. injection Ht as Hx'.
        rewrite Hx' in Hfree. congruence.
      * apply list_elem_of_singleton in Hx as ->. exists s.
        apply list_lookup_insert_eq, Hslt.
    + rewrite (count_if_insert _ _ _ _ _ Hsold), count_if_app.
      cbn [count_if]. apply is_occupied_false in Hfree. rewrite Hfree.
      unfold is_occupied at 2 4. rewrite Hst. lia.
    + exact Huniq.
    + exact Hfit.
  - (* a tombstone is dropped *)
    rewrite <- Happ in *. apply IH; try assumption.
    + intros s x Hs Ho. apply elem_of_app. left. eauto.
    + intros x Hx Ho. apply elem_of_app in Hx as [Hx|Hx]; [eauto|].
      apply list_elem_of_singleton in Hx. congruence.
    + rewrite count_if_app. cbn [count_if]. unfold is_occupied at 3.
      rewrite Hst. lia.
Qed.

End Resize.

(** ** [ht_resize] and [ht_set] *)

Section SetAndResize.

(** On a table that satisfies the invariant [ht_resize] returns; the new
    table has twice the capacity, no tombstone, the occupied entries of the
    old one, [used = count], and is less than half full. *)
Lemma ht_resize_spec ht :
  Inv ht ->
  exists ht',
    ht_resize ht = Some ht' /\ Inv ht' /\
    capacity ht' = capacity ht * 2 /\
    count ht' = count ht /\ used ht' = count ht' /\
    (forall s e, entries ht' !! s = Some e -> state e <> ENTRY_TOMBSTONE) /\
    (forall e, state e = ENTRY_OCCUPIED ->
               (e ∈ entries ht <-> e ∈ entries ht')).
Proof.
  intros [Hp Hmin Hlen Hch (Hc & Hu & Hle) Hload].
  pose proof (pow2_pos _ Hp) as Hpos.
  pose proof (pow2_double _ Hp) as Hp2.
  destruct (rehash_spec (capacity ht * 2) Hp2 (entries ht)
              (replicate (Z.to_nat (capacity ht * 2)) empty_entry) [])
    as (new & Hre & Hlen' & Hch' & Hnt & Hfrom & Hto & Hcnt).
  - apply length_replicate.
  - intros s e Hs Ho. apply lookup_replicate in Hs as [-> _]. discriminate.
  - intros s e Hs. apply lookup_replicate in Hs as [-> _]. discriminate.
  - intros s e Hs Ho. apply lookup_replicate in Hs as [-> _]. discriminate.
  - intros e He. apply elem_of_nil in He as [].
  - rewrite count_if_replicate. reflexivity.
  - cbn [app]. intros i j e1 e2 H1 H2 Ho1 Ho2 Hk.
    eapply (chains_unique (capacity ht)); eassumption.
  - cbn [app]. lia.
  - cbn [app] in *. unfold ht_resize. rewrite Hre. cbn [mbind option_bind].
    eexists. split; [reflexivity|].
    assert (count_if is_used new = count_if is_occupied new) as Hsame.
    { apply count_if_ext. intros s e Hs. specialize (Hnt s e Hs).
      unfold is_used, is_occupied. destruct (state e); congruence. }
    split; [|cbn [capacity count used entries]; repeat split; auto].
    + split; cbn [capacity count used entries]; try assumption.
      * unfold HT_INITIAL_CAPACITY in *. lia.
      * apply counters_intro; cbn [capacity count used entries];
          [lia | exact Hlen' | congruence | congruence].
      * lia.
    + intros He. apply list_elem_of_lookup in He as [s Hs]. eauto.
Qed.

(** Installing a key at the slot [probe] returned for it when it was not
    found. *)
Lemma Inv_install ht k slot e' :
  Inv ht -> 10 * used ht < 7 * capacity ht ->
  probe_post 0 ht k ht false slot ->
  state e' = ENTRY_OCCUPIED -> key e' = k ->
  Inv (let was_empty :=
         match state (entries ht !!! slot) with
         | ENTRY_EMPTY => true
         | _ => false
         end in
       let ht1 := set_count (set_entry ht slot e') (count ht + 1) in
       if was_empty then set_used ht1 (used ht1 + 1) else ht1).
Proof.
  intros [Hp Hmin Hlen Hch (Hc & Hu & Hle) Hload] Hroom
    (Hlt & _ & Hfree & (d & Hd & Hslot & Hbefore) & Habsent) Hst Hkey.
  pose proof (lookup_total_lt _ _ Hlt) as Hs.
  pose proof (pow2_pos _ Hp) as Hpos.
  assert (chains_at (capacity ht) (<[slot := e']> (entries ht))) as Hch'.
  { rewrite <- Hslot. apply chains_insert; assumption. }
  assert (is_occupied e' = true) as Ho' by (apply is_occupied_true, Hst).
  pose proof (occupied_used _ Ho') as Hu'.
  cbv zeta.
  destruct (state (entries ht !!! slot)) eqn:Hold.
  - assert (is_used (entries ht !!! slot) = false) as Hwas
      by (unfold is_used; rewrite Hold; reflexivity).
    split; cbn [set_used set_count set_entry capacity count used entries];
      try assumption; try lia; [rewrite length_insert; exact Hlen |].
    apply counters_intro;
      cbn [set_used set_count set_entry capacity count used entries];
      [lia | rewrite length_insert; exact Hlen | |];
      rewrite (count_if_insert _ _ _ _ _ Hs), ?Hfree, ?Hwas, ?Ho', ?Hu';
      lia.
  - apply is_occupied_false in Hfree. congruence.
  - assert (is_used (entries ht !!! slot) = true) as Hwas
      by (unfold is_used; rewrite Hold; reflexivity).
    split; cbn [set_used set_count set_entry capacity count used entries];
      try assumption; try lia; [rewrite length_insert; exact Hlen |].
    apply counters_intro;
      cbn [set_used set_count set_entry capacity count used entries];
      [lia | rewrite length_insert; exact Hlen | |];
      rewrite (count_if_insert _ _ _ _ _ Hs), ?Hfree, ?Hwas, ?Ho', ?Hu';
      lia.
Qed.

(** [ht_set] returns on a table that satisfies the invariant, keeps the
    invariant, and leaves the pair in a slot with no expiry. *)
Lemma ht_set_spec now ht k v :
  Inv ht ->
  exists ht' inserted slot,
    ht_set now ht k v = Some (ht', inserted) /\ Inv ht' /\
    entries ht' !! slot = Some (mk_entry ENTRY_OCCUPIED k v (-1)).
Proof.
  intros HI. unfold ht_set.
  assert (exists ht1,
            (if load_reached ht then ht_resize ht else Some ht) = Some ht1 /\
            Inv ht1 /\ 10 * used ht1 < 7 * capacity ht1)
    as (ht1 & -> & HI1 & Hload1).
  { unfold load_reached. destruct (7 * capacity ht <=? 10 * used ht) eqn:E.
    - destruct (ht_resize_spec ht HI) as (ht1 & -> & HI1 & Hc1 & Hn1 & Hu1 & _).
      exists ht1. split; [reflexivity|]. split; [exact HI1|].
      destruct HI as [Hp _ _ _ (_ & _ & Hle) _].
      pose proof (pow2_pos _ Hp). lia.
    - apply Z.leb_gt in E. exists ht. auto. }
  cbn [mbind option_bind].
  destruct (probe now ht1 k) as [[ht2 found] slot] eqn:Hprobe.
  destruct (probe_Inv _ _ _ _ _ _ HI1 Hprobe) as (Hpost & HI2 & Hcap2 & Hused2).
  destruct found.
  - destruct Hpost as (Hlt & -> & e & Hs & Ho & Hk & _).
    rewrite (lookup_total_Some _ _ _ Hs), Ho.
    do 3 eexists. split; [reflexivity|]. split.
    + eapply Inv_keep;
        [exact HI2 | exact Hs | symmetry; exact Ho | symmetry; exact Hk].
    + apply list_lookup_insert_eq, Hlt.
  - assert (probe_post 0 ht2 k ht2 false slot) as Hpost2.
    { destruct Hpost as (Hlt & Hform & Hfree & Hpos & Habsent).
      assert (length (entries ht2) = length (entries ht1)) as Hlen2
        by (rewrite (inv_len _ HI2), (inv_len _ HI1), Hcap2; reflexivity).
      split; [rewrite Hlen2; exact Hlt|]. rewrite Hcap2.
      split; [left; reflexivity | auto]. }
    pose proof (Inv_install ht2 k slot (mk_entry ENTRY_OCCUPIED k v (-1)) HI2
                  ltac:(lia) Hpost2 eq_refl eq_refl) as HI3.
    cbv zeta in HI3.
    do 3 eexists. split; [reflexivity|]. split.
    + destruct (state (entries ht2 !!! slot)); exact HI3.
    + instantiate (1 := slot).
      destruct Hpost2 as (Hlt & _).
      destruct (state (entries ht2 !!! slot));
        cbn [set_used set_count set_entry entries];
        apply list_lookup_insert_eq, Hlt.
Qed.

Lemma run_op_Inv op ht :
  Inv ht -> exists ht', run_op op ht = Some ht' /\ Inv ht'.
Proof.
  intros HI. destruct op; cbn [run_op]; try (eexists; split; [reflexivity|]).
  - destruct (ht_set_spec now ht k v HI) as (ht' & b & s & -> & HI' & _).
    exists ht'. auto.
  - apply ht_get_Inv, HI.
  - apply ht_exists_Inv, HI.
  - apply ht_delete_Inv, HI.
  - apply ht_set_expire_Inv, HI.
  - apply ht_get_expire_Inv, HI.
  - apply ht_iter_next_Inv, HI.
  - destruct (ht_resize_spec ht HI) as (ht' & -> & HI' & _). eauto.
Qed.

(** Every sequence of operations runs to the end and keeps the
    invariant. *)
Lemma run_ops_Inv ops : forall ht,
  Inv ht -> exists ht', run_ops ops ht = Some ht' /\ Inv ht'.
Proof.
  induction ops as [|op ops IH]; intros ht HI; cbn [run_ops]; [eauto|].
  destruct (run_op_Inv op ht HI) as (ht1 & -> & HI1).
  cbn [mbind option_bind]. apply IH, HI1.
Qed.

Lemma run_ops_total ops : is_Some (run_ops ops ht_create).
Proof.
  destruct (run_ops_Inv ops ht_create Inv_create) as (ht & -> & _). eauto.
Qed.

Lemma reachable_Inv ops ht : run_ops ops ht_create = Some ht -> Inv ht.
Proof.
  intros H. destruct (run_ops_Inv ops ht_create Inv_create) as (ht' & H' & HI).
  congruence.
Qed.

End SetAndResize.

(** ** Probe chains, counters and resizing *)

Section Keyspace.

Lemma slot_index_home cap k j :
  pow2 cap ->
  slot_index cap (home cap k) j
  = Z.to_nat ((fnv1a_hash k + Z.of_nat j) mod cap).
Proof.
  intros Hp. pose proof (pow2_pos _ Hp).
  unfold slot_index, home. rewrite !land_mask by exact Hp.
  rewrite Z.add_mod_idemp_l by lia. reflexivity.
Qed.

(** C3.  Probe-chain integrity: after any sequence of set, delete,
    set_expire, lookup, iteration (with their lazy expirations) and resize
    operations on a fresh table, the run ends in a table in which every
    occupied slot [s], holding key [k], is reached by the linear probe
    sequence [(hash k + j) mod capacity], [j = 0, 1, ...], at some step
    [d], and every slot visited before step [d] is a Tombstone or an
    Occupied slot with another key, never an Empty slot. *)
Theorem probe_chain_integrity (ops : list ht_op) :
  exists ht,
    run_ops ops ht_create = Some ht /\
    forall s e,
      entries ht !! s = Some e -> state e = ENTRY_OCCUPIED ->
      exists d,
        (d < Z.to_nat (capacity ht))%nat /\
        Z.to_nat ((fnv1a_hash (key e) + Z.of_nat d) mod capacity ht) = s /\
        forall j, (j < d)%nat ->
          let x :=
            entries ht !!!
              Z.to_nat ((fnv1a_hash (key e) + Z.of_nat j) mod capacity ht) in
          state x = ENTRY_TOMBSTONE \/
          (state x = ENTRY_OCCUPIED /\ key x <> key e).
Proof.
  destruct (run_ops_Inv ops ht_create Inv_create) as (ht & Hrun & HI).
  exists ht. split; [exact Hrun|]. intros s e Hs Ho.
  destruct (inv_chains _ HI s e Hs Ho) as (d & Hd & Hslot & Hclear).
  exists d. rewrite <- !slot_index_home by apply HI.
  split; [exact Hd|]. split; [exact Hslot|].
  intros j Hj. rewrite <- slot_index_home by apply HI. apply Hclear, Hj.
Qed.

Lemma probe_chain_integrity_witness :
  exists d,
    (d < 64)%nat /\
    Z.to_nat ((fnv1a_hash (bs "gb") + Z.of_nat d) mod 64) = 46%nat /\
    forall j, (j < d)%nat ->
      let x :=
        entries colliding_table !!!
          Z.to_nat ((fnv1a_hash (bs "gb") + Z.of_nat j) mod 64) in
      state x = ENTRY_TOMBSTONE \/
      (state x = ENTRY_OCCUPIED /\ key x <> bs "gb").
Proof.
  destruct (probe_chain_integrity colliding_ops) as (ht & Hrun & Hchain).
  assert (ht = colliding_table) as ->.
  { unfold colliding_table. rewrite Hrun. reflexivity. }
  apply (Hchain 46%nat (mk_entry ENTRY_OCCUPIED (bs "gb") (bs "3") (-1)));
    reflexivity.
Defined.

(** C4.  Counter consistency: after any sequence of set, get, exists,
    delete, set_expire, get_expire, iteration-step and resize operations on
    a fresh table, [count] is the number of Occupied slots (the entries not
    yet seen to be expired), [used] is the number of Occupied and Tombstone
    slots, and [count <= used <= capacity]. *)
Theorem counter_consistency (ops : list ht_op) :
  exists ht,
    run_ops ops ht_create = Some ht /\
    count ht = count_if is_occupied (entries ht) /\
    used ht = count_if (fun e => is_occupied e || is_tombstone e)
                (entries ht) /\
    count ht <= used ht <= capacity ht.
Proof.
  destruct (run_ops_Inv ops ht_create Inv_create) as (ht & Hrun & HI).
  exists ht. split; [exact Hrun|].
  destruct (inv_counters _ HI) as (Hc & Hu & Hle).
  repeat split; try assumption; try lia.
  rewrite Hu. apply count_if_ext. intros s e _.
  unfold is_used, is_occupied, is_tombstone. destruct (state e); reflexivity.
Qed.

(** [probe] never changes the capacity, nor do the operations that only
    probe. *)
Lemma probe_loop_capacity now k idx n : forall ht i ft,
  capacity (fst (fst (probe_loop now ht k idx n i ft))) = capacity ht.
Proof.
  induction n as [|n IH]; intros ht i ft; cbn [probe_loop]; [reflexivity|].
  destruct (state _); [reflexivity| |apply IH].
  destruct (rstr_eq _ _); [|apply IH].
  destruct (is_expired _ _); reflexivity.
Qed.

Lemma ht_delete_capacity now ht k :
  capacity (fst (ht_delete now ht k)) = capacity ht.
Proof.
  unfold ht_delete, probe.
  pose proof (probe_loop_capacity now k (home (capacity ht) k)
                (Z.to_nat (capacity ht)) ht 0 None) as H.
  destruct (probe_loop _ _ _ _ _ _ _) as [[ht' found] slot].
  cbn [fst] in H. destruct found; exact H.
Qed.

Lemma ht_set_expire_capacity now ht k ts :
  capacity (ht_set_expire now ht k ts) = capacity ht.
Proof.
  unfold ht_set_expire, probe.
  pose proof (probe_loop_capacity now k (home (capacity ht) k)
                (Z.to_nat (capacity ht)) ht 0 None) as H.
  destruct (probe_loop _ _ _ _ _ _ _) as [[ht' found] slot].
  cbn [fst] in H. destruct found; exact H.
Qed.

(** C9 (as amended).  Whenever set is entered, on a table reached by
    any sequence of operations, with [used >= 0.7 * capacity], the table is
    resized before the operation
    proceeds: [ht_resize] returns a table of twice the capacity that holds
    exactly the occupied entries of the old one, each reached by the probe
    sequence of its key, and no tombstone, with [used = count]; [ht_set]
    then does on the old table what it does on the resized one.  Delete
    and set_expire never change the capacity. *)
Theorem resize_on_set (ops : list ht_op) (now : Z) (ht : hashtable_t)
    (k v : rstr_t) :
  run_ops ops ht_create = Some ht -> load_reached ht = true ->
  (exists ht1,
     ht_resize ht = Some ht1 /\
     capacity ht1 = capacity ht * 2 /\
     (forall e, state e = ENTRY_OCCUPIED ->
                (e ∈ entries ht <-> e ∈ entries ht1)) /\
     chains_ok ht1 /\
     (forall s e, entries ht1 !! s = Some e -> state e <> ENTRY_TOMBSTONE) /\
     used ht1 = count ht1 /\ count ht1 = count ht /\
     load_reached ht1 = false /\
     ht_set now ht k v = ht_set now ht1 k v /\
     is_Some (ht_set now ht k v)) /\
  (forall now' k', capacity (fst (ht_delete now' ht k')) = capacity ht) /\
  (forall now' k' ts,
     capacity (ht_set_expire now' ht k' ts) = capacity ht).
Proof.
  intros Hrun Hload. pose proof (reachable_Inv ops ht Hrun) as HI.
  split; [|split; intros; [apply ht_delete_capacity
                          | apply ht_set_expire_capacity]].
  destruct (ht_resize_spec ht HI)
    as (ht1 & Hre & HI1 & Hcap & Hcnt & Hused & Hnt & Hsame).
  assert (load_reached ht1 = false) as Hload1.
  { unfold load_reached. apply Z.leb_gt.
    destruct HI as [Hp _ _ _ (_ & _ & Hle) _].
    pose proof (pow2_pos _ Hp). lia. }
  exists ht1.
  split; [exact Hre|]. split; [exact Hcap|]. split; [exact Hsame|].
  split; [apply HI1|]. split; [exact Hnt|]. split; [exact Hused|].
  split; [exact Hcnt|]. split; [exact Hload1|]. split.
  - unfold ht_set. rewrite Hload, Hre, Hload1. reflexivity.
  - destruct (ht_set_spec now ht k v HI) as (ht' & b & s & -> & _). eauto.
Qed.

Lemma resize_on_set_witness :
  (exists ht1,
     ht_resize loaded_table = Some ht1 /\
     capacity ht1 = capacity loaded_table * 2 /\
     (forall e, state e = ENTRY_OCCUPIED ->
                (e ∈ entries loaded_table <-> e ∈ entries ht1)) /\
     chains_ok ht1 /\
     (forall s e, entries ht1 !! s = Some e -> state e <> ENTRY_TOMBSTONE) /\
     used ht1 = count ht1 /\ count ht1 = count loaded_table /\
     load_reached ht1 = false /\
     ht_set 0 loaded_table (bs "k") (bs "v") = ht_set 0 ht1 (bs "k") (bs "v") /\
     is_Some (ht_set 0 loaded_table (bs "k") (bs "v"))) /\
  (forall now' k',
     capacity (fst (ht_delete now' loaded_table k')) = capacity loaded_table) /\
  (forall now' k' ts,
     capacity (ht_set_expire now' loaded_table k' ts)
     = capacity loaded_table).
Proof.
  apply (resize_on_set loaded_ops 0 loaded_table (bs "k") (bs "v"));
    reflexivity.
Defined.

(** C9 as stated has delete and set_expire resize as well.  On the table
    that holds forty-five keys in sixty-four slots, both are entered with
    [used >= 0.7 * capacity] and leave the capacity at sixty-four; after
    the delete a tombstone remains, so [used] differs from [count]. *)
Lemma resize_on_delete_counterexample :
  run_ops loaded_ops ht_create = Some loaded_table /\
  load_reached loaded_table = true /\
  capacity (fst (ht_delete 0 loaded_table (bs "0"))) = 64 /\
  snd (ht_delete 0 loaded_table (bs "0")) = true /\
  used (fst (ht_delete 0 loaded_table (bs "0"))) = 45 /\
  count (fst (ht_delete 0 loaded_table (bs "0"))) = 44 /\
  capacity (ht_set_expire 0 loaded_table (bs "1") 5) = 64.
Proof. vm_compute. repeat split; reflexivity. Qed.

End Keyspace.

(** ** The codec and the matcher at their edges *)

Section Edges.

Import Glob Commands.

(** An integer field that is empty, or holds a byte that is not a digit
    after an optional leading minus sign, makes the frame malformed. *)
Lemma int_digits_reject s1 c s2 result :
  (schar c <? schar "0") || (schar "9" <? schar c) = true ->
  int_digits (s1 ++ c :: s2) result = None.
Proof.
  intros Hc. revert result. induction s1 as [|x s1 IH]; intros result.
  - cbn [app int_digits]. rewrite Hc. reflexivity.
  - cbn [app int_digits].
    destruct ((schar x <? schar "0") || (schar "9" <? schar x));
      [reflexivity | apply IH].
Qed.

Lemma parse_integer_value_reject s :
  s = [] \/ s = ["-"%char] \/
  (exists s1 c s2,
     ((s = s1 ++ c :: s2 /\ (s1 <> [] \/ c <> "-"%char)) \/
      s = "-"%char :: s1 ++ c :: s2) /\
     (schar c <? schar "0") || (schar "9" <? schar c) = true) ->
  parse_integer_value s = None.
Proof.
  intros [->|[->|(s1 & c & s2 & Hs & Hc)]]; [reflexivity..|].
  destruct Hs as [[-> Hlead]| ->].
  - destruct s1 as [|x s1].
    + cbn [app]. unfold parse_integer_value.
      destruct (Ascii.eqb c "-") eqn:E.
      * apply Ascii.eqb_eq in E. destruct Hlead; congruence.
      * cbn [int_digits]. rewrite Hc. reflexivity.
    + cbn [app]. unfold parse_integer_value.
      destruct (Ascii.eqb x "-") eqn:E.
      * destruct s1 as [|y s1]; cbn [app].
        -- cbn [int_digits]. rewrite Hc. reflexivity.
        -- change (y :: s1 ++ c :: s2) with ((y :: s1) ++ c :: s2).
           rewrite int_digits_reject by exact Hc. reflexivity.
      * change (x :: s1 ++ c :: s2) with ((x :: s1) ++ c :: s2).
        rewrite int_digits_reject by exact Hc. reflexivity.
  - unfold parse_integer_value. rewrite Ascii.eqb_refl.
    destruct s1 as [|y s1]; cbn [app].
    + cbn [int_digits]. rewrite Hc. reflexivity.
    + change (y :: s1 ++ c :: s2) with ((y :: s1) ++ c :: s2).
      rewrite int_digits_reject by exact Hc. reflexivity.
Qed.

Lemma integer_field_malformed tag rest line_len :
  tag = ":"%char \/ tag = "$"%char \/ tag = "*"%char ->
  parse_line rest = Some line_len ->
  parse_integer_value (take line_len rest) = None ->
  resp_parse (tag :: rest) = Some Malformed.
Proof.
  intros Htag Hline Hint. unfold resp_parse. cbn [length resp_parse_fuel].
  destruct Htag as [->|[->| ->]]; cbn [resp_parse_body Ascii.eqb orb];
    simpl Ascii.eqb; cbn [orb].
  - rewrite Hline, Hint. reflexivity.
  - unfold parse_bulk_string. rewrite Hline, Hint. reflexivity.
  - unfold parse_array. cbn [drop]. rewrite drop_0, Hline, Hint. reflexivity.
Qed.

(** C5.  The code at the failing inputs: a field that overflows
    [int64_t] is not rejected; the digits are accumulated with wrap-around
    and the frame parses. *)
Theorem integer_field_overflow_parsed :
  resp_parse (bs ":9223372036854775808" ++ CRLF)
  = Some (Parsed (Integer (-9223372036854775808)) 22) /\
  resp_parse (bs ":99999999999999999999" ++ CRLF)
  = Some (Parsed (Integer 7766279631452241919) 23) /\
  resp_parse (bs "$18446744073709551615" ++ CRLF)
  = Some (Parsed NullBulk 23) /\
  resp_parse (bs "*18446744073709551616" ++ CRLF)
  = Some (Parsed (Array []) 23).
Proof. repeat split; vm_compute; reflexivity. Qed.

(** C8.  The code at the failing inputs: a subject byte equal to the
    opening bracket is consumed by the literal comparison before the class
    is looked at.  The class that lists the bracket does not match it, a
    closed class matches its own spelling, and an unclosed class matches
    its own spelling; [match_char_class] itself would have matched the
    bracket. *)
Theorem glob_class_open_bracket_subject :
  glob_match (bs "[[]") (bs "[") = Some false /\
  match_char_class (bs "[[]") 0 "[" = Some (true, 3%nat) /\
  glob_match (bs "[a]") (bs "[a]") = Some true /\
  glob_match (bs "[a") (bs "[a") = Some true /\
  glob_match (bs "[a]") (bs "a") = Some true.
Proof. repeat split; vm_compute; reflexivity. Qed.

(** C6.  The code at the failing inputs: [parse_int64] has no working
    overflow test for negative values, so a stored value below the
    [int64_t] range is read with wrap-around and incremented or
    decremented instead of being rejected. *)
Theorem incr_decr_negative_overflow :
  parse_int64 (bs "-9223372036854775810") = Some 9223372036854775806 /\
  reply_on (bs "n") (bs "-9223372036854775810")
    (Array [BulkString (bs "INCR"); BulkString (bs "n")])
  = Some (bs ":9223372036854775807" ++ CRLF) /\
  reply_on (bs "n") (bs "-9223372036854775809")
    (Array [BulkString (bs "DECR"); BulkString (bs "n")])
  = Some (bs ":9223372036854775806" ++ CRLF) /\
  reply_on (bs "n") (bs "9223372036854775808")
    (Array [BulkString (bs "INCR"); BulkString (bs "n")])
  = Some (bs "-ERR value is not an integer or out of range" ++ CRLF).
Proof. repeat split; vm_compute; reflexivity. Qed.

(** C7.  The code at the failing input: the key expires at 11000; the
    clock shows 10999 when [ht_exists] probes and 11000 when
    [ht_get_expire] probes.  The second probe frees the entry and returns
    the "no expiry" sentinel, and the reply is -1 instead of -2. *)
Theorem ttl_expiry_between_probes :
  expiring_store = Some expiring_table /\
  ht_get_expire 1000 expiring_table (bs "k") = (expiring_table, 11000) /\
  fst (ht_exists 10999 expiring_table (bs "k")) = expiring_table /\
  snd (ht_exists 10999 expiring_table (bs "k")) = true /\
  snd (ht_get_expire 11000 expiring_table (bs "k")) = -1 /\
  (fun r => write_buf (fst r)) <$> ttl_while_ticking
  = Some (bs ":-1" ++ CRLF) /\
  (fun r => count (snd r)) <$> ttl_while_ticking = Some 0 /\
  (fun r => snd (ht_exists 11000 (snd r) (bs "k"))) <$> ttl_while_ticking
  = Some false.
Proof. repeat split; vm_compute; reflexivity. Qed.

End Edges.

(** ** Dispatching SET *)

Section Dispatch.

Import Commands.

Lemma dispatch_loop_SET clk client store args :
  dispatch_loop command_table (bs "SET") clk client store args
  = if Z.of_nat (length args) <? 3 then
      Some (resp_write_error client
              (bs "ERR wrong number of arguments for 'SET' command"), store)
    else if negb (5 =? -1) && (5 <? Z.of_nat (length args)) then
      Some (resp_write_error client
              (bs "ERR wrong number of arguments for 'SET' command"), store)
    else cmd_set clk client store args.
Proof. reflexivity. Qed.

(** A stored pair is found by [ht_get] at any later time. *)
Lemma ht_get_stored now ht slot k v :
  Inv ht ->
  entries ht !! slot = Some (mk_entry ENTRY_OCCUPIED k v (-1)) ->
  ht_get now ht k = (ht, Some slot) /\ value (entries ht !!! slot) = v.
Proof.
  intros HI Hs. unfold ht_get.
  rewrite (probe_live now ht k slot _ HI Hs) by reflexivity.
  rewrite (lookup_total_Some _ _ _ Hs). auto.
Qed.

(** C10.  SET dispatched with exactly four array elements (verb, key,
    value and one trailing token) on a store reached by any sequence of
    operations: the arity bounds 3 and 5 accept the
    command, [ht_set] stores the value under the key, the trailing token is
    not looked at, and the reply is the simple string OK.  Afterwards the
    key is found with that value and no expiry. *)
Theorem set_with_trailing_token (ops : list ht_op) (clk : clock)
    (client : client_t) (store : hashtable_t) (verb k v extra : bytes) :
  run_ops ops ht_create = Some store ->
  map toupper verb = bs "SET" ->
  exists store' inserted slot,
    ht_set (clk 0%nat) store k v = Some (store', inserted) /\
    dispatch_command clk client store
      (Array [BulkString verb; BulkString k; BulkString v; BulkString extra])
    = Some (resp_write_simple_string client (bs "OK"), store') /\
    write_buf (resp_write_simple_string client (bs "OK"))
    = write_buf client ++ bs "+OK" ++ CRLF /\
    entries store' !! slot = Some (mk_entry ENTRY_OCCUPIED k v (-1)) /\
    forall now, ht_get now store' k = (store', Some slot).
Proof.
  intros Hrun Hverb. pose proof (reachable_Inv ops store Hrun) as HI.
  destruct (ht_set_spec (clk 0%nat) store k v HI)
    as (store' & inserted & slot & Hset & HI' & Hslot).
  exists store', inserted, slot. split; [exact Hset|]. split.
  - unfold dispatch_command.
    cbn [length Nat.eqb forallb is_bulk andb negb orb arg_str lookup
         list_lookup].
    assert (length verb = 3%nat) as Hlen
      by (rewrite <- (length_map toupper), Hverb; reflexivity).
    rewrite Hlen. change (Nat.min 3 63) with 3%nat.
    rewrite <- Hlen, firstn_all, Hverb, dispatch_loop_SET.
    cbn [length Z.of_nat]. change (Z.of_nat 4 <? 3) with false.
    change (negb (5 =? -1) && (5 <? Z.of_nat 4)) with false. cbv iota.
    unfold cmd_set.
    cbn [arg_str lookup list_lookup length Nat.eqb].
    rewrite Hset. reflexivity.
  - split.
    + unfold resp_write_simple_string, client_write_append.
      cbn [write_buf]. rewrite <- !app_assoc. reflexivity.
    + split; [exact Hslot|]. intros now.
      apply (ht_get_stored now store' slot k v HI' Hslot).
Qed.

Lemma set_with_trailing_token_witness :
  exists store' inserted slot,
    ht_set 7 ht_create (bs "k") (bs "v") = Some (store', inserted) /\
    dispatch_command (fun _ => 7) empty_client ht_create
      (Array [BulkString (bs "sEt"); BulkString (bs "k"); BulkString (bs "v");
              BulkString (bs "EX")])
    = Some (resp_write_simple_string empty_client (bs "OK"), store') /\
    write_buf (resp_write_simple_string empty_client (bs "OK"))
    = write_buf empty_client ++ bs "+OK" ++ CRLF /\
    entries store' !! slot
    = Some (mk_entry ENTRY_OCCUPIED (bs "k") (bs "v") (-1)) /\
    forall now, ht_get now store' (bs "k") = (store', Some slot).
Proof.
  apply (set_with_trailing_token [] (fun _ => 7) empty_client ht_create
           (bs "sEt") (bs "k") (bs "v") (bs "EX"));
    reflexivity.
Defined.

End Dispatch.

(** ** TTL when the clock does not tick during the call *)

Section TtlOneClock.

Import Commands.

Variables (now : Z) (client : client_t) (store : hashtable_t).
Variables (verb k : bytes).
Hypothesis HI : Inv store.

Local Abbreviation ttl :=
  (cmd_ttl (fun _ => now) client store [BulkString verb; BulkString k]).

Lemma cmd_ttl_absent :
  (forall s e, entries store !! s = Some e -> state e = ENTRY_OCCUPIED ->
               key e <> k) ->
  ttl = Some (resp_write_integer client (-2), store).
Proof.
  intros Habs. unfold cmd_ttl, ht_exists.
  cbn [arg_str lookup list_lookup].
  destruct (probe_absent now store k HI Habs) as [slot ->]. reflexivity.
Qed.

Lemma cmd_ttl_no_expiry s e :
  entries store !! s = Some e -> state e = ENTRY_OCCUPIED -> key e = k ->
  expire_at e = -1 ->
  ttl = Some (resp_write_integer client (-1), store).
Proof.
  intros Hs Ho Hk Hexp. unfold cmd_ttl, ht_exists, ht_get_expire.
  cbn [arg_str lookup list_lookup].
  assert (is_expired e now = false) as Hlive
    by (unfold is_expired; rewrite Hexp; reflexivity).
  rewrite (probe_live now store k s e HI Hs Ho Hk Hlive). cbn [negb].
  rewrite (probe_live now store k s e HI Hs Ho Hk Hlive).
  rewrite (lookup_total_Some _ _ _ Hs), Hexp. reflexivity.
Qed.

Lemma cmd_ttl_expired s e :
  entries store !! s = Some e -> state e = ENTRY_OCCUPIED -> key e = k ->
  expire_at e <> -1 -> expire_at e <= now ->
  ttl = Some (resp_write_integer client (-2),
              set_count (set_entry store s (entry_free e)) (count store - 1)).
Proof.
  intros Hs Ho Hk Hexp Hpast. unfold cmd_ttl, ht_exists.
  cbn [arg_str lookup list_lookup].
  assert (is_expired e now = true) as Hdead.
  { unfold is_expired. apply Z.eqb_neq in Hexp. rewrite Hexp.
    apply Z.leb_le, Hpast. }
  destruct (probe_expired now store k s e HI Hs Ho Hk Hdead) as [slot ->].
  reflexivity.
Qed.

Lemma cmd_ttl_remaining s e :
  entries store !! s = Some e -> state e = ENTRY_OCCUPIED -> key e = k ->
  expire_at e <> -1 -> now < expire_at e ->
  expire_at e - now <= INT64_MAX - 999 ->
  ttl = Some (resp_write_integer client ((expire_at e - now + 999) / 1000),
              store) /\
  1000 * ((expire_at e - now + 999) / 1000 - 1) < expire_at e - now
    <= 1000 * ((expire_at e - now + 999) / 1000).
Proof.
  intros Hs Ho Hk Hexp Hfuture Hfit. split.
  - unfold cmd_ttl, ht_exists, ht_get_expire.
    cbn [arg_str lookup list_lookup].
    assert (is_expired e now = false) as Hlive.
    { unfold is_expired. apply Z.eqb_neq in Hexp. rewrite Hexp.
      apply Z.leb_gt, Hfuture. }
    rewrite (probe_live now store k s e HI Hs Ho Hk Hlive). cbn [negb].
    rewrite (probe_live now store k s e HI Hs Ho Hk Hlive).
    rewrite (lookup_total_Some _ _ _ Hs).
    apply Z.eqb_neq in Hexp. rewrite Hexp.
    unfold INT64_MAX in Hfit.
    rewrite (wrap64_id (expire_at e - now))
      by (unfold INT64_MIN, INT64_MAX; lia).
    destruct (expire_at e - now <=? 0) eqn:E; [apply Z.leb_le in E; lia|].
    rewrite wrap64_id by (unfold INT64_MIN, INT64_MAX; lia).
    rewrite Z.quot_div_nonneg by lia. reflexivity.
  - pose proof (Z.div_mod (expire_at e - now + 999) 1000 ltac:(lia)).
    pose proof (Z.mod_pos_bound (expire_at e - now + 999) 1000 ltac:(lia)).
    lia.
Qed.

End TtlOneClock.

(** ** [glob_match] always returns *)

Section GlobTotal.

Import Glob.

Lemma class_loop_some fuel pattern c : forall i first matched,
  (length pattern <= fuel + i)%nat ->
  exists i' matched',
    class_loop fuel pattern c i first matched = Some (i', matched') /\
    (i <= i')%nat.
Proof.
  induction fuel as [|fuel IH]; intros i first matched Hfuel.
  - cbn [class_loop].
    destruct (i <? length pattern)%nat eqn:E;
      [apply Nat.ltb_lt in E; lia|].
    cbn [andb]. eauto.
  - cbn [class_loop].
    destruct ((i <? length pattern)%nat
              && (negb (Ascii.eqb (byte_at pattern i) "]") || first));
      [|eauto].
    match goal with
    | |- context [class_loop fuel pattern c ?j false ?m] =>
        destruct (IH j false m) as (i' & m' & Hr & Hle)
    end.
    + destruct (_ && _ && _); lia.
    + rewrite Hr. exists i', m'. split; [reflexivity|].
      destruct (_ && _ && _); lia.
Qed.

Lemma match_char_class_some pattern pi c :
  exists b pi',
    match_char_class pattern pi c = Some (b, pi') /\
    (b = true -> (pi < pi' <= length pattern)%nat).
Proof.
  unfold match_char_class.
  destruct (length pattern <=? S pi)%nat; [exists false, pi; split; [auto|discriminate]|].
  match goal with
  | |- context [class_loop ?f pattern c ?j true false] =>
      destruct (class_loop_some f pattern c j true false ltac:(lia))
        as (i' & m' & Hr & Hle)
  end.
  rewrite Hr.
  destruct (length pattern <=? i')%nat eqn:E;
    [exists false, pi; split; [auto|discriminate]|].
  apply Nat.leb_gt in E. eexists _, _. split; [reflexivity|].
  intros _. destruct (_ || _); lia.
Qed.

(** The rounds left, counted as in the comment on [glob_match]. *)
Lemma glob_loop_some pattern str fuel : forall pi si star_pi star_si,
  (pi <= length pattern)%nat ->
  match star_pi with
  | Some sp =>
      (sp < length pattern)%nat /\ (star_si <= si)%nat /\
      (star_si <= length str)%nat
  | None => True
  end ->
  ((length str + 1
    - match star_pi with Some _ => S star_si | None => O end)
   * (length pattern + 2) + (length pattern + 1 - pi) <= fuel)%nat ->
  is_Some (glob_loop fuel pattern str pi si star_pi star_si).
Proof.
  induction fuel as [|fuel IH]; intros pi si star_pi star_si Hpi Hstar Hfuel.
  { exfalso. apply Nat.le_0_r, Nat.eq_add_0 in Hfuel as [_ Hfuel]. lia. }
  cbn [glob_loop].
  destruct (si <? length str)%nat eqn:Hsi; [|eauto].
  apply Nat.ltb_lt in Hsi.
  destruct ((pi <? length pattern)%nat && Ascii.eqb (byte_at pattern pi) "*")
    eqn:E1.
  { (* a star is recorded *)
    apply andb_true_iff in E1 as [E1 _]. apply Nat.ltb_lt in E1.
    apply IH; [lia | lia |].
    assert ((length str + 1 - S si) * (length pattern + 2)
            <= (length str + 1
                - match star_pi with Some _ => S star_si | None => O end)
               * (length pattern + 2))%nat.
    { apply Nat.mul_le_mono_r. destruct star_pi; lia. }
    lia. }
  destruct ((pi <? length pattern)%nat
            && (Ascii.eqb (byte_at pattern pi) "?"
                || Ascii.eqb (byte_at pattern pi) (byte_at str si))) eqn:E2.
  { (* one byte matched *)
    apply andb_true_iff in E2 as [E2 _]. apply Nat.ltb_lt in E2.
    apply IH; [lia | destruct star_pi; [lia | exact I] | lia]. }
  assert (exists b pi',
            (if (pi <? length pattern)%nat
                && Ascii.eqb (byte_at pattern pi) "["
             then match_char_class pattern pi (byte_at str si)
             else Some (false, pi)) = Some (b, pi') /\
            (b = true -> (pi < pi' <= length pattern)%nat))
    as (b & pi' & -> & Hclass).
  { destruct ((pi <? length pattern)%nat
               && Ascii.eqb (byte_at pattern pi) "[");
      [apply match_char_class_some|].
    exists false, pi. split; [reflexivity | discriminate]. }
  destruct b.
  { (* a class matched *)
    specialize (Hclass eq_refl).
    apply IH; [lia | destruct star_pi; [lia | exact I] | lia]. }
  destruct star_pi as [sp|]; [|eauto].
  (* back to the last star *)
  destruct Hstar as (Hsp & Hle & Hlen).
  apply IH; [lia | lia |].
  replace (length str + 1 - S star_si)%nat
    with (S (length str + 1 - S (S star_si)))%nat in Hfuel by lia.
  cbn [Nat.mul] in Hfuel. lia.
Qed.

Lemma glob_match_total pattern str : is_Some (glob_match pattern str).
Proof.
  apply glob_loop_some; [lia | exact I |]. nia.
Qed.

End GlobTotal.

(** ** The keyspace table as a map *)

Section MapView.

Lemma holds_true k e :
  holds k e = true <-> state e = ENTRY_OCCUPIED /\ key e = k.
Proof.
  unfold holds. rewrite andb_true_iff, is_occupied_true, rstr_eq_spec. tauto.
Qed.

Lemma holds_other k k' e : key e = k -> k' <> k -> holds k' e = false.
Proof.
  intros Hk Hne. apply not_true_is_false. rewrite holds_true. intros [_ H].
  congruence.
Qed.

Lemma holds_free k e : is_occupied e = false -> holds k e = false.
Proof. unfold holds. intros ->. reflexivity. Qed.

(** Replacing an element that [p] rejects by another one that [p] rejects
    does not change what a scan finds. *)
Lemma find_insert_same (p : ht_entry_t -> bool) e' : forall es s,
  (forall e0, es !! s = Some e0 -> p e0 = false) -> p e' = false ->
  List.find p (<[s := e']> es) = List.find p es.
Proof.
  induction es as [|x es IH]; intros [|s] Hold Hnew; cbn; try reflexivity.
  - rewrite Hnew, (Hold x eq_refl). reflexivity.
  - destruct (p x); [reflexivity|]. apply IH; [|exact Hnew].
    intros e0 H0. apply Hold. exact H0.
Qed.

Lemma lookup_entry_slot ht k e :
  lookup_entry ht k = Some e ->
  exists s, entries ht !! s = Some e /\ state e = ENTRY_OCCUPIED /\ key e = k.
Proof.
  intros H. apply find_some in H as [Hin Hh].
  apply holds_true in Hh. apply list_elem_of_In, list_elem_of_lookup in Hin.
  destruct Hin as [s Hs]. eauto.
Qed.

Lemma lookup_entry_None ht k :
  lookup_entry ht k = None <->
  forall s e, entries ht !! s = Some e -> state e = ENTRY_OCCUPIED ->
              key e <> k.
Proof.
  split.
  - intros H s e Hs Ho Hk.
    pose proof (find_none _ _ H e) as Hn.
    rewrite (proj2 (holds_true k e)) in Hn by auto.
    enough (false = true) by discriminate. symmetry. apply Hn.
    apply list_elem_of_In, list_elem_of_lookup. eauto.
  - intros H. destruct (lookup_entry ht k) as [e|] eqn:E; [|reflexivity].
    apply lookup_entry_slot in E as (s & Hs & Ho & Hk).
    destruct (H s e Hs Ho Hk).
Qed.

Lemma lookup_entry_Some ht k s e :
  Inv ht -> entries ht !! s = Some e -> state e = ENTRY_OCCUPIED ->
  key e = k -> lookup_entry ht k = Some e.
Proof.
  intros HI Hs Ho Hk.
  destruct (lookup_entry ht k) as [e'|] eqn:E.
  - apply lookup_entry_slot in E as (s' & Hs' & Ho' & Hk').
    assert (s' = s) as ->.
    { apply (chains_unique (capacity ht) (entries ht)
               s' s e' e (inv_chains _ HI) Hs' Hs Ho' Ho). congruence. }
    congruence.
  - exfalso. exact (proj1 (lookup_entry_None ht k) E s e Hs Ho Hk).
Qed.

(** Two tables with the same occupied entries are the same map. *)
Lemma lookup_entry_same ht ht' k :
  Inv ht -> Inv ht' ->
  (forall e, state e = ENTRY_OCCUPIED ->
             (e ∈ entries ht <-> e ∈ entries ht')) ->
  lookup_entry ht' k = lookup_entry ht k.
Proof.
  intros HI HI' Hsame.
  destruct (lookup_entry ht k) as [e|] eqn:E.
  - apply lookup_entry_slot in E as (s & Hs & Ho & Hk).
    assert (e ∈ entries ht') as Hin
      by (apply Hsame; [exact Ho | apply list_elem_of_lookup; eauto]).
    apply list_elem_of_lookup in Hin as [s' Hs'].
    eapply lookup_entry_Some; eassumption.
  - apply lookup_entry_None. intros s e Hs Ho Hk.
    assert (e ∈ entries ht) as Hin
      by (apply Hsame; [exact Ho | apply list_elem_of_lookup; eauto]).
    apply list_elem_of_lookup in Hin as [s' Hs'].
    exact (proj1 (lookup_entry_None ht k) E s' e Hs' Ho Hk).
Qed.

(** Freeing the slot of [k] removes [k] from the map and nothing else. *)
Lemma lookup_entry_free ht s e k k' :
  Inv ht -> entries ht !! s = Some e -> state e = ENTRY_OCCUPIED ->
  key e = k ->
  lookup_entry (set_count (set_entry ht s (entry_free e)) (count ht - 1)) k'
  = if rstr_eq k' k then None else lookup_entry ht k'.
Proof.
  intros HI Hs Ho Hk.
  destruct (rstr_eq k' k) eqn:E.
  - apply rstr_eq_spec in E as ->.
    apply lookup_entry_None.
    cbn [set_count set_entry entries]. intros t x Ht Hox Hkx.
    destruct (decide (t = s)) as [->|Hne].
    + rewrite list_lookup_insert_eq in Ht
        by (eapply lookup_lt_Some; eassumption).
      injection Ht as <-. discriminate.
    + rewrite list_lookup_insert_ne in Ht by congruence.
      apply Hne.
      apply (chains_unique (capacity ht) (entries ht)
               t s x e (inv_chains _ HI) Ht Hs Hox Ho). congruence.
  - unfold lookup_entry. cbn [set_count set_entry entries].
    apply find_insert_same; [|reflexivity].
    intros e0 H0. assert (e0 = e) as -> by congruence.
    apply holds_other with k; [exact Hk|].
    intros ->. assert (rstr_eq k k = true) by (apply rstr_eq_spec; reflexivity).
    congruence.
Qed.

Lemma rstr_eq_refl k : rstr_eq k k = true.
Proof. apply rstr_eq_spec. reflexivity. Qed.

Lemma rstr_eq_false a b : rstr_eq a b = false <-> a <> b.
Proof.
  rewrite <- rstr_eq_spec. destruct (rstr_eq a b); split; congruence.
Qed.

(** What [probe] does to the map and what it returns. *)
Lemma probe_map now ht k ht' found slot :
  Inv ht -> probe now ht k = (ht', found, slot) ->
  found = present (live_entry ht k now) /\
  (found = true -> entries ht !! slot = live_entry ht k now /\ ht' = ht) /\
  (forall k', lookup_entry ht' k'
              = if rstr_eq k' k then live_entry ht k now
                else lookup_entry ht k') /\
  count ht'
  = count ht - (if present (lookup_entry ht k) && negb found then 1 else 0).
Proof.
  intros HI Hprobe. unfold live_entry.
  destruct (lookup_entry ht k) as [e|] eqn:E.
  - destruct (lookup_entry_slot _ _ _ E) as (s & Hs & Ho & Hk).
    destruct (is_expired e now) eqn:Hexp.
    + destruct (probe_expired now ht k s e HI Hs Ho Hk Hexp) as [slot' Hp].
      rewrite Hp in Hprobe. injection Hprobe as <- <- <-.
      split; [reflexivity|]. split; [discriminate|]. split.
      * intros k'. rewrite (lookup_entry_free ht s e k k' HI Hs Ho Hk).
        destruct (rstr_eq k' k); reflexivity.
      * reflexivity.
    + rewrite (probe_live now ht k s e HI Hs Ho Hk Hexp) in Hprobe.
      injection Hprobe as <- <- <-.
      split; [reflexivity|]. split; [auto|]. split; [|cbn; lia].
      intros k'. destruct (rstr_eq k' k) eqn:Ek; [|reflexivity].
      apply rstr_eq_spec in Ek as ->. exact E.
  - destruct (probe_absent now ht k HI (proj1 (lookup_entry_None ht k) E))
      as [slot' Hp].
    rewrite Hp in Hprobe. injection Hprobe as <- <- <-.
    split; [reflexivity|]. split; [discriminate|]. split; [|cbn; lia].
    intros k'. destruct (rstr_eq k' k) eqn:Ek; [|reflexivity].
    apply rstr_eq_spec in Ek as ->. exact E.
Qed.

End MapView.

Section MapOperations.

Lemma ht_get_map now ht k :
  Inv ht ->
  pointee (ht_get now ht k) = value <$> live_entry ht k now /\
  Inv (fst (ht_get now ht k)) /\
  (forall k', lookup_entry (fst (ht_get now ht k)) k'
              = if rstr_eq k' k then live_entry ht k now
                else lookup_entry ht k') /\
  count (fst (ht_get now ht k))
  = count ht - (if present (lookup_entry ht k)
                   && negb (present (live_entry ht k now)) then 1 else 0).
Proof.
  intros HI. unfold ht_get, pointee.
  destruct (probe now ht k) as [[ht' found] slot] eqn:Hprobe.
  destruct (probe_map _ _ _ _ _ _ HI Hprobe) as (Hf & Hslot & Hmap & Hcnt).
  destruct (probe_Inv _ _ _ _ _ _ HI Hprobe) as (_ & HI' & _).
  cbn [fst snd]. split; [|rewrite <- Hf; auto].
  destruct found.
  - destruct (Hslot eq_refl) as [Hs ->].
    destruct (live_entry ht k now) as [e|]; [|discriminate].
    rewrite (lookup_total_Some _ _ _ Hs). reflexivity.
  - destruct (live_entry ht k now); [discriminate|reflexivity].
Qed.

Lemma ht_exists_get now ht k :
  ht_exists now ht k
  = (fst (ht_get now ht k), present (snd (ht_get now ht k))).
Proof.
  unfold ht_exists, ht_get.
  destruct (probe now ht k) as [[ht' []] slot]; reflexivity.
Qed.

Lemma ht_get_present now ht k :
  Inv ht -> present (snd (ht_get now ht k)) = present (live_entry ht k now).
Proof.
  intros HI. destruct (ht_get_map now ht k HI) as (Hp & _).
  unfold pointee in Hp.
  destruct (snd (ht_get now ht k)), (live_entry ht k now);
    try discriminate; reflexivity.
Qed.

Lemma ht_get_expire_map now ht k :
  Inv ht ->
  ht_get_expire now ht k
  = (fst (ht_get now ht k),
     match live_entry ht k now with Some e => expire_at e | None => -1 end).
Proof.
  intros HI. unfold ht_get_expire, ht_get.
  destruct (probe now ht k) as [[ht' found] slot] eqn:Hprobe.
  destruct (probe_map _ _ _ _ _ _ HI Hprobe) as (Hf & Hslot & _).
  destruct found.
  - destruct (Hslot eq_refl) as [Hs ->].
    destruct (live_entry ht k now) as [e|]; [|discriminate].
    rewrite (lookup_total_Some _ _ _ Hs). reflexivity.
  - destruct (live_entry ht k now); [discriminate|reflexivity].
Qed.

Lemma live_entry_slot ht k now e :
  live_entry ht k now = Some e ->
  lookup_entry ht k = Some e /\ is_expired e now = false /\
  state e = ENTRY_OCCUPIED /\ key e = k.
Proof.
  unfold live_entry. destruct (lookup_entry ht k) as [x|] eqn:E; [|discriminate].
  destruct (is_expired x now) eqn:Hx; [discriminate|]. intros [= ->].
  destruct (lookup_entry_slot _ _ _ E) as (s & _ & Ho & Hk). auto.
Qed.

Lemma ht_delete_map now ht k :
  Inv ht ->
  snd (ht_delete now ht k) = present (live_entry ht k now) /\
  Inv (fst (ht_delete now ht k)) /\
  (forall k', lookup_entry (fst (ht_delete now ht k)) k'
              = if rstr_eq k' k then None else lookup_entry ht k') /\
  count (fst (ht_delete now ht k))
  = count ht - (if present (lookup_entry ht k) then 1 else 0) /\
  used (fst (ht_delete now ht k)) = used ht /\
  capacity (fst (ht_delete now ht k)) = capacity ht.
Proof.
  intros HI.
  split; [|split; [apply ht_delete_Inv, HI|]]; unfold ht_delete;
    destruct (probe now ht k) as [[ht' found] slot] eqn:Hprobe;
    destruct (probe_map _ _ _ _ _ _ HI Hprobe) as (Hf & Hslot & Hmap & Hcnt);
    destruct (probe_Inv _ _ _ _ _ _ HI Hprobe) as (_ & HI' & Hcap & Hused).
  - destruct found; exact Hf.
  - destruct found; cbn [fst].
    + destruct (Hslot eq_refl) as [Hs ->].
      destruct (live_entry ht k now) as [e|] eqn:Hl; [|discriminate].
      destruct (live_entry_slot _ _ _ _ Hl) as (Hlk & _ & Ho & Hk).
      rewrite (lookup_total_Some _ _ _ Hs), Hlk.
      split; [|cbn; split; [lia | auto]].
      intros k'. apply lookup_entry_free; assumption.
    + split; [|rewrite Hcnt, andb_true_r; auto].
      intros k'. rewrite Hmap.
      destruct (live_entry ht k now); [discriminate|].
      destruct (rstr_eq k' k); reflexivity.
Qed.

Lemma ht_set_expire_map now ht k ts :
  Inv ht ->
  forall k', lookup_entry (ht_set_expire now ht k ts) k'
             = if rstr_eq k' k
               then (fun e => mk_entry ENTRY_OCCUPIED k (value e) ts)
                      <$> live_entry ht k now
               else lookup_entry ht k'.
Proof.
  intros HI k'. unfold ht_set_expire.
  destruct (probe now ht k) as [[ht' found] slot] eqn:Hprobe.
  destruct (probe_map _ _ _ _ _ _ HI Hprobe) as (Hf & Hslot & Hmap & Hcnt).
  destruct found.
  - destruct (Hslot eq_refl) as [Hs ->].
    destruct (live_entry ht k now) as [e|] eqn:Hl; [|discriminate].
    destruct (live_entry_slot _ _ _ _ Hl) as (Hlk & _ & Ho & Hk).
    rewrite (lookup_total_Some _ _ _ Hs), Ho, Hk. cbn [fmap option_fmap option_map].
    destruct (rstr_eq k' k) eqn:Ek.
    + apply rstr_eq_spec in Ek as ->.
      apply lookup_entry_Some with slot; try reflexivity.
      * eapply Inv_keep; [exact HI | exact Hs | symmetry; exact Ho
                         | symmetry; exact Hk].
      * cbn [set_entry entries]. apply list_lookup_insert_eq.
        eapply lookup_lt_Some, Hs.
    + apply rstr_eq_false in Ek. unfold lookup_entry. cbn [set_entry entries].
      apply find_insert_same.
      * intros e0 H0. assert (e0 = e) as -> by congruence.
        apply holds_other with k; assumption.
      * apply holds_other with k; [reflexivity | assumption].
  - rewrite Hmap. destruct (live_entry ht k now); [discriminate|].
    destruct (rstr_eq k' k); reflexivity.
Qed.

Lemma ht_resize_map ht :
  Inv ht ->
  exists ht',
    ht_resize ht = Some ht' /\ Inv ht' /\
    capacity ht' = capacity ht * 2 /\ count ht' = count ht /\
    used ht' = count ht /\
    forall k, lookup_entry ht' k = lookup_entry ht k.
Proof.
  intros HI.
  destruct (ht_resize_spec ht HI)
    as (ht' & Hre & HI' & Hcap & Hcnt & Hused & _ & Hsame).
  exists ht'. repeat (split; [congruence || assumption|]).
  intros k. apply lookup_entry_same; assumption.
Qed.

Lemma ht_set_map now ht k v :
  Inv ht ->
  exists ht',
    ht_set now ht k v = Some (ht', negb (present (live_entry ht k now))) /\
    Inv ht' /\
    (forall k', lookup_entry ht' k'
                = if rstr_eq k' k
                  then Some (mk_entry ENTRY_OCCUPIED k v (-1))
                  else lookup_entry ht k') /\
    count ht' = count ht + (if present (lookup_entry ht k) then 0 else 1).
Proof.
  intros HI. unfold ht_set.
  assert (exists ht1,
            (if load_reached ht then ht_resize ht else Some ht) = Some ht1 /\
            Inv ht1 /\ 10 * used ht1 < 7 * capacity ht1 /\
            count ht1 = count ht /\
            forall k', lookup_entry ht1 k' = lookup_entry ht k')
    as (ht1 & -> & HI1 & Hload1 & Hcnt1 & Hmap1).
  { unfold load_reached. destruct (7 * capacity ht <=? 10 * used ht) eqn:E.
    - destruct (ht_resize_map ht HI)
        as (ht1 & -> & HI1 & Hc1 & Hn1 & Hu1 & Hm1).
      exists ht1. split; [reflexivity|]. split; [exact HI1|].
      split; [|auto].
      destruct HI as [Hp _ _ _ (_ & _ & Hle) _].
      pose proof (pow2_pos _ Hp). lia.
    - apply Z.leb_gt in E. exists ht. auto. }
  cbn [mbind option_bind].
  assert (live_entry ht k now = live_entry ht1 k now) as ->
    by (unfold live_entry; rewrite Hmap1; reflexivity).
  rewrite <- (Hmap1 k), <- Hcnt1.
  assert (forall ht', (forall k', lookup_entry ht' k'
                = if rstr_eq k' k
                  then Some (mk_entry ENTRY_OCCUPIED k v (-1))
                  else lookup_entry ht1 k') ->
            forall k', lookup_entry ht' k'
                = if rstr_eq k' k
                  then Some (mk_entry ENTRY_OCCUPIED k v (-1))
                  else lookup_entry ht k') as Hback.
  { intros ht' H k'. rewrite H, Hmap1. reflexivity. }
  destruct (probe now ht1 k) as [[ht2 found] slot] eqn:Hprobe.
  destruct (probe_Inv _ _ _ _ _ _ HI1 Hprobe) as (Hpost & HI2 & Hcap2 & Hused2).
  destruct (probe_map _ _ _ _ _ _ HI1 Hprobe) as (Hf & Hslot & Hmap & Hcnt).
  rewrite <- Hf.
  destruct found.
  - destruct (Hslot eq_refl) as [Hs ->].
    destruct (live_entry ht1 k now) as [e|] eqn:Hl; [|discriminate].
    destruct (live_entry_slot _ _ _ _ Hl) as (Hlk & _ & Ho & Hk).
    rewrite (lookup_total_Some _ _ _ Hs), Ho, Hlk.
    eexists. split; [reflexivity|].
    assert (Inv (set_entry ht1 slot (mk_entry ENTRY_OCCUPIED k v (-1))))
      as HI3
      by (eapply Inv_keep; [exact HI1 | exact Hs | symmetry; exact Ho
                           | symmetry; exact Hk]).
    split; [exact HI3|]. split; [|cbn; lia].
    apply Hback. intros k'. destruct (rstr_eq k' k) eqn:Ek.
    + apply rstr_eq_spec in Ek as ->.
      apply lookup_entry_Some with slot; try reflexivity; [exact HI3|].
      cbn [set_entry entries]. apply list_lookup_insert_eq.
      eapply lookup_lt_Some, Hs.
    + apply rstr_eq_false in Ek. unfold lookup_entry. cbn [set_entry entries].
      apply find_insert_same.
      * intros e0 H0. assert (e0 = e) as -> by congruence.
        apply holds_other with k; assumption.
      * apply holds_other with k; [reflexivity | assumption].
  - assert (probe_post 0 ht2 k ht2 false slot) as Hpost2.
    { destruct Hpost as (Hlt & Hform & Hfree & Hpos & Habsent).
      assert (length (entries ht2) = length (entries ht1)) as Hlen2
        by (rewrite (inv_len _ HI2), (inv_len _ HI1), Hcap2; reflexivity).
      split; [rewrite Hlen2; exact Hlt|]. rewrite Hcap2.
      split; [left; reflexivity | auto]. }
    pose proof (Inv_install ht2 k slot (mk_entry ENTRY_OCCUPIED k v (-1)) HI2
                  ltac:(lia) Hpost2 eq_refl eq_refl) as HI3.
    cbv zeta in HI3.
    destruct Hpost2 as (Hlt & _ & Hfree & _).
    eexists. split; [reflexivity|].
    split; [destruct (state (entries ht2 !!! slot)); exact HI3|].
    split.
    + apply Hback. intros k'. destruct (rstr_eq k' k) eqn:Ek.
      * apply rstr_eq_spec in Ek as ->.
        apply lookup_entry_Some with slot; try reflexivity;
          [destruct (state (entries ht2 !!! slot)); exact HI3|].
        destruct (state (entries ht2 !!! slot));
          cbn [set_used set_count set_entry entries];
          apply list_lookup_insert_eq, Hlt.
      * specialize (Hmap k'). rewrite Ek in Hmap. rewrite <- Hmap.
        apply rstr_eq_false in Ek.
        transitivity (List.find (holds k')
                        (<[slot := mk_entry ENTRY_OCCUPIED k v (-1)]>
                           (entries ht2))).
        { unfold lookup_entry.
          destruct (state (entries ht2 !!! slot)); reflexivity. }
        apply find_insert_same.
        -- intros e0 H0. apply holds_free.
           rewrite <- (lookup_total_Some _ _ _ H0). exact Hfree.
        -- apply holds_other with k; [reflexivity | assumption].
    + rewrite andb_true_r in Hcnt.
      destruct (state (entries ht2 !!! slot));
        cbn [set_used set_count set_entry count];
        destruct (present (lookup_entry ht1 k)); lia.
Qed.

End MapOperations.

Section MapTheorems.

Lemma ht_get_absent now ht k :
  Inv ht -> live_entry ht k now = lookup_entry ht k ->
  ht_get now ht k
  = (ht, match lookup_entry ht k with
         | Some _ => snd (ht_get now ht k)
         | None => None
         end).
Proof.
  intros HI Hl. unfold ht_get.
  destruct (lookup_entry ht k) as [e|] eqn:E.
  - destruct (live_entry_slot _ _ _ _ Hl) as (_ & Hexp & Ho & Hk).
    destruct (lookup_entry_slot _ _ _ E) as (s & Hs & _).
    rewrite (probe_live now ht k s e HI Hs Ho Hk Hexp). reflexivity.
  - destruct (probe_absent now ht k HI (proj1 (lookup_entry_None ht k) E))
      as [slot ->]. reflexivity.
Qed.

(** X1.  On a table reached by any sequence of operations, [ht_get]
    returns the value of the entry stored under the key unless that entry
    is expired, in which case it returns NULL; [ht_exists] and
    [ht_get_expire] agree with it.  Afterwards every other key is stored
    as before, the key itself is gone if it was expired, and the table is
    untouched if nothing was expired. *)
Theorem ht_get_reads_map (ops : list ht_op) (now : Z) (ht : hashtable_t)
    (k : rstr_t) :
  run_ops ops ht_create = Some ht ->
  pointee (ht_get now ht k) = value <$> live_entry ht k now /\
  snd (ht_exists now ht k) = present (live_entry ht k now) /\
  snd (ht_get_expire now ht k)
  = match live_entry ht k now with Some e => expire_at e | None => -1 end /\
  (forall k', lookup_entry (fst (ht_get now ht k)) k'
              = if rstr_eq k' k then live_entry ht k now
                else lookup_entry ht k') /\
  (live_entry ht k now = lookup_entry ht k -> fst (ht_get now ht k) = ht).
Proof.
  intros Hrun. pose proof (reachable_Inv ops ht Hrun) as HI.
  destruct (ht_get_map now ht k HI) as (Hp & _ & Hmap & _).
  split; [exact Hp|]. split.
  - rewrite ht_exists_get. cbn [snd]. apply ht_get_present, HI.
  - split; [rewrite ht_get_expire_map by exact HI; reflexivity|].
    split; [exact Hmap|].
    intros Hl. rewrite (ht_get_absent now ht k HI Hl). reflexivity.
Qed.

Lemma ht_get_reads_map_witness :
  pointee (ht_get 5 colliding_table (bs "gb"))
  = value <$> live_entry colliding_table (bs "gb") 5 /\
  snd (ht_exists 5 colliding_table (bs "gb"))
  = present (live_entry colliding_table (bs "gb") 5) /\
  snd (ht_get_expire 5 colliding_table (bs "gb"))
  = match live_entry colliding_table (bs "gb") 5 with
    | Some e => expire_at e
    | None => -1
    end /\
  (forall k', lookup_entry (fst (ht_get 5 colliding_table (bs "gb"))) k'
              = if rstr_eq k' (bs "gb")
                then live_entry colliding_table (bs "gb") 5
                else lookup_entry colliding_table k') /\
  (live_entry colliding_table (bs "gb") 5
   = lookup_entry colliding_table (bs "gb") ->
   fst (ht_get 5 colliding_table (bs "gb")) = colliding_table).
Proof.
  apply (ht_get_reads_map colliding_ops 5 colliding_table (bs "gb")).
  vm_compute. reflexivity.
Defined.

(** X2.  Lazy expiry: when the entry stored under a key is expired, the
    next [ht_get] of that key returns NULL, turns the entry's slot
    into a tombstone with both strings freed, lowers [count] by exactly
    one and leaves [used] and the capacity as they are. *)
Theorem expired_entry_reclaimed (ops : list ht_op) (now : Z)
    (ht : hashtable_t) (k : rstr_t) (e : ht_entry_t) :
  run_ops ops ht_create = Some ht ->
  lookup_entry ht k = Some e -> is_expired e now = true ->
  exists s,
    entries ht !! s = Some e /\
    ht_get now ht k
    = (set_count (set_entry ht s (entry_free e)) (count ht - 1), None) /\
    entries (fst (ht_get now ht k)) !! s
    = Some (mk_entry ENTRY_TOMBSTONE [] [] (-1)) /\
    ht_count (fst (ht_get now ht k)) = ht_count ht - 1 /\
    used (fst (ht_get now ht k)) = used ht /\
    capacity (fst (ht_get now ht k)) = capacity ht /\
    lookup_entry (fst (ht_get now ht k)) k = None.
Proof.
  intros Hrun Hl Hexp. pose proof (reachable_Inv ops ht Hrun) as HI.
  destruct (lookup_entry_slot _ _ _ Hl) as (s & Hs & Ho & Hk).
  exists s. split; [exact Hs|].
  destruct (probe_expired now ht k s e HI Hs Ho Hk Hexp) as [slot Hp].
  unfold ht_get at 1 2 3 4 5. rewrite Hp. cbn [fst snd].
  split; [reflexivity|]. split.
  - cbn [set_count set_entry entries]. apply list_lookup_insert_eq.
    eapply lookup_lt_Some, Hs.
  - split; [reflexivity|]. split; [reflexivity|]. split; [reflexivity|].
    destruct (ht_get_map now ht k HI) as (_ & _ & Hmap & _).
    specialize (Hmap k). rewrite rstr_eq_refl in Hmap.
    rewrite Hmap. unfold live_entry. rewrite Hl, Hexp. reflexivity.
Qed.

Lemma expired_entry_reclaimed_witness :
  exists s,
    entries expiring_table !! s
    = Some (mk_entry ENTRY_OCCUPIED (bs "k") (bs "v") 11000) /\
    ht_get 11000 expiring_table (bs "k")
    = (set_count
         (set_entry expiring_table s
            (entry_free (mk_entry ENTRY_OCCUPIED (bs "k") (bs "v") 11000)))
         (count expiring_table - 1), None) /\
    entries (fst (ht_get 11000 expiring_table (bs "k"))) !! s
    = Some (mk_entry ENTRY_TOMBSTONE [] [] (-1)) /\
    ht_count (fst (ht_get 11000 expiring_table (bs "k")))
    = ht_count expiring_table - 1 /\
    used (fst (ht_get 11000 expiring_table (bs "k"))) = used expiring_table /\
    capacity (fst (ht_get 11000 expiring_table (bs "k")))
    = capacity expiring_table /\
    lookup_entry (fst (ht_get 11000 expiring_table (bs "k"))) (bs "k") = None.
Proof.
  apply (expired_entry_reclaimed
           [OpSet 1000 (bs "k") (bs "v"); OpExists 1000 (bs "k");
            OpSetExpire 1000 (bs "k") 11000]
           11000 expiring_table (bs "k")
           (mk_entry ENTRY_OCCUPIED (bs "k") (bs "v") 11000));
    vm_compute; reflexivity.
Defined.

(** X3.  [ht_set] always returns on a reachable table.  It returns true
    exactly when the key was not visible before (absent or expired);
    afterwards the key is stored with the new value and no expiry, every
    other key is stored as before (also across the resize and the
    reclaiming of the key's expired entry), the number of entries grows by
    one unless an entry (expired or not) was replaced, and [ht_get] finds
    the value at any later time. *)
Theorem ht_set_writes_map (ops : list ht_op) (now : Z) (ht : hashtable_t)
    (k v : rstr_t) :
  run_ops ops ht_create = Some ht ->
  exists ht',
    ht_set now ht k v = Some (ht', negb (present (live_entry ht k now))) /\
    (forall k', lookup_entry ht' k'
                = if rstr_eq k' k
                  then Some (mk_entry ENTRY_OCCUPIED k v (-1))
                  else lookup_entry ht k') /\
    ht_count ht'
    = ht_count ht + (if present (lookup_entry ht k) then 0 else 1) /\
    forall now', pointee (ht_get now' ht' k) = Some v /\
                 snd (ht_get_expire now' ht' k) = -1 /\
                 fst (ht_get now' ht' k) = ht'.
Proof.
  intros Hrun. pose proof (reachable_Inv ops ht Hrun) as HI.
  destruct (ht_set_map now ht k v HI) as (ht' & Hset & HI' & Hmap & Hcnt).
  exists ht'. split; [exact Hset|]. split; [exact Hmap|].
  split; [exact Hcnt|]. intros now'.
  assert (live_entry ht' k now' = Some (mk_entry ENTRY_OCCUPIED k v (-1)))
    as Hlive
    by (unfold live_entry; rewrite Hmap, rstr_eq_refl; reflexivity).
  destruct (ht_get_map now' ht' k HI') as (Hp & _).
  rewrite Hp, ht_get_expire_map, Hlive by exact HI'.
  split; [reflexivity|]. split; [reflexivity|].
  rewrite (ht_get_absent now' ht' k HI'); [reflexivity|].
  rewrite Hlive, Hmap, rstr_eq_refl. reflexivity.
Qed.

Lemma ht_set_writes_map_witness :
  exists ht',
    ht_set 3 loaded_table (bs "0") (bs "w")
    = Some (ht', negb (present (live_entry loaded_table (bs "0") 3))) /\
    (forall k', lookup_entry ht' k'
                = if rstr_eq k' (bs "0")
                  then Some (mk_entry ENTRY_OCCUPIED (bs "0") (bs "w") (-1))
                  else lookup_entry loaded_table k') /\
    ht_count ht'
    = ht_count loaded_table
      + (if present (lookup_entry loaded_table (bs "0")) then 0 else 1) /\
    forall now', pointee (ht_get now' ht' (bs "0")) = Some (bs "w") /\
                 snd (ht_get_expire now' ht' (bs "0")) = -1 /\
                 fst (ht_get now' ht' (bs "0")) = ht'.
Proof.
  apply (ht_set_writes_map loaded_ops 3 loaded_table (bs "0") (bs "w")).
  vm_compute. reflexivity.
Defined.

(** X4.  [ht_delete] returns true exactly when the key was visible.
    Afterwards the key is not stored, every other key is stored as before,
    [count] has dropped by one if an entry (expired or not) was stored under
    the key, [used] and the capacity are unchanged, a table that did not
    store the key is left as it was, and [ht_get] returns NULL for the key
    at any later time. *)
Theorem ht_delete_removes_key (ops : list ht_op) (now : Z)
    (ht : hashtable_t) (k : rstr_t) :
  run_ops ops ht_create = Some ht ->
  snd (ht_delete now ht k) = present (live_entry ht k now) /\
  (forall k', lookup_entry (fst (ht_delete now ht k)) k'
              = if rstr_eq k' k then None else lookup_entry ht k') /\
  ht_count (fst (ht_delete now ht k))
  = ht_count ht - (if present (lookup_entry ht k) then 1 else 0) /\
  used (fst (ht_delete now ht k)) = used ht /\
  capacity (fst (ht_delete now ht k)) = capacity ht /\
  (lookup_entry ht k = None -> ht_delete now ht k = (ht, false)) /\
  forall now', ht_get now' (fst (ht_delete now ht k)) k
               = (fst (ht_delete now ht k), None).
Proof.
  intros Hrun. pose proof (reachable_Inv ops ht Hrun) as HI.
  destruct (ht_delete_map now ht k HI) as (Hr & HI' & Hmap & Hcnt & Hu & Hc).
  split; [exact Hr|]. split; [exact Hmap|]. split; [exact Hcnt|].
  split; [exact Hu|]. split; [exact Hc|]. split.
  - intros Habs. unfold ht_delete.
    destruct (probe_absent now ht k HI (proj1 (lookup_entry_None ht k) Habs))
      as [slot ->]. reflexivity.
  - intros now'.
    assert (lookup_entry (fst (ht_delete now ht k)) k = None) as Hnone
      by (rewrite Hmap, rstr_eq_refl; reflexivity).
    rewrite (ht_get_absent now' _ k HI'), Hnone; [reflexivity|].
    unfold live_entry. rewrite Hnone. reflexivity.
Qed.

Lemma ht_delete_removes_key_witness :
  snd (ht_delete 0 colliding_table (bs "a"))
  = present (live_entry colliding_table (bs "a") 0) /\
  (forall k', lookup_entry (fst (ht_delete 0 colliding_table (bs "a"))) k'
              = if rstr_eq k' (bs "a") then None
                else lookup_entry colliding_table k') /\
  ht_count (fst (ht_delete 0 colliding_table (bs "a")))
  = ht_count colliding_table
    - (if present (lookup_entry colliding_table (bs "a")) then 1 else 0) /\
  used (fst (ht_delete 0 colliding_table (bs "a"))) = used colliding_table /\
  capacity (fst (ht_delete 0 colliding_table (bs "a")))
  = capacity colliding_table /\
  (lookup_entry colliding_table (bs "a") = None ->
   ht_delete 0 colliding_table (bs "a") = (colliding_table, false)) /\
  forall now', ht_get now' (fst (ht_delete 0 colliding_table (bs "a")))
                 (bs "a")
               = (fst (ht_delete 0 colliding_table (bs "a")), None).
Proof.
  apply (ht_delete_removes_key colliding_ops 0 colliding_table (bs "a")).
  vm_compute. reflexivity.
Defined.

(** X5.  [ht_set_expire] changes the expiry of a visible key and nothing
    else: value and key stay, other keys are stored as before, and on a
    key that is absent or expired it stores nothing.  [ht_get_expire]
    then returns the expiry that was set as long as it is -1 or still in
    the future, and -1 once it has passed. *)
Theorem ht_set_expire_sets_deadline (ops : list ht_op) (now : Z)
    (ht : hashtable_t) (k : rstr_t) (ts : Z) :
  run_ops ops ht_create = Some ht ->
  (forall k', lookup_entry (ht_set_expire now ht k ts) k'
              = if rstr_eq k' k
                then (fun e => mk_entry ENTRY_OCCUPIED k (value e) ts)
                       <$> live_entry ht k now
                else lookup_entry ht k') /\
  forall now',
    snd (ht_get_expire now' (ht_set_expire now ht k ts) k)
    = if present (live_entry ht k now) && ((ts =? -1) || (now' <? ts))
      then ts else -1.
Proof.
  intros Hrun. pose proof (reachable_Inv ops ht Hrun) as HI.
  pose proof (ht_set_expire_map now ht k ts HI) as Hmap.
  split; [exact Hmap|]. intros now'.
  rewrite ht_get_expire_map by (apply ht_set_expire_Inv, HI). cbn [snd].
  unfold live_entry at 1. rewrite Hmap, rstr_eq_refl.
  destruct (live_entry ht k now) as [e|]; cbn; [|reflexivity].
  unfold is_expired. cbn [expire_at].
  destruct (ts =? -1) eqn:E1; cbn.
  - apply Z.eqb_eq in E1. congruence.
  - rewrite Z.leb_antisym. destruct (now' <? ts); reflexivity.
Qed.

Lemma ht_set_expire_sets_deadline_witness :
  (forall k', lookup_entry (ht_set_expire 0 colliding_table (bs "a") 9) k'
              = if rstr_eq k' (bs "a")
                then (fun e => mk_entry ENTRY_OCCUPIED (bs "a") (value e) 9)
                       <$> live_entry colliding_table (bs "a") 0
                else lookup_entry colliding_table k') /\
  forall now',
    snd (ht_get_expire now' (ht_set_expire 0 colliding_table (bs "a") 9)
           (bs "a"))
    = if present (live_entry colliding_table (bs "a") 0)
         && ((9 =? -1) || (now' <? 9))
      then 9 else -1.
Proof.
  apply (ht_set_expire_sets_deadline colliding_ops 0 colliding_table
           (bs "a") 9).
  vm_compute. reflexivity.
Defined.

(** X6.  [ht_resize] returns on every reachable table, doubles the
    capacity and keeps the map: every key is stored with the same entry
    (value and expiry) as before, the count is the same, and [ht_get]
    answers every key as it did before the resize. *)
Theorem ht_resize_keeps_map (ops : list ht_op) (ht : hashtable_t) :
  run_ops ops ht_create = Some ht ->
  exists ht',
    ht_resize ht = Some ht' /\
    capacity ht' = capacity ht * 2 /\
    ht_count ht' = ht_count ht /\
    (forall k, lookup_entry ht' k = lookup_entry ht k) /\
    forall now k, pointee (ht_get now ht' k) = pointee (ht_get now ht k).
Proof.
  intros Hrun. pose proof (reachable_Inv ops ht Hrun) as HI.
  destruct (ht_resize_map ht HI) as (ht' & Hre & HI' & Hcap & Hcnt & _ & Hmap).
  exists ht'. split; [exact Hre|]. split; [exact Hcap|].
  split; [exact Hcnt|]. split; [exact Hmap|]. intros now k.
  destruct (ht_get_map now ht k HI) as (-> & _).
  destruct (ht_get_map now ht' k HI') as (-> & _).
  unfold live_entry. rewrite Hmap. reflexivity.
Qed.

Lemma ht_resize_keeps_map_witness :
  exists ht',
    ht_resize colliding_table = Some ht' /\
    capacity ht' = capacity colliding_table * 2 /\
    ht_count ht' = ht_count colliding_table /\
    (forall k, lookup_entry ht' k = lookup_entry colliding_table k) /\
    forall now k, pointee (ht_get now ht' k)
                  = pointee (ht_get now colliding_table k).
Proof.
  apply (ht_resize_keeps_map colliding_ops colliding_table).
  vm_compute. reflexivity.
Defined.

(** X7.  No key is stored twice: on a reachable table an occupied slot is
    the only occupied slot with its key, the scan for its key finds its
    entry, and [ht_get] returns a pointer into that very slot while the
    entry is not expired. *)
Theorem stored_key_unique (ops : list ht_op) (ht : hashtable_t) (s : nat)
    (e : ht_entry_t) :
  run_ops ops ht_create = Some ht ->
  entries ht !! s = Some e -> state e = ENTRY_OCCUPIED ->
  lookup_entry ht (key e) = Some e /\
  (forall s' e', entries ht !! s' = Some e' -> state e' = ENTRY_OCCUPIED ->
                 key e' = key e -> s' = s) /\
  forall now, is_expired e now = false ->
              ht_get now ht (key e) = (ht, Some s).
Proof.
  intros Hrun Hs Ho. pose proof (reachable_Inv ops ht Hrun) as HI.
  split; [eapply lookup_entry_Some; [exact HI | exact Hs | exact Ho
                                     | reflexivity]|].
  split.
  - intros s' e' Hs' Ho' Hk.
    exact (chains_unique (capacity ht) (entries ht) s' s e' e
             (inv_chains _ HI) Hs' Hs Ho' Ho Hk).
  - intros now Hexp. unfold ht_get.
    rewrite (probe_live now ht (key e) s e HI Hs Ho eq_refl Hexp).
    reflexivity.
Qed.

Lemma stored_key_unique_witness :
  lookup_entry colliding_table (bs "gb")
  = Some (mk_entry ENTRY_OCCUPIED (bs "gb") (bs "3") (-1)) /\
  (forall s' e', entries colliding_table !! s' = Some e' ->
                 state e' = ENTRY_OCCUPIED ->
                 key e' = bs "gb" -> s' = 46%nat) /\
  forall now,
    is_expired (mk_entry ENTRY_OCCUPIED (bs "gb") (bs "3") (-1)) now = false ->
    ht_get now colliding_table (bs "gb") = (colliding_table, Some 46%nat).
Proof.
  apply (stored_key_unique colliding_ops colliding_table 46
           (mk_entry ENTRY_OCCUPIED (bs "gb") (bs "3") (-1)));
    vm_compute; reflexivity.
Defined.

End MapTheorems.

(** ** Iteration and KEYS *)

Section Iteration.

Import Glob Commands.

Variables (clk : nat -> Z) (pattern : bytes).

Lemma ht_iter_next_end ht index :
  length (entries ht) = Z.to_nat (capacity ht) ->
  drop index (entries ht) = [] ->
  ht_iter_next clk ht index = (ht, index, None).
Proof.
  intros Hlen Hdrop. unfold ht_iter_next.
  assert (length (entries ht) <= index)%nat as Hle.
  { apply (f_equal length) in Hdrop. rewrite length_drop in Hdrop.
    cbn in Hdrop. lia. }
  replace (Z.to_nat (capacity ht) - index)%nat with O by lia. reflexivity.
Qed.

Lemma ht_iter_next_step ht index e l :
  length (entries ht) = Z.to_nat (capacity ht) ->
  drop index (entries ht) = e :: l ->
  ht_iter_next clk ht index
  = if is_occupied e then
      if is_expired e (clk index) then
        ht_iter_next clk
          (set_count (set_entry ht index (entry_free e)) (count ht - 1))
          (S index)
      else (ht, S index, Some (key e, value e))
    else ht_iter_next clk ht (S index).
Proof.
  intros Hlen Hdrop. unfold ht_iter_next.
  assert (entries ht !! index = Some e) as Hs.
  { pose proof (lookup_drop (entries ht) index 0) as H.
    rewrite Hdrop, Nat.add_0_r in H. symmetry. exact H. }
  pose proof (lookup_lt_Some _ _ _ Hs) as Hlt.
  replace (Z.to_nat (capacity ht) - index)%nat
    with (S (Z.to_nat (capacity ht) - S index)) by lia.
  cbn [iter_loop].
  replace (Z.of_nat index <? capacity ht) with true
    by (symmetry; apply Z.ltb_lt; lia).
  rewrite (lookup_total_Some _ _ _ Hs). unfold is_occupied.
  destruct (state e); reflexivity.
Qed.

Lemma keys_loop_from : forall l ht index acc fuel,
  Inv ht ->
  drop index (entries ht) = l -> (length l < fuel)%nat ->
  exists ht',
    keys_loop fuel clk ht index pattern acc
    = Some (ht', acc ++ keys_from clk pattern index l) /\
    entries ht' = take index (entries ht) ++ sweep clk index l /\
    Inv ht' /\ used ht' = used ht.
Proof.
  induction l as [|e l IH]; intros ht index acc fuel HI Hdrop Hfuel;
    pose proof (inv_len _ HI) as Hlen.
  - destruct fuel as [|fuel]; [cbn in Hfuel; lia|]. cbn [keys_loop].
    rewrite (ht_iter_next_end ht index Hlen Hdrop).
    exists ht. cbn [keys_from sweep]. rewrite !app_nil_r.
    split; [reflexivity|]. split; [|auto].
    rewrite <- (take_drop index (entries ht)) at 1.
    rewrite Hdrop, app_nil_r. reflexivity.
  - destruct fuel as [|fuel]; [cbn in Hfuel; lia|].
    cbn [length] in Hfuel.
    assert (entries ht !! index = Some e) as Hs.
    { pose proof (lookup_drop (entries ht) index 0) as H.
      rewrite Hdrop, Nat.add_0_r in H. symmetry. exact H. }
    assert (drop (S index) (entries ht) = l) as Hdrop'.
    { replace (S index) with (index + 1)%nat by lia.
      rewrite <- drop_drop, Hdrop. reflexivity. }
    assert (take (S index) (entries ht) = take index (entries ht) ++ [e])
      as Htake by (apply take_S_r, Hs).
    cbn [keys_from sweep].
    destruct (is_occupied e) eqn:Ho; cbn [andb].
    + destruct (is_expired e (clk index)) eqn:Hexp; cbn [negb andb].
      * (* expired: the slot is freed and the walk goes on *)
        set (ht1 := set_count (set_entry ht index (entry_free e))
                      (count ht - 1)).
        destruct (IH ht1 (S index) acc (S fuel)) as (ht' & Hk & He & Hc & Hu).
        { subst ht1. apply Inv_free; [exact HI | exact Hs |].
          apply is_occupied_true, Ho. }
        { subst ht1. cbn [set_count set_entry entries].
          rewrite drop_insert_lt by lia. exact Hdrop'. }
        { lia. }
        exists ht'. cbn [keys_loop] in Hk |- *.
        rewrite (ht_iter_next_step ht index e l Hlen Hdrop), Ho, Hexp.
        fold ht1. cbn [app]. split; [exact Hk|]. split; [|auto].
        rewrite He. subst ht1. cbn [set_count set_entry entries].
        rewrite take_insert_lt by lia.
        pose proof (lookup_lt_Some _ _ _ Hs) as Hlt.
        rewrite Htake, insert_app_r_alt by (rewrite length_take; lia).
        replace (index - length (take index (entries ht)))%nat with O
          by (rewrite length_take; lia).
        cbn [insert list_insert]. rewrite <- app_assoc. reflexivity.
      * (* live: the key is yielded *)
        cbn [keys_loop].
        rewrite (ht_iter_next_step ht index e l Hlen Hdrop), Ho, Hexp.
        destruct (glob_match_total pattern (key e)) as [m Hm]. rewrite Hm.
        destruct (IH ht (S index) (if m then acc ++ [key e] else acc) fuel
                    HI Hdrop' ltac:(lia)) as (ht' & Hk & He & Hc & Hu).
        exists ht'. rewrite Hk. split; [|split; [|auto]].
        -- destruct m; cbn [app]; rewrite <- ?app_assoc; reflexivity.
        -- rewrite He, Htake, <- app_assoc. reflexivity.
    + destruct (IH ht (S index) acc (S fuel) HI Hdrop' ltac:(lia))
        as (ht' & Hk & He & Hc & Hu).
      exists ht'. cbn [keys_loop] in Hk |- *.
      rewrite (ht_iter_next_step ht index e l Hlen Hdrop), Ho.
      cbn [app]. split; [exact Hk|]. split; [|auto].
      rewrite He, Htake, <- app_assoc. reflexivity.
Qed.

Lemma keys_from_elem k : forall es i,
  k ∈ keys_from clk pattern i es <->
  exists j e, es !! j = Some e /\ state e = ENTRY_OCCUPIED /\ key e = k /\
              is_expired e (clk (i + j)%nat) = false /\
              glob_match pattern k = Some true.
Proof.
  induction es as [|e es IH]; intros i; cbn [keys_from].
  - split; [intros H; apply elem_of_nil in H as [] |].
    intros (j & e & H & _). rewrite lookup_nil in H. discriminate.
  - rewrite elem_of_app, IH. split.
    + intros [H|(j & x & Hj & Hx)].
      * destruct (is_occupied e) eqn:Ho; [|apply elem_of_nil in H as []].
        destruct (is_expired e (clk i)) eqn:Hexp;
          [apply elem_of_nil in H as []|].
        destruct (glob_match pattern (key e)) as [[]|] eqn:Hm;
          cbn in H; try (apply elem_of_nil in H as []).
        apply list_elem_of_singleton in H as ->.
        exists O, e. rewrite Nat.add_0_r.
        apply is_occupied_true in Ho. auto.
      * exists (S j), x. rewrite Nat.add_succ_r. exact (conj Hj Hx).
    + intros ([|j] & x & Hj & Ho & Hk & Hexp & Hm).
      * left. cbn in Hj. injection Hj as ->. rewrite Nat.add_0_r in Hexp.
        apply is_occupied_true in Ho. rewrite Ho, Hexp, Hk, Hm. cbn.
        rewrite <- Hk. apply list_elem_of_singleton. reflexivity.
      * right. exists j, x. rewrite Nat.add_succ_r in Hexp. auto.
Qed.

Lemma keys_from_NoDup : forall es i,
  (forall s1 s2 e1 e2, es !! s1 = Some e1 -> es !! s2 = Some e2 ->
     state e1 = ENTRY_OCCUPIED -> state e2 = ENTRY_OCCUPIED ->
     key e1 = key e2 -> s1 = s2) ->
  NoDup (keys_from clk pattern i es).
Proof.
  induction es as [|e es IH]; intros i Huniq; cbn [keys_from];
    [apply NoDup_nil_2|].
  assert (NoDup (keys_from clk pattern (S i) es)) as Htail.
  { apply IH. intros s1 s2 e1 e2 H1 H2 Ho1 Ho2 Hk.
    enough (S s1 = S s2) by lia.
    apply (Huniq (S s1) (S s2) e1 e2); assumption. }
  destruct (is_occupied e && negb (is_expired e (clk i)) && _) eqn:E;
    [|exact Htail].
  cbn [app]. apply NoDup_cons_2; [|exact Htail].
  intros Hin. apply keys_from_elem in Hin as (j & x & Hj & Hox & Hkx & _).
  apply andb_true_iff in E as [E _]. apply andb_true_iff in E as [E _].
  apply is_occupied_true in E.
  enough (S j = O) by lia.
  apply (Huniq (S j) O x e); auto.
Qed.

Lemma fold_left_bulk (ks : list rstr_t) : forall c,
  fold_left resp_write_bulk_string ks c
  = fold_left (fun c' e => resp_write_value c' e) (BulkString <$> ks) c.
Proof.
  induction ks as [|k ks IH]; intros c; [reflexivity|]. cbn. apply IH.
Qed.

Lemma cmd_keys_spec client store verb :
  Inv store ->
  exists store',
    cmd_keys clk client store [verb; BulkString pattern]
    = Some (resp_write_value client
              (Array (BulkString <$> keys_from clk pattern 0 (entries store))),
            store') /\
    entries store' = sweep clk 0 (entries store) /\
    Inv store' /\ used store' = used store.
Proof.
  intros HI. unfold cmd_keys.
  cbn [arg_str lookup list_lookup].
  destruct (keys_loop_from (entries store) store 0 []
              (S (Z.to_nat (capacity store))) HI (drop_0 _))
    as (store' & Hk & He & Hc & Hu).
  { rewrite (inv_len _ HI). lia. }
  rewrite Hk. cbn [mbind option_bind app].
  exists store'. split; [|auto].
  cbn [resp_write_value]. rewrite length_fmap, fold_left_bulk. reflexivity.
Qed.

End Iteration.

Section KeysTheorem.

Import Glob Commands.

(** X8.  KEYS on a reachable store returns; the reply is the array of the
    keys, in slot order and each once, of exactly the occupied slots that
    are not expired when the iteration examines them and whose key the
    pattern matches; the expired entries the iteration passes are freed
    and nothing else in the slot array changes. *)
Theorem keys_lists_live_matches (ops : list ht_op) (clk : clock)
    (client : client_t) (store : hashtable_t) (verb : resp_value)
    (pattern : bytes) :
  run_ops ops ht_create = Some store ->
  exists store',
    cmd_keys clk client store [verb; BulkString pattern]
    = Some (resp_write_value client
              (Array (BulkString
                        <$> keys_from clk pattern 0 (entries store))),
            store') /\
    entries store' = sweep clk 0 (entries store) /\
    NoDup (keys_from clk pattern 0 (entries store)) /\
    forall k, k ∈ keys_from clk pattern 0 (entries store) <->
      exists s e, entries store !! s = Some e /\
                  state e = ENTRY_OCCUPIED /\ key e = k /\
                  is_expired e (clk s) = false /\
                  glob_match pattern k = Some true.
Proof.
  intros Hrun. pose proof (reachable_Inv ops store Hrun) as HI.
  destruct (cmd_keys_spec clk pattern client store verb HI)
    as (store' & Hk & He & _).
  exists store'. split; [exact Hk|]. split; [exact He|]. split.
  - apply keys_from_NoDup. intros s1 s2 e1 e2.
    apply (chains_unique (capacity store) (entries store) s1 s2 e1 e2
             (inv_chains _ HI)).
  - intros k. apply keys_from_elem.
Qed.

Lemma keys_lists_live_matches_witness :
  exists store',
    cmd_keys (fun _ => 0) empty_client colliding_table
      [BulkString (bs "KEYS"); BulkString (bs "g*")]
    = Some (resp_write_value empty_client
              (Array (BulkString
                        <$> keys_from (fun _ => 0) (bs "g*") 0
                              (entries colliding_table))),
            store') /\
    entries store' = sweep (fun _ => 0) 0 (entries colliding_table) /\
    NoDup (keys_from (fun _ => 0) (bs "g*") 0 (entries colliding_table)) /\
    forall k, k ∈ keys_from (fun _ => 0) (bs "g*") 0
                    (entries colliding_table) <->
      exists s e, entries colliding_table !! s = Some e /\
                  state e = ENTRY_OCCUPIED /\ key e = k /\
                  is_expired e 0 = false /\
                  glob_match (bs "g*") k = Some true.
Proof.
  apply (keys_lists_live_matches colliding_ops (fun _ => 0) empty_client
           colliding_table (BulkString (bs "KEYS")) (bs "g*")).
  vm_compute. reflexivity.
Defined.

End KeysTheorem.

(** ** Definite answers are final *)

Section Final.







End Final.



(** ** What a handler does to the client and to the store *)

Section Handlers.

Import Glob Commands.

Lemma fold_left_client (l : list resp_value) :
  Forall (fun e => forall c, fd (resp_write_value c e) = fd c /\
                             read_buf (resp_write_value c e) = read_buf c) l ->
  forall c,
    fd (fold_left (fun c' e => resp_write_value c' e) l c) = fd c /\
    read_buf (fold_left (fun c' e => resp_write_value c' e) l c) = read_buf c.
Proof.
  induction 1 as [|e l He Hl IH]; intros c; cbn [fold_left]; [auto|].
  destruct (IH (resp_write_value c e)) as [-> ->]. apply He.
Qed.

Lemma resp_write_value_client v :
  forall c, fd (resp_write_value c v) = fd c /\
            read_buf (resp_write_value c v) = read_buf c.
Proof.
  induction v as [s|s|i|s| |l IH] using resp_value_ind_nested; intros c;
    cbn [resp_write_value]; try (split; reflexivity).
  destruct (fold_left_client l IH
              (resp_write_array_header c (Z.of_nat (length l)))) as [-> ->].
  split; reflexivity.
Qed.

(** Every writer appends the serialization to the write buffer and
    touches nothing else. *)
Lemma resp_write_value_append c v :
  resp_write_value c v = client_write_append c (serialize v).
Proof.
  pose proof (resp_write_value_app v c) as Hw.
  destruct (resp_write_value_client v c) as [Hf Hr].
  destruct (resp_write_value c v) as [f r w]. cbn in *.
  unfold client_write_append. congruence.
Qed.

Lemma reply_to_value c v store :
  Some (resp_write_value c v, store)
  = reply_to c (Some (resp_write_value empty_client v, store)).
Proof.
  unfold reply_to. cbn [fmap option_fmap option_map fst snd].
  rewrite (resp_write_value_append c v). reflexivity.
Qed.

Ltac reply_value c :=
  first [ exact (reply_to_value c (SimpleString _) _)
        | exact (reply_to_value c (Error _) _)
        | exact (reply_to_value c (Integer _) _)
        | exact (reply_to_value c (BulkString _) _)
        | exact (reply_to_value c NullBulk _) ].

Ltac split_handler c :=
  repeat first
    [ progress cbn [mbind option_bind]
    | match goal with
      | |- context [?x ≫= _] => destruct x as [[? ?]|]
      end
    | match goal with
      | |- context [match ?x with _ => _ end] => destruct x
      end ];
  first [ reflexivity | reply_value c ].

Lemma cmd_keys_reply clk c store args :
  cmd_keys clk c store args = reply_to c (cmd_keys clk empty_client store args).
Proof.
  unfold cmd_keys.
  destruct (keys_loop _ _ _ _ _ _) as [[store' matches]|]; [|reflexivity].
  cbn [mbind option_bind]. rewrite !fold_left_bulk.
  rewrite <- (length_fmap BulkString matches).
  exact (reply_to_value c (Array (BulkString <$> matches)) store').
Qed.

(** A handler appends its reply to the write buffer of the client and
    touches nothing else of the client; the reply and the new store do not
    depend on the client. *)
Lemma handler_reply clk c store args entry :
  entry ∈ command_table ->
  handler entry clk c store args
  = reply_to c (handler entry clk empty_client store args).
Proof.
  unfold command_table. rewrite !elem_of_cons, elem_of_nil.
  intros H. repeat destruct H as [->|H]; try destruct H; cbn [handler].
  all: first
    [ apply cmd_keys_reply
    | unfold cmd_ping, cmd_echo, cmd_set, cmd_get, cmd_del, cmd_exists,
        cmd_expire, cmd_ttl, cmd_type, cmd_incr, cmd_decr, incr_decr;
      split_handler c ].
Qed.

Lemma dispatch_loop_reply name_buf clk c store args : forall table,
  (forall entry, entry ∈ table -> entry ∈ command_table) ->
  dispatch_loop table name_buf clk c store args
  = reply_to c (dispatch_loop table name_buf clk empty_client store args).
Proof.
  induction table as [|entry table IH]; intros Hsub; cbn [dispatch_loop].
  - exact (reply_to_value c (Error _) store).
  - destruct (strcmp_eq name_buf (name entry)).
    + destruct (_ <? _); [exact (reply_to_value c (Error _) store)|].
      destruct (_ && _); [exact (reply_to_value c (Error _) store)|].
      apply handler_reply, Hsub. left.
    + apply IH. intros e He. apply Hsub. right. exact He.
Qed.

Lemma dispatch_command_reply clk c store cmd :
  dispatch_command clk c store cmd
  = reply_to c (dispatch_command clk empty_client store cmd).
Proof.
  unfold dispatch_command.
  destruct cmd as [| | | | |args];
    try exact (reply_to_value c (Error _) store).
  destruct (_ || _); [exact (reply_to_value c (Error _) store)|].
  apply dispatch_loop_reply. auto.
Qed.

End Handlers.

(** ** Every command is answered *)

Section Answered.

Import Glob Commands.

Lemma del_loop_Inv clk : forall keys store i n,
  Inv store -> Inv (fst (del_loop clk store keys i n)).
Proof.
  induction keys as [|k keys IH]; intros store i n HI; cbn [del_loop];
    [exact HI|].
  pose proof (ht_delete_Inv (clk i) store (arg_str (k :: keys) 0) HI) as HI'.
  destruct (ht_delete _ _ _) as [store' deleted]. apply IH, HI'.
Qed.

Lemma exists_loop_Inv clk : forall keys store i n,
  Inv store -> Inv (fst (exists_loop clk store keys i n)).
Proof.
  induction keys as [|k keys IH]; intros store i n HI; cbn [exists_loop];
    [exact HI|].
  pose proof (ht_exists_Inv (clk i) store (arg_str (k :: keys) 0) HI) as HI'.
  destruct (ht_exists _ _ _) as [store' present]. apply IH, HI'.
Qed.

Ltac inv_step :=
  match goal with
  | HI : Inv ?st |- context [ht_set ?n ?st ?k ?v] =>
      let E := fresh "E" in
      destruct (ht_set_spec n st k v HI) as (? & ? & ? & E & ? & _);
      rewrite E; clear E; cbn [mbind option_bind]
  | HI : Inv ?st |- context [ht_get ?n ?st ?k] =>
      let H := fresh "HI" in
      pose proof (ht_get_Inv n st k HI) as H;
      destruct (ht_get n st k) as [? ?]; cbn [fst] in H
  | HI : Inv ?st |- context [ht_exists ?n ?st ?k] =>
      let H := fresh "HI" in
      pose proof (ht_exists_Inv n st k HI) as H;
      destruct (ht_exists n st k) as [? ?]; cbn [fst] in H
  | HI : Inv ?st |- context [ht_get_expire ?n ?st ?k] =>
      let H := fresh "HI" in
      pose proof (ht_get_expire_Inv n st k HI) as H;
      destruct (ht_get_expire n st k) as [? ?]; cbn [fst] in H
  | HI : Inv ?st |- context [ht_delete ?n ?st ?k] =>
      let H := fresh "HI" in
      pose proof (ht_delete_Inv n st k HI) as H;
      destruct (ht_delete n st k) as [? ?]; cbn [fst] in H
  | HI : Inv ?st |- context [del_loop ?clk ?st ?keys ?i ?n] =>
      let H := fresh "HI" in
      pose proof (del_loop_Inv clk keys st i n HI) as H;
      destruct (del_loop clk st keys i n) as [? ?]; cbn [fst] in H
  | HI : Inv ?st |- context [exists_loop ?clk ?st ?keys ?i ?n] =>
      let H := fresh "HI" in
      pose proof (exists_loop_Inv clk keys st i n HI) as H;
      destruct (exists_loop clk st keys i n) as [? ?]; cbn [fst] in H
  end.

Ltac answer :=
  repeat first
    [ progress cbv beta iota
    | inv_step
    | match goal with
      | |- context [match ?x with _ => _ end] =>
          lazymatch x with
          | context [match ?y with _ => _ end] => destruct y
          | _ => destruct x
          end
      end ];
  do 2 eexists; (split; [reflexivity|]);
  first [ assumption | apply ht_set_expire_Inv; assumption ].

(** On a store that satisfies the invariant every handler returns a
    result, and the store it leaves satisfies the invariant. *)
Lemma handler_total clk c store args entry :
  entry ∈ command_table -> Inv store ->
  exists c' store',
    handler entry clk c store args = Some (c', store') /\ Inv store'.
Proof.
  unfold command_table. rewrite !elem_of_cons, elem_of_nil.
  intros H HI. repeat destruct H as [->|H]; try destruct H; cbn [handler].
  all: first
    [ unfold cmd_keys;
      destruct (keys_loop_from clk (arg_str args 1) (entries store) store 0 []
                  (S (Z.to_nat (capacity store))) HI (drop_0 _)
                  ltac:(rewrite (inv_len _ HI); lia))
        as (store' & -> & _ & HI' & _);
      cbn [mbind option_bind]; eauto
    | unfold cmd_ping, cmd_echo, cmd_set, cmd_get, cmd_del, cmd_exists,
        cmd_expire, cmd_ttl, cmd_type, cmd_incr, cmd_decr, incr_decr;
      answer ].
Qed.

Lemma dispatch_loop_total name_buf clk c store args : forall table,
  (forall entry, entry ∈ table -> entry ∈ command_table) ->
  Inv store ->
  exists c' store',
    dispatch_loop table name_buf clk c store args = Some (c', store') /\
    Inv store'.
Proof.
  induction table as [|entry table IH]; intros Hsub HI; cbn [dispatch_loop];
    [eauto|].
  destruct (strcmp_eq name_buf (name entry)).
  - destruct (_ <? _); [eauto|]. destruct (_ && _); [eauto|].
    apply handler_total; [apply Hsub; left | exact HI].
  - apply IH; [|exact HI]. intros e He. apply Hsub. right. exact He.
Qed.

Lemma dispatch_command_total clk c store cmd :
  Inv store ->
  exists c' store',
    dispatch_command clk c store cmd = Some (c', store') /\ Inv store'.
Proof.
  intros HI. unfold dispatch_command.
  destruct cmd as [| | | | |args]; eauto.
  destruct (_ || _); [eauto|].
  apply dispatch_loop_total; auto.
Qed.

End Answered.

(** ** The command loop of a connection *)

Section Connection.

Import Glob Commands Server.

Variable clks : nat -> clock.

Lemma set_read_buf_append c rb out :
  client_write_append (set_read_buf c rb) out
  = set_read_buf (client_write_append c out) rb.
Proof. reflexivity. Qed.



Lemma dispatch_command_client clk c store cmd c' store' :
  dispatch_command clk c store cmd = Some (c', store') ->
  fd c' = fd c /\ read_buf c' = read_buf c.
Proof.
  rewrite dispatch_command_reply.
  destruct (dispatch_command clk empty_client store cmd) as [[c0 store0]|];
    [|discriminate].
  intros [= <- <-]. split; reflexivity.
Qed.


Lemma dispatch_all_total cmds : forall i c store,
  Inv store ->
  exists c' store',
    dispatch_all clks i c store cmds = Some (c', store') /\ Inv store' /\
    fd c' = fd c /\ read_buf c' = read_buf c.
Proof.
  induction cmds as [|cmd cmds IH]; intros i c store HI; cbn [dispatch_all];
    [eauto 6|].
  destruct (dispatch_command_total (clks i) c store cmd HI)
    as (c1 & store1 & Hd & HI1).
  rewrite Hd. cbn [mbind option_bind].
  destruct (dispatch_command_client _ _ _ _ _ _ Hd) as [Hf Hr].
  destruct (IH (S i) c1 store1 HI1) as (c' & store' & -> & HI' & Hf' & Hr').
  exists c', store'. split; [reflexivity|]. split; [exact HI'|].
  split; congruence.
Qed.



End Connection.

Section Chunks.

Import Glob Commands Server.





End Chunks.

Section ConnectionTheorems.

Import Glob Commands Server.







End ConnectionTheorems.

(** ** [parse_int64] *)

Section ParseInt64.

Import Commands.

Lemma int64_digits_true s : forall r,
  int64_digits s true r = int_digits s r.
Proof.
  induction s as [|c s IH]; intros r; cbn [int64_digits int_digits];
    [reflexivity|].
  destruct (_ || _); [reflexivity|]. cbn [negb andb]. apply IH.
Qed.

Lemma is_digit_schar c :
  is_digit c = true ->
  ((schar c <? schar "0") || (schar "9" <? schar c)) = false /\
  schar c - schar "0" = uchar c - 48 /\ 0 <= uchar c - 48 < 10 /\
  Ascii.eqb c "-" = false.
Proof.
  unfold is_digit. intros H. apply andb_true_iff in H as [H1 H2].
  apply Z.leb_le in H1, H2.
  assert (schar c = uchar c) as Hs
    by (unfold schar; destruct (128 <=? uchar c) eqn:E;
        [apply Z.leb_le in E; lia | reflexivity]).
  rewrite Hs. change (schar "0") with 48. change (schar "9") with 57.
  split; [apply orb_false_iff; split; apply Z.ltb_ge; lia|].
  split; [reflexivity|]. split; [lia|].
  apply Ascii.eqb_neq. intros ->. vm_compute in H1. apply H1. reflexivity.
Qed.

Lemma fold_digits_ge s : forall a,
  forallb is_digit s = true -> 0 <= a ->
  a <= fold_left (fun a c => a * 10 + (uchar c - 48)) s a.
Proof.
  induction s as [|c s IH]; intros a Hs Ha; cbn [fold_left]; [lia|].
  cbn [forallb] in Hs. apply andb_true_iff in Hs as [Hc Hs].
  destruct (is_digit_schar c Hc) as (_ & _ & Hd & _).
  specialize (IH (a * 10 + (uchar c - 48)) Hs ltac:(lia)). lia.
Qed.

(** Without a sign the digit loop accepts exactly the values up to
    [INT64_MAX] and never wraps. *)
Lemma int64_digits_unsigned s : forall r,
  forallb is_digit s = true -> 0 <= r <= INT64_MAX ->
  int64_digits s false r
  = let v := fold_left (fun a c => a * 10 + (uchar c - 48)) s r in
    if v <=? INT64_MAX then Some v else None.
Proof.
  induction s as [|c s IH]; intros r Hs Hr; cbn [int64_digits fold_left].
  - cbv zeta. replace (r <=? INT64_MAX) with true
      by (symmetry; apply Z.leb_le; lia). reflexivity.
  - cbn [forallb] in Hs. apply andb_true_iff in Hs as [Hc Hs].
    destruct (is_digit_schar c Hc) as (-> & -> & Hd & _).
    cbn [negb andb].
    destruct ((INT64_MAX - (uchar c - 48)) `quot` 10 <? r) eqn:E.
    + apply Z.ltb_lt in E. cbv zeta.
      pose proof (fold_digits_ge s (r * 10 + (uchar c - 48)) Hs ltac:(lia))
        as Hge.
      rewrite Z.quot_div_nonneg in E by (unfold INT64_MAX; lia).
      assert (INT64_MAX < r * 10 + (uchar c - 48)) as Hover.
      { pose proof (Z.div_mod (INT64_MAX - (uchar c - 48)) 10 ltac:(lia)).
        pose proof (Z.mod_pos_bound (INT64_MAX - (uchar c - 48)) 10
                      ltac:(lia)). lia. }
      replace (_ <=? INT64_MAX) with false
        by (symmetry; apply Z.leb_gt; lia). reflexivity.
    + apply Z.ltb_ge in E.
      rewrite Z.quot_div_nonneg in E by (unfold INT64_MAX; lia).
      assert (r * 10 + (uchar c - 48) <= INT64_MAX) as Hfit.
      { pose proof (Z.div_mod (INT64_MAX - (uchar c - 48)) 10 ltac:(lia)).
        pose proof (Z.mod_pos_bound (INT64_MAX - (uchar c - 48)) 10
                      ltac:(lia)). lia. }
      rewrite wrap64_id by (unfold INT64_MIN, INT64_MAX in *; lia).
      apply IH; [exact Hs | lia].
Qed.

(** With a sign the digit loop accumulates modulo [2^64]. *)
Lemma int_digits_wrap s : forall r,
  forallb is_digit s = true ->
  int_digits s (wrap64 r)
  = Some (wrap64 (fold_left (fun a c => a * 10 + (uchar c - 48)) s r)).
Proof.
  induction s as [|c s IH]; intros r Hs; cbn [int_digits fold_left];
    [reflexivity|].
  cbn [forallb] in Hs. apply andb_true_iff in Hs as [Hc Hs].
  destruct (is_digit_schar c Hc) as (-> & -> & Hd & _).
  rewrite wrap64_step. apply IH, Hs.
Qed.

Lemma parse_int64_digits s :
  forallb is_digit s = true -> s <> [] ->
  parse_int64 s
  = (if dec_value s <=? INT64_MAX then Some (dec_value s) else None) /\
  parse_int64 ("-"%char :: s) = Some (wrap64 (- dec_value s)).
Proof.
  intros Hs Hne. destruct s as [|c s]; [congruence|]. split.
  - unfold parse_int64.
    pose proof Hs as Hs'. cbn [forallb] in Hs'.
    apply andb_true_iff in Hs' as [Hc _].
    destruct (is_digit_schar c Hc) as (_ & _ & _ & ->).
    rewrite int64_digits_unsigned by (unfold INT64_MAX; first [exact Hs | lia]).
    reflexivity.
  - unfold parse_int64. change (Ascii.eqb "-" "-") with true. cbv iota.
    rewrite int64_digits_true.
    change 0 with (wrap64 0) at 1. rewrite int_digits_wrap by exact Hs.
    cbn [mbind option_bind]. f_equal.
    match goal with
    | |- wrap64 (- wrap64 ?x) = _ =>
        replace (- wrap64 x) with (wrap64 x * -1) by lia
    end.
    rewrite wrap64_neg. reflexivity.
Qed.

Lemma int64_digits_dec_digits f n l :
  0 <= n < 2 ^ Z.of_nat f -> n <= INT64_MAX ->
  int64_digits (dec_digits f n l) false 0 = int64_digits l false n.
Proof.
  revert n l. induction f as [|f IH]; intros n l Hn Hmax.
  - simpl in *. assert (n = 0) as -> by lia. reflexivity.
  - cbn [dec_digits].
    pose proof (Z.mod_pos_bound n 10 ltac:(lia)) as Hd.
    pose proof (Z.div_mod n 10 ltac:(lia)) as Hdm.
    destruct (digit_char_value (n mod 10) Hd) as [Hrng Hval].
    assert (forall r, 0 <= r -> r * 10 + n mod 10 = n ->
              int64_digits (digit_char (n mod 10) :: l) false r
              = int64_digits l false n) as Hstep.
    { intros r Hr Hrn. cbn [int64_digits]. rewrite Hrng, Hval.
      cbn [negb andb].
      replace ((INT64_MAX - n mod 10) `quot` 10 <? r) with false.
      - rewrite Hrn, wrap64_id by (unfold INT64_MIN, INT64_MAX in *; lia).
        reflexivity.
      - symmetry. apply Z.ltb_ge.
        rewrite Z.quot_div_nonneg by (unfold INT64_MAX; lia).
        apply Z.div_le_lower_bound; lia. }
    destruct (n / 10 =? 0) eqn:E.
    + apply Z.eqb_eq in E. apply Hstep; lia.
    + apply Z.eqb_neq in E.
      assert (0 <= n / 10 < 2 ^ Z.of_nat f) as Hq.
      { split; [apply Z.div_pos; lia|].
        rewrite Nat2Z.inj_succ, Z.pow_succ_r in Hn by lia.
        apply Z.div_lt_upper_bound; lia. }
      rewrite (IH _ _ Hq) by lia. apply Hstep; lia.
Qed.

(** [parse_int64] reads back what [snprintf] prints for an [int64_t]. *)
Lemma parse_int64_dec_of_Z i :
  in_int64 i = true -> parse_int64 (dec_of_Z i) = Some i.
Proof.
  unfold in_int64. intros H. apply andb_true_iff in H as [Hlo Hhi].
  apply Z.leb_le in Hlo, Hhi. unfold dec_of_Z.
  destruct (i <? 0) eqn:Hneg.
  - apply Z.ltb_lt in Hneg.
    destruct (dec_of_nonneg_head (- i) ltac:(lia)) as (d & rest & Hd & E).
    pose proof (int_digits_dec_of_nonneg (- i) ltac:(lia)) as Hread.
    unfold parse_int64. change (Ascii.eqb "-" "-") with true. cbv iota.
    rewrite E in *. rewrite int64_digits_true, Hread.
    cbn [mbind option_bind]. f_equal.
    replace (- wrap64 (- i)) with (wrap64 (- i) * -1) by lia.
    rewrite wrap64_neg, Z.opp_involutive.
    apply wrap64_id. lia.
  - apply Z.ltb_ge in Hneg.
    destruct (dec_of_nonneg_head i Hneg) as (d & rest & Hd & E).
    unfold parse_int64. rewrite E.
    replace (Ascii.eqb (digit_char d) "-") with false
      by (symmetry; apply Ascii.eqb_neq, digit_char_plain, Hd).
    rewrite <- E. unfold dec_of_nonneg.
    rewrite int64_digits_dec_digits by (first [apply log2_fuel | idtac]; lia).
    reflexivity.
Qed.

End ParseInt64.

Section ParseInt64Theorems.

Import Commands.

(** X13.  On a non-empty string of decimal digits [parse_int64] returns
    the number it denotes exactly when that number is at most
    [INT64_MAX] and fails otherwise (the overflow test is exact and no
    accepted value has wrapped); after a minus sign it returns the
    negated number reduced to 64 bits, which is the negated number itself
    for every value down to [INT64_MIN]. *)
Theorem parse_int64_decimal (s : bytes) :
  forallb is_digit s = true -> (0 < length s)%nat ->
  parse_int64 s
  = (if dec_value s <=? INT64_MAX then Some (dec_value s) else None) /\
  parse_int64 ("-"%char :: s) = Some (wrap64 (- dec_value s)) /\
  (dec_value s <= 2 ^ 63 -> parse_int64 ("-"%char :: s) = Some (- dec_value s)).
Proof.
  intros Hs Hlen.
  destruct (parse_int64_digits s Hs) as [Hpos Hneg].
  { destruct s; [cbn in Hlen; lia | discriminate]. }
  split; [exact Hpos|]. split; [exact Hneg|].
  intros Hle. rewrite Hneg. f_equal. apply wrap64_id.
  pose proof (fold_digits_ge s 0 Hs ltac:(lia)) as Hge.
  unfold dec_value, INT64_MIN, INT64_MAX in *. lia.
Qed.

Lemma parse_int64_decimal_witness :
  parse_int64 (bs "9223372036854775808")
  = (if dec_value (bs "9223372036854775808") <=? INT64_MAX
     then Some (dec_value (bs "9223372036854775808")) else None) /\
  parse_int64 ("-"%char :: bs "9223372036854775808")
  = Some (wrap64 (- dec_value (bs "9223372036854775808"))) /\
  (dec_value (bs "9223372036854775808") <= 2 ^ 63 ->
   parse_int64 ("-"%char :: bs "9223372036854775808")
   = Some (- dec_value (bs "9223372036854775808"))).
Proof.
  apply (parse_int64_decimal (bs "9223372036854775808"));
    [reflexivity | cbn; lia].
Defined.

(** X14.  [parse_int64] reads back every [int64_t] from the decimal text
    that INCR and DECR store for it ([snprintf] with [PRId64]). *)
Theorem parse_int64_reads_printed (i : Z) :
  in_int64 i = true -> parse_int64 (dec_of_Z i) = Some i.
Proof. apply parse_int64_dec_of_Z. Qed.

Lemma parse_int64_reads_printed_witness :
  parse_int64 (dec_of_Z (-9223372036854775808))
  = Some (-9223372036854775808).
Proof.
  apply (parse_int64_reads_printed (-9223372036854775808)). reflexivity.
Defined.

End ParseInt64Theorems.

(** ** Dispatching *)

Section Verbs.

Import Glob Commands.

(** No handler looks at the element that holds the verb. *)
Lemma handler_verb clk c store a b rest entry :
  entry ∈ command_table ->
  handler entry clk c store (a :: rest) = handler entry clk c store (b :: rest).
Proof.
  unfold command_table. rewrite !elem_of_cons, elem_of_nil.
  intros H. repeat destruct H as [->|H]; try destruct H; cbn [handler];
    reflexivity.
Qed.

Lemma take_min_length (v : bytes) n : take (Nat.min (length v) n) v = take n v.
Proof.
  destruct (Nat.le_gt_cases (length v) n) as [H|H].
  - rewrite Nat.min_l, !take_ge by lia. reflexivity.
  - rewrite Nat.min_r by lia. reflexivity.
Qed.

Lemma dispatch_loop_verb clk c store nb1 nb2 a b rest : forall table,
  (forall entry, entry ∈ table -> entry ∈ command_table) ->
  c_str nb1 = c_str nb2 ->
  dispatch_loop table nb1 clk c store (a :: rest)
  = dispatch_loop table nb2 clk c store (b :: rest).
Proof.
  induction table as [|entry table IH]; intros Hsub Hnb; cbn [dispatch_loop].
  - rewrite Hnb. reflexivity.
  - unfold strcmp_eq. rewrite Hnb. cbn [length].
    destruct (bool_decide _); [|apply IH; [|exact Hnb]].
    + destruct (_ <? _); [reflexivity|]. destruct (_ && _); [reflexivity|].
      apply handler_verb, Hsub. left.
    + intros e He. apply Hsub. right. exact He.
Qed.

Lemma dispatch_command_verb clk c store v1 v2 rest :
  c_str (map toupper (take 63 v1)) = c_str (map toupper (take 63 v2)) ->
  dispatch_command clk c store (Array (BulkString v1 :: rest))
  = dispatch_command clk c store (Array (BulkString v2 :: rest)).
Proof.
  intros H. unfold dispatch_command.
  cbn [length Nat.eqb forallb is_bulk orb andb arg_str lookup list_lookup].
  destruct (negb (forallb is_bulk rest)); [reflexivity|].
  rewrite !take_min_length. apply dispatch_loop_verb; auto.
Qed.

Lemma toupper_idem c : toupper (toupper c) = toupper c.
Proof.
  destruct c as [[] [] [] [] [] [] [] []]; reflexivity.
Qed.

Lemma command_names_distinct :
  NoDup (map (fun e => c_str (name e)) command_table).
Proof. apply (bool_decide_unpack _). vm_compute. exact I. Qed.

Lemma dispatch_loop_known name_buf clk c store args : forall table i entry,
  NoDup (map (fun e => c_str (name e)) table) ->
  table !! i = Some entry ->
  strcmp_eq name_buf (name entry) = true ->
  dispatch_loop table name_buf clk c store args
  = if (Z.of_nat (length args) <? min_args entry)
       || (negb (max_args entry =? -1)
           && (max_args entry <? Z.of_nat (length args)))
    then Some (resp_write_error c (wrong_arity entry), store)
    else handler entry clk c store args.
Proof.
  induction table as [|e table IH]; intros i entry Hnd Hi Hname;
    [rewrite lookup_nil in Hi; discriminate|].
  cbn [map] in Hnd. apply NoDup_cons in Hnd as [Hnotin Hnd].
  cbn [dispatch_loop]. destruct i as [|i].
  - cbn in Hi. injection Hi as ->. rewrite Hname.
    destruct (_ <? _); [reflexivity|]. cbn [orb].
    destruct (_ && _); reflexivity.
  - cbn in Hi. replace (strcmp_eq name_buf (name e)) with false.
    + apply (IH i); assumption.
    + symmetry. apply bool_decide_eq_false. intros Heq.
      apply bool_decide_eq_true in Hname. apply Hnotin.
      rewrite <- Heq, Hname.
      apply (list_elem_of_fmap_2 (fun e => c_str (name e))).
      eapply list_elem_of_lookup_2, Hi.
Qed.

Lemma dispatch_loop_unknown name_buf clk c store args : forall table,
  forallb (fun e => negb (strcmp_eq name_buf (name e))) table = true ->
  dispatch_loop table name_buf clk c store args
  = Some (resp_write_error c
            (bs "ERR unknown command '" ++ c_str name_buf ++ bs "'"), store).
Proof.
  induction table as [|e table IH]; intros H; cbn [dispatch_loop];
    [reflexivity|].
  cbn [forallb] in H. apply andb_true_iff in H as [He H].
  apply negb_true_iff in He. rewrite He. apply IH, H.
Qed.

End Verbs.

Section DispatchTheorems.

Import Glob Commands.

(** X15.  The command is chosen by the C string that the verb's first 63
    bytes give after [toupper]: two requests whose verbs agree on that
    string and whose other elements are the same get the same reply and
    leave the same store.  In particular the verb is matched without regard
    to case, and bytes after a zero byte or beyond the 63rd are ignored. *)
Theorem dispatch_by_verb_text (clk : clock) (c : client_t)
    (store : hashtable_t) (v1 v2 : bytes) (rest : list resp_value) :
  c_str (map toupper (take 63 v1)) = c_str (map toupper (take 63 v2)) ->
  dispatch_command clk c store (Array (BulkString v1 :: rest))
  = dispatch_command clk c store (Array (BulkString v2 :: rest)) /\
  dispatch_command clk c store (Array (BulkString v1 :: rest))
  = dispatch_command clk c store
      (Array (BulkString (map toupper v1) :: rest)).
Proof.
  intros H. split; [apply dispatch_command_verb, H|].
  apply dispatch_command_verb. f_equal.
  rewrite firstn_map, map_map.
  apply map_ext. intros a. symmetry. apply toupper_idem.
Qed.

Lemma dispatch_by_verb_text_witness :
  dispatch_command (fun _ => 0) empty_client ht_create
    (Array [BulkString (bs "get"); BulkString (bs "k")])
  = dispatch_command (fun _ => 0) empty_client ht_create
      (Array [BulkString ("G" :: "e" :: "T" :: NUL :: bs "junk")%char;
              BulkString (bs "k")]) /\
  dispatch_command (fun _ => 0) empty_client ht_create
    (Array [BulkString (bs "get"); BulkString (bs "k")])
  = dispatch_command (fun _ => 0) empty_client ht_create
      (Array [BulkString (map toupper (bs "get")); BulkString (bs "k")]).
Proof.
  apply (dispatch_by_verb_text (fun _ => 0) empty_client ht_create
           (bs "get") ("G" :: "e" :: "T" :: NUL :: bs "junk")%char
           [BulkString (bs "k")]).
  reflexivity.
Defined.

(** X16.  A request whose verb names row [i] of the command table is
    answered with the arity error of that row, and the store is not
    touched, when the number of elements is below [min_args] or above a
    [max_args] other than -1; otherwise the request is handed to the row's
    handler and to nothing else. *)
Theorem dispatch_known_command (clk : clock) (c : client_t)
    (store : hashtable_t) (verb : bytes) (rest : list resp_value) (i : nat)
    (entry : cmd_entry_t) :
  command_table !! i = Some entry ->
  strcmp_eq (map toupper (take 63 verb)) (name entry) = true ->
  forallb is_bulk rest = true ->
  dispatch_command clk c store (Array (BulkString verb :: rest))
  = if (Z.of_nat (S (length rest)) <? min_args entry)
       || (negb (max_args entry =? -1)
           && (max_args entry <? Z.of_nat (S (length rest))))
    then Some (resp_write_error c
                 (bs "ERR wrong number of arguments for '" ++ name entry
                  ++ bs "' command"), store)
    else handler entry clk c store (BulkString verb :: rest).
Proof.
  intros Hi Hname Hbulk. unfold dispatch_command.
  cbn [length Nat.eqb forallb is_bulk orb andb arg_str lookup list_lookup].
  rewrite Hbulk. cbn [negb]. rewrite take_min_length.
  rewrite (dispatch_loop_known _ clk c store _ command_table i entry
             command_names_distinct Hi Hname).
  reflexivity.
Qed.

Lemma dispatch_known_command_witness :
  dispatch_command (fun _ => 0) empty_client ht_create
    (Array [BulkString (bs "get")])
  = if (Z.of_nat 1 <? 2) || (negb (2 =? -1) && (2 <? Z.of_nat 1))
    then Some (resp_write_error empty_client
                 (bs "ERR wrong number of arguments for '" ++ bs "GET"
                  ++ bs "' command"), ht_create)
    else cmd_get (fun _ => 0) empty_client ht_create [BulkString (bs "get")].
Proof.
  apply (dispatch_known_command (fun _ => 0) empty_client ht_create
           (bs "get") [] 3 (mk_cmd (bs "GET") cmd_get 2 2));
    reflexivity.
Defined.

(** X17.  A request whose verb matches no row of the command table is
    answered with the error that quotes the upper-cased verb (at most 63
    bytes, up to its first zero byte), and the store is not touched. *)
Theorem dispatch_unknown_command (clk : clock) (c : client_t)
    (store : hashtable_t) (verb : bytes) (rest : list resp_value) :
  forallb (fun e => negb (strcmp_eq (map toupper (take 63 verb)) (name e)))
    command_table = true ->
  forallb is_bulk rest = true ->
  dispatch_command clk c store (Array (BulkString verb :: rest))
  = Some (resp_write_error c
            (bs "ERR unknown command '"
             ++ c_str (map toupper (take 63 verb)) ++ bs "'"), store).
Proof.
  intros Hnone Hbulk. unfold dispatch_command.
  cbn [length Nat.eqb forallb is_bulk orb andb arg_str lookup list_lookup].
  rewrite Hbulk. cbn [negb]. rewrite take_min_length.
  apply dispatch_loop_unknown, Hnone.
Qed.

Lemma dispatch_unknown_command_witness :
  dispatch_command (fun _ => 0) empty_client ht_create
    (Array [BulkString (bs "flushall")])
  = Some (resp_write_error empty_client
            (bs "ERR unknown command '"
             ++ c_str (map toupper (take 63 (bs "flushall"))) ++ bs "'"),
          ht_create).
Proof.
  apply (dispatch_unknown_command (fun _ => 0) empty_client ht_create
           (bs "flushall") []);
    reflexivity.
Defined.

End DispatchTheorems.

(** ** The commands on the map *)

Section CommandLemmas.

Import Glob Commands.

Lemma ht_get_live now ht k e :
  Inv ht -> live_entry ht k now = Some e ->
  exists slot,
    ht_get now ht k = (ht, Some slot) /\ entries ht !!! slot = e /\
    ht_get_expire now ht k = (ht, expire_at e) /\
    ht_exists now ht k = (ht, true) /\
    state e = ENTRY_OCCUPIED /\ key e = k.
Proof.
  intros HI Hl.
  destruct (live_entry_slot _ _ _ _ Hl) as (Hlk & Hexp & Ho & Hk).
  destruct (lookup_entry_slot _ _ _ Hlk) as (s & Hs & _).
  exists s. unfold ht_get, ht_get_expire, ht_exists.
  rewrite (probe_live now ht k s e HI Hs Ho Hk Hexp).
  rewrite (lookup_total_Some _ _ _ Hs). auto 6.
Qed.

Lemma ht_get_dead now ht k :
  Inv ht -> live_entry ht k now = None ->
  snd (ht_get now ht k) = None /\ snd (ht_exists now ht k) = false /\
  ht_exists now ht k = (fst (ht_get now ht k), false) /\
  lookup_entry (fst (ht_get now ht k)) k = None /\
  Inv (fst (ht_get now ht k)) /\
  forall k', k' <> k ->
    lookup_entry (fst (ht_get now ht k)) k' = lookup_entry ht k'.
Proof.
  intros HI Hl.
  destruct (ht_get_map now ht k HI) as (Hp & HI' & Hmap & _).
  pose proof (ht_get_present now ht k HI) as Hpr. rewrite Hl in Hpr.
  assert (snd (ht_get now ht k) = None) as Hnone
    by (destruct (snd (ht_get now ht k)); [discriminate | reflexivity]).
  split; [exact Hnone|]. rewrite ht_exists_get, Hnone. cbn [snd present].
  split; [reflexivity|]. split; [reflexivity|]. split.
  - rewrite Hmap, rstr_eq_refl. exact Hl.
  - split; [exact HI'|]. intros k' Hne. rewrite Hmap.
    apply rstr_eq_false in Hne. rewrite Hne. reflexivity.
Qed.

Lemma live_entry_no_expiry ht k v now :
  lookup_entry ht k = Some (mk_entry ENTRY_OCCUPIED k v (-1)) ->
  live_entry ht k now = Some (mk_entry ENTRY_OCCUPIED k v (-1)).
Proof. intros H. unfold live_entry. rewrite H. reflexivity. Qed.

Lemma cmd_get_map clk c store a k :
  Inv store ->
  cmd_get clk c store [a; BulkString k]
  = Some (resp_write_value c
            (match live_entry store k (clk 0%nat) with
             | Some e => BulkString (value e)
             | None => NullBulk
             end),
          fst (ht_get (clk 0%nat) store k)).
Proof.
  intros HI. unfold cmd_get. cbn [arg_str lookup list_lookup].
  destruct (live_entry store k (clk 0%nat)) as [e|] eqn:Hl.
  - destruct (ht_get_live _ _ _ _ HI Hl) as (slot & -> & <- & _).
    reflexivity.
  - destruct (ht_get_dead _ _ _ HI Hl) as (Hnone & _).
    destruct (ht_get (clk 0%nat) store k) as [st val]. cbn [snd] in Hnone.
    subst val. reflexivity.
Qed.

(** INCR and DECR when the clock shows [now] during the whole call. *)
Lemma incr_decr_map bound step now c store a k :
  Inv store -> bound <> 0 ->
  let current :=
    match live_entry store k now with
    | Some e => parse_int64 (value e)
    | None => Some 0
    end in
  match current with
  | None =>
      incr_decr bound step (fun _ => now) c store [a; BulkString k]
      = Some (resp_write_error c
                (bs "ERR value is not an integer or out of range"),
              fst (ht_get now store k))
  | Some n =>
      if n =? bound then
        incr_decr bound step (fun _ => now) c store [a; BulkString k]
        = Some (resp_write_error c
                  (bs "ERR value is not an integer or out of range"),
                fst (ht_get now store k))
      else
        exists store',
          incr_decr bound step (fun _ => now) c store [a; BulkString k]
          = Some (resp_write_integer c (wrap64 (n + step)), store') /\
          Inv store' /\
          forall k',
            lookup_entry store' k'
            = if rstr_eq k' k
              then Some (mk_entry ENTRY_OCCUPIED k
                           (dec_of_Z (wrap64 (n + step)))
                           (match live_entry store k now with
                            | Some e => expire_at e
                            | None => -1
                            end))
              else lookup_entry store k'
  end.
Proof.
  intros HI Hb. cbv zeta. unfold incr_decr.
  cbn [arg_str lookup list_lookup].
  destruct (live_entry store k now) as [e|] eqn:Hl.
  - destruct (ht_get_live _ _ _ _ HI Hl)
      as (slot & Hget & Hslot & Hexp & _ & Ho & Hk).
    rewrite Hget, Hexp, Hslot. cbn [fst].
    destruct (parse_int64 (value e)) as [n|]; [|reflexivity].
    destruct (n =? bound); [reflexivity|].
    destruct (ht_set_map now store k (dec_of_Z (wrap64 (n + step))) HI)
      as (store1 & -> & HI1 & Hmap1 & _).
    cbn [mbind option_bind].
    destruct (expire_at e =? -1) eqn:E; cbn [negb].
    + apply Z.eqb_eq in E. rewrite E.
      exists store1. split; [reflexivity|]. split; [exact HI1|]. exact Hmap1.
    + eexists. split; [reflexivity|].
      split; [apply ht_set_expire_Inv, HI1|]. intros k'.
      rewrite (ht_set_expire_map now store1 k (expire_at e) HI1).
      rewrite (live_entry_no_expiry store1 k (dec_of_Z (wrap64 (n + step))))
        by (rewrite Hmap1, rstr_eq_refl; reflexivity).
      rewrite Hmap1. destruct (rstr_eq k' k); reflexivity.
  - destruct (ht_get_dead _ _ _ HI Hl) as (Hnone & _ & _ & _ & HI0 & Hmap0).
    destruct (ht_get now store k) as [store0 val]. cbn [fst snd] in *.
    subst val.
    replace (0 =? bound) with false by (symmetry; apply Z.eqb_neq; lia).
    destruct (ht_set_map now store0 k (dec_of_Z (wrap64 (0 + step))) HI0)
      as (store1 & -> & HI1 & Hmap1 & _).
    cbn [mbind option_bind]. change (negb (-1 =? -1)) with false. cbv iota.
    exists store1. split; [reflexivity|]. split; [exact HI1|].
    intros k'. rewrite Hmap1. destruct (rstr_eq k' k) eqn:E; [reflexivity|].
    apply Hmap0, rstr_eq_false, E.
Qed.

Lemma parse_int64_range s n :
  parse_int64 s = Some n -> INT64_MIN <= n <= INT64_MAX.
Proof.
  assert (forall s r m, INT64_MIN <= r <= INT64_MAX ->
            int64_digits s false r = Some m -> INT64_MIN <= m <= INT64_MAX)
    as Hdigits.
  { clear. induction s as [|c s IH]; intros r m Hr; cbn [int64_digits].
    - intros [= <-]. exact Hr.
    - destruct (_ || _); [discriminate|]. destruct (_ && _); [discriminate|].
      apply IH, wrap64_range. }
  unfold parse_int64. destruct s as [|c s]; [discriminate|].
  destruct (Ascii.eqb c "-").
  - destruct s as [|d s]; [discriminate|].
    destruct (int64_digits (d :: s) true 0) as [r|]; [|discriminate].
    intros [= <-]. apply wrap64_range.
  - apply Hdigits. unfold INT64_MIN, INT64_MAX. lia.
Qed.

End CommandLemmas.

Section CommandTheorems.

Import Glob Commands.

(** X18.  GET on a reachable store replies with the value stored under
    the key as a bulk string, or with the null bulk string when the key is
    not stored or its entry is expired at the time [ht_get] reads the
    clock; the store afterwards is the one [ht_get] leaves. *)
Theorem get_replies_live_value (ops : list ht_op) (clk : clock)
    (c : client_t) (store : hashtable_t) (k : bytes) :
  run_ops ops ht_create = Some store ->
  dispatch_command clk c store (Array [BulkString (bs "GET"); BulkString k])
  = Some (resp_write_value c
            (match live_entry store k (clk 0%nat) with
             | Some e => BulkString (value e)
             | None => NullBulk
             end),
          fst (ht_get (clk 0%nat) store k)).
Proof.
  intros Hrun. pose proof (reachable_Inv ops store Hrun) as HI.
  exact (cmd_get_map clk c store (BulkString (bs "GET")) k HI).
Qed.

Lemma get_replies_live_value_witness :
  dispatch_command (fun _ => 11000) empty_client expiring_table
    (Array [BulkString (bs "GET"); BulkString (bs "k")])
  = Some (resp_write_value empty_client
            (match live_entry expiring_table (bs "k") 11000 with
             | Some e => BulkString (value e)
             | None => NullBulk
             end),
          fst (ht_get 11000 expiring_table (bs "k"))).
Proof.
  apply (get_replies_live_value
           [OpSet 1000 (bs "k") (bs "v"); OpExists 1000 (bs "k");
            OpSetExpire 1000 (bs "k") 11000]
           (fun _ => 11000) empty_client expiring_table (bs "k")).
  vm_compute. reflexivity.
Defined.

(** X19.  Read your writes: SET with a key and a value on a reachable
    store replies OK, reports no error whatever the key held, and a GET of
    that key at any later time, on any connection, replies with that value
    and leaves the store as it is; every other key is stored as before. *)
Theorem set_then_get (ops : list ht_op) (clk : clock) (c : client_t)
    (store : hashtable_t) (k v : bytes) :
  run_ops ops ht_create = Some store ->
  exists store',
    dispatch_command clk c store
      (Array [BulkString (bs "SET"); BulkString k; BulkString v])
    = Some (resp_write_simple_string c (bs "OK"), store') /\
    (forall clk' c',
       dispatch_command clk' c' store'
         (Array [BulkString (bs "GET"); BulkString k])
       = Some (resp_write_bulk_string c' v, store')) /\
    forall k', k' <> k -> lookup_entry store' k' = lookup_entry store k'.
Proof.
  intros Hrun. pose proof (reachable_Inv ops store Hrun) as HI.
  destruct (ht_set_map (clk 0%nat) store k v HI)
    as (store' & Hset & HI' & Hmap & _).
  exists store'. split; [|split].
  - change (dispatch_command clk c store
              (Array [BulkString (bs "SET"); BulkString k; BulkString v]))
      with (cmd_set clk c store
              [BulkString (bs "SET"); BulkString k; BulkString v]).
    unfold cmd_set. cbn [arg_str lookup list_lookup length Nat.eqb].
    rewrite Hset. reflexivity.
  - intros clk' c'.
    change (dispatch_command clk' c' store'
              (Array [BulkString (bs "GET"); BulkString k]))
      with (cmd_get clk' c' store' [BulkString (bs "GET"); BulkString k]).
    rewrite (cmd_get_map clk' c' store' _ k HI').
    assert (live_entry store' k (clk' 0%nat)
            = Some (mk_entry ENTRY_OCCUPIED k v (-1))) as Hl
      by (apply live_entry_no_expiry; rewrite Hmap, rstr_eq_refl; reflexivity).
    rewrite Hl. destruct (ht_get_live _ _ _ _ HI' Hl) as (slot & -> & _).
    reflexivity.
  - intros k' Hne. rewrite Hmap. apply rstr_eq_false in Hne. rewrite Hne.
    reflexivity.
Qed.

Lemma set_then_get_witness :
  exists store',
    dispatch_command (fun _ => 0) empty_client loaded_table
      (Array [BulkString (bs "SET"); BulkString (bs "k"); BulkString (bs "v")])
    = Some (resp_write_simple_string empty_client (bs "OK"), store') /\
    (forall clk' c',
       dispatch_command clk' c' store'
         (Array [BulkString (bs "GET"); BulkString (bs "k")])
       = Some (resp_write_bulk_string c' (bs "v"), store')) /\
    forall k', k' <> bs "k" ->
               lookup_entry store' k' = lookup_entry loaded_table k'.
Proof.
  apply (set_then_get loaded_ops (fun _ => 0) empty_client loaded_table
           (bs "k") (bs "v")).
  vm_compute. reflexivity.
Defined.

(** X20.  SET key value EX seconds with a positive number of seconds on a
    reachable store replies OK and stores the value with the deadline
    [now + seconds * 1000] milliseconds, computed in [int64_t], where [now]
    is the clock read after the value has been stored; every other key is
    stored as before. *)
Theorem set_ex_sets_deadline (ops : list ht_op) (clk : clock) (c : client_t)
    (store : hashtable_t) (k v ex secs : bytes) (n : Z) :
  run_ops ops ht_create = Some store ->
  map toupper ex = bs "EX" ->
  parse_int64 secs = Some n -> 0 < n ->
  exists store',
    dispatch_command clk c store
      (Array [BulkString (bs "SET"); BulkString k; BulkString v;
              BulkString ex; BulkString secs])
    = Some (resp_write_simple_string c (bs "OK"), store') /\
    (forall k',
       lookup_entry store' k'
       = if rstr_eq k' k
         then Some (mk_entry ENTRY_OCCUPIED k v
                      (wrap64 (clk 1%nat + wrap64 (n * 1000))))
         else lookup_entry store k') /\
    (INT64_MIN <= clk 1%nat + n * 1000 <= INT64_MAX ->
     wrap64 (clk 1%nat + wrap64 (n * 1000)) = clk 1%nat + n * 1000).
Proof.
  intros Hrun Hex Hsecs Hpos. pose proof (reachable_Inv ops store Hrun) as HI.
  destruct (ht_set_map (clk 0%nat) store k v HI)
    as (store1 & Hset & HI1 & Hmap1 & _).
  eexists. split; [|split].
  - change (dispatch_command clk c store
              (Array [BulkString (bs "SET"); BulkString k; BulkString v;
                      BulkString ex; BulkString secs]))
      with (cmd_set clk c store
              [BulkString (bs "SET"); BulkString k; BulkString v;
               BulkString ex; BulkString secs]).
    unfold cmd_set. cbn [arg_str lookup list_lookup length Nat.eqb].
    rewrite Hset. cbn [mbind option_bind].
    destruct ex as [|e0 [|e1 [|e2 ex]]]; try discriminate.
    cbn [length Nat.eqb byte_at lookup list_lookup default from_option id].
    cbn [map] in Hex. rewrite Hex.
    change (strcmp_eq (bs "EX") (bs "EX")) with true. cbv iota.
    rewrite Hsecs.
    replace (n <=? 0) with false by (symmetry; apply Z.leb_gt, Hpos).
    reflexivity.
  - intros k'.
    rewrite (ht_set_expire_map (clk 2%nat) store1 k _ HI1).
    rewrite (live_entry_no_expiry store1 k v)
      by (rewrite Hmap1, rstr_eq_refl; reflexivity).
    rewrite Hmap1. destruct (rstr_eq k' k); reflexivity.
  - intros Hfit.
    transitivity (wrap64 (clk 1%nat + n * 1000)); [|apply wrap64_id, Hfit].
    apply wrap64_congr.
    rewrite Zplus_mod, wrap64_mod, <- Zplus_mod. reflexivity.
Qed.

Lemma set_ex_sets_deadline_witness :
  exists store',
    dispatch_command (fun _ => 1000) empty_client ht_create
      (Array [BulkString (bs "SET"); BulkString (bs "k"); BulkString (bs "v");
              BulkString (bs "ex"); BulkString (bs "10")])
    = Some (resp_write_simple_string empty_client (bs "OK"), store') /\
    (forall k',
       lookup_entry store' k'
       = if rstr_eq k' (bs "k")
         then Some (mk_entry ENTRY_OCCUPIED (bs "k") (bs "v")
                      (wrap64 (1000 + wrap64 (10 * 1000))))
         else lookup_entry ht_create k') /\
    (INT64_MIN <= 1000 + 10 * 1000 <= INT64_MAX ->
     wrap64 (1000 + wrap64 (10 * 1000)) = 1000 + 10 * 1000).
Proof.
  apply (set_ex_sets_deadline [] (fun _ => 1000) empty_client ht_create
           (bs "k") (bs "v") (bs "ex") (bs "10") 10);
    first [reflexivity | lia].
Defined.

(** X21.  SET key value EX seconds whose seconds are not an integer that
    [parse_int64] accepts, or are not positive, replies with the
    invalid-expire-time error and leaves the key deleted: the value the key
    held before the command is lost as well.  Every other key is stored as
    before. *)
Theorem set_bad_expire_deletes_key (ops : list ht_op) (clk : clock)
    (c : client_t) (store : hashtable_t) (k v ex secs : bytes) :
  run_ops ops ht_create = Some store ->
  map toupper ex = bs "EX" ->
  match parse_int64 secs with Some n => n <=? 0 | None => true end = true ->
  exists store',
    dispatch_command clk c store
      (Array [BulkString (bs "SET"); BulkString k; BulkString v;
              BulkString ex; BulkString secs])
    = Some (resp_write_error c
              (bs "ERR invalid expire time in 'set' command"), store') /\
    forall k', lookup_entry store' k'
               = if rstr_eq k' k then None else lookup_entry store k'.
Proof.
  intros Hrun Hex Hbad. pose proof (reachable_Inv ops store Hrun) as HI.
  destruct (ht_set_map (clk 0%nat) store k v HI)
    as (store1 & Hset & HI1 & Hmap1 & _).
  destruct (ht_delete_map (clk 1%nat) store1 k HI1) as (_ & _ & Hmap2 & _).
  exists (fst (ht_delete (clk 1%nat) store1 k)). split.
  - change (dispatch_command clk c store
              (Array [BulkString (bs "SET"); BulkString k; BulkString v;
                      BulkString ex; BulkString secs]))
      with (cmd_set clk c store
              [BulkString (bs "SET"); BulkString k; BulkString v;
               BulkString ex; BulkString secs]).
    unfold cmd_set. cbn [arg_str lookup list_lookup length Nat.eqb].
    rewrite Hset. cbn [mbind option_bind].
    destruct ex as [|e0 [|e1 [|e2 ex]]]; try discriminate.
    cbn [length Nat.eqb byte_at lookup list_lookup default from_option id].
    cbn [map] in Hex. rewrite Hex.
    change (strcmp_eq (bs "EX") (bs "EX")) with true. cbv iota.
    destruct (parse_int64 secs) as [n|].
    + rewrite Hbad. destruct (ht_delete (clk 1%nat) store1 k). reflexivity.
    + destruct (ht_delete (clk 1%nat) store1 k). reflexivity.
  - intros k'. rewrite Hmap2, Hmap1. destruct (rstr_eq k' k); reflexivity.
Qed.

Lemma set_bad_expire_deletes_key_witness :
  exists store',
    dispatch_command (fun _ => 0) empty_client colliding_table
      (Array [BulkString (bs "SET"); BulkString (bs "a"); BulkString (bs "v");
              BulkString (bs "EX"); BulkString (bs "0")])
    = Some (resp_write_error empty_client
              (bs "ERR invalid expire time in 'set' command"), store') /\
    forall k', lookup_entry store' k'
               = if rstr_eq k' (bs "a") then None
                 else lookup_entry colliding_table k'.
Proof.
  apply (set_bad_expire_deletes_key colliding_ops (fun _ => 0) empty_client
           colliding_table (bs "a") (bs "v") (bs "EX") (bs "0"));
    vm_compute; reflexivity.
Defined.

(** X22.  INCR and DECR ([decr] tells which), the clock showing [now]
    during the call, on a key that is visible and holds text that
    [parse_int64] reads as [n], other than [INT64_MAX] for INCR and
    [INT64_MIN] for DECR: the reply is the integer [n + 1], respectively
    [n - 1], the key then holds the decimal text of that number with the
    expiry it had before, that text reads back as the number, and every
    other key is stored as before. *)
Theorem incr_decr_steps (ops : list ht_op) (decr : bool) (now : Z)
    (c : client_t) (store : hashtable_t) (k : bytes) (e : ht_entry_t)
    (n : Z) :
  run_ops ops ht_create = Some store ->
  live_entry store k now = Some e ->
  parse_int64 (value e) = Some n ->
  (n =? (if decr then INT64_MIN else INT64_MAX)) = false ->
  exists store',
    dispatch_command (fun _ => now) c store
      (Array [BulkString (if decr then bs "DECR" else bs "INCR");
              BulkString k])
    = Some (resp_write_integer c (n + (if decr then -1 else 1)), store') /\
    (forall k',
       lookup_entry store' k'
       = if rstr_eq k' k
         then Some (mk_entry ENTRY_OCCUPIED k
                      (dec_of_Z (n + (if decr then -1 else 1)))
                      (expire_at e))
         else lookup_entry store k') /\
    parse_int64 (dec_of_Z (n + (if decr then -1 else 1)))
    = Some (n + (if decr then -1 else 1)).
Proof.
  intros Hrun Hl Hn Hbound. pose proof (reachable_Inv ops store Hrun) as HI.
  pose proof (parse_int64_range _ _ Hn) as Hr. apply Z.eqb_neq in Hbound.
  assert (INT64_MIN <= n + (if decr then -1 else 1) <= INT64_MAX) as Hfit
    by (destruct decr; unfold INT64_MIN, INT64_MAX in *; lia).
  assert (exists store',
            incr_decr (if decr then INT64_MIN else INT64_MAX)
              (if decr then -1 else 1) (fun _ => now) c store
              [BulkString (if decr then bs "DECR" else bs "INCR");
               BulkString k]
            = Some (resp_write_integer c (n + (if decr then -1 else 1)),
                    store') /\
            forall k',
              lookup_entry store' k'
              = if rstr_eq k' k
                then Some (mk_entry ENTRY_OCCUPIED k
                             (dec_of_Z (n + (if decr then -1 else 1)))
                             (expire_at e))
                else lookup_entry store k') as (store' & Hd & Hmap).
  { pose proof (incr_decr_map (if decr then INT64_MIN else INT64_MAX)
                  (if decr then -1 else 1) now c store
                  (BulkString (if decr then bs "DECR" else bs "INCR")) k HI
                  ltac:(destruct decr; discriminate)) as H.
    cbv zeta in H. rewrite Hl, Hn in H.
    apply Z.eqb_neq in Hbound. rewrite Hbound in H.
    rewrite wrap64_id in H by exact Hfit.
    destruct H as (store' & Hd & _ & Hmap). exists store'. auto. }
  exists store'. split; [destruct decr; exact Hd|]. split; [exact Hmap|].
  apply parse_int64_dec_of_Z. unfold in_int64.
  apply andb_true_iff. split; apply Z.leb_le; lia.
Qed.

Lemma incr_decr_steps_witness :
  exists store',
    dispatch_command (fun _ => 0) empty_client colliding_table
      (Array [BulkString (bs "DECR"); BulkString (bs "gb")])
    = Some (resp_write_integer empty_client (3 + -1), store') /\
    (forall k',
       lookup_entry store' k'
       = if rstr_eq k' (bs "gb")
         then Some (mk_entry ENTRY_OCCUPIED (bs "gb") (dec_of_Z (3 + -1))
                      (expire_at
                         (mk_entry ENTRY_OCCUPIED (bs "gb") (bs "3") (-1))))
         else lookup_entry colliding_table k') /\
    parse_int64 (dec_of_Z (3 + -1)) = Some (3 + -1).
Proof.
  apply (incr_decr_steps colliding_ops true 0 empty_client colliding_table
           (bs "gb") (mk_entry ENTRY_OCCUPIED (bs "gb") (bs "3") (-1)) 3);
    vm_compute; reflexivity.
Defined.

(** X23.  INCR and DECR on a key that is not visible (not stored, or
    stored with an expired entry), the clock showing [now] during the
    call, count from zero: the replies are 1 and -1, the key then holds the
    text of that number with no expiry, and every other key is stored as
    before. *)
Theorem incr_decr_from_absent (ops : list ht_op) (now : Z) (c : client_t)
    (store : hashtable_t) (k : bytes) :
  run_ops ops ht_create = Some store ->
  live_entry store k now = None ->
  (exists store',
     dispatch_command (fun _ => now) c store
       (Array [BulkString (bs "INCR"); BulkString k])
     = Some (resp_write_integer c 1, store') /\
     forall k',
       lookup_entry store' k'
       = if rstr_eq k' k
         then Some (mk_entry ENTRY_OCCUPIED k (bs "1") (-1))
         else lookup_entry store k') /\
  (exists store',
     dispatch_command (fun _ => now) c store
       (Array [BulkString (bs "DECR"); BulkString k])
     = Some (resp_write_integer c (-1), store') /\
     forall k',
       lookup_entry store' k'
       = if rstr_eq k' k
         then Some (mk_entry ENTRY_OCCUPIED k (bs "-1") (-1))
         else lookup_entry store k').
Proof.
  intros Hrun Hl. pose proof (reachable_Inv ops store Hrun) as HI. split.
  - pose proof (incr_decr_map INT64_MAX 1 now c store
                  (BulkString (bs "INCR")) k HI ltac:(discriminate)) as H.
    cbv zeta in H. rewrite Hl in H.
    change (0 =? INT64_MAX) with false in H. cbv iota in H.
    destruct H as (store' & Hd & _ & Hmap). exists store'. auto.
  - pose proof (incr_decr_map INT64_MIN (-1) now c store
                  (BulkString (bs "DECR")) k HI ltac:(discriminate)) as H.
    cbv zeta in H. rewrite Hl in H.
    change (0 =? INT64_MIN) with false in H. cbv iota in H.
    destruct H as (store' & Hd & _ & Hmap). exists store'. auto.
Qed.

Lemma incr_decr_from_absent_witness :
  (exists store',
     dispatch_command (fun _ => 11000) empty_client expiring_table
       (Array [BulkString (bs "INCR"); BulkString (bs "k")])
     = Some (resp_write_integer empty_client 1, store') /\
     forall k',
       lookup_entry store' k'
       = if rstr_eq k' (bs "k")
         then Some (mk_entry ENTRY_OCCUPIED (bs "k") (bs "1") (-1))
         else lookup_entry expiring_table k') /\
  (exists store',
     dispatch_command (fun _ => 11000) empty_client expiring_table
       (Array [BulkString (bs "DECR"); BulkString (bs "k")])
     = Some (resp_write_integer empty_client (-1), store') /\
     forall k',
       lookup_entry store' k'
       = if rstr_eq k' (bs "k")
         then Some (mk_entry ENTRY_OCCUPIED (bs "k") (bs "-1") (-1))
         else lookup_entry expiring_table k').
Proof.
  apply (incr_decr_from_absent
           [OpSet 1000 (bs "k") (bs "v"); OpExists 1000 (bs "k");
            OpSetExpire 1000 (bs "k") 11000]
           11000 empty_client expiring_table (bs "k"));
    vm_compute; reflexivity.
Defined.

End CommandTheorems.

(** ** Patterns of plain bytes, with and without a final star *)

Section GlobLiteral.

Import Glob.

Lemma literal_lookup p i c :
  literal p = true -> p !! i = Some c ->
  Ascii.eqb c "*" = false /\ Ascii.eqb c "?" = false /\
  Ascii.eqb c "[" = false.
Proof.
  unfold literal. rewrite forallb_forall. intros H Hi.
  specialize (H c ltac:(apply list_elem_of_In; eapply list_elem_of_lookup_2, Hi)).
  apply negb_true_iff in H.
  apply orb_false_iff in H as [H H3]. apply orb_false_iff in H as [H1 H2].
  auto.
Qed.

Lemma byte_at_lookup (s : bytes) i c : s !! i = Some c -> byte_at s i = c.
Proof. unfold byte_at. intros ->. reflexivity. Qed.

Lemma only_stars_literal p :
  literal p = true ->
  only_stars p = match p with [] => true | _ => false end.
Proof.
  destruct p as [|c p]; [reflexivity|]. intros H.
  destruct (literal_lookup _ O c H eq_refl) as (E & _).
  cbn [only_stars]. rewrite E. reflexivity.
Qed.

(** Without a star behind it the loop compares byte by byte. *)
Lemma glob_loop_literal pattern str :
  literal pattern = true ->
  forall fuel pi si,
    (pi <= length pattern)%nat -> (si <= length str)%nat ->
    (length str - si < fuel)%nat ->
    glob_loop fuel pattern str pi si None 0
    = Some (bool_decide (drop pi pattern = drop si str)).
Proof.
  intros Hlit. induction fuel as [|fuel IH]; intros pi si Hpi Hsi Hfuel;
    [lia|].
  cbn [glob_loop].
  destruct (si <? length str)%nat eqn:Esi.
  - apply Nat.ltb_lt in Esi.
    destruct (lookup_lt_is_Some_2 str si Esi) as [sc Hsc].
    rewrite (drop_S _ _ _ Hsc), (byte_at_lookup _ _ _ Hsc).
    destruct (pi <? length pattern)%nat eqn:Epi; cbn [andb].
    + apply Nat.ltb_lt in Epi.
      destruct (lookup_lt_is_Some_2 pattern pi Epi) as [pc Hpc].
      rewrite (drop_S _ _ _ Hpc), (byte_at_lookup _ _ _ Hpc).
      destruct (literal_lookup _ _ _ Hlit Hpc) as (-> & -> & ->).
      cbn [orb]. destruct (Ascii.eqb pc sc) eqn:E.
      * apply Ascii.eqb_eq in E as ->.
        rewrite IH by lia. f_equal. apply bool_decide_ext.
        split; [intros ->; reflexivity | intros [= ->]; reflexivity].
      * apply Ascii.eqb_neq in E. f_equal. symmetry.
        apply bool_decide_eq_false. intros [= H _]. contradiction.
    + apply Nat.ltb_ge in Epi. rewrite drop_ge by lia. reflexivity.
  - apply Nat.ltb_ge in Esi. rewrite (drop_ge str) by lia.
    f_equal. rewrite only_stars_literal.
    + destruct (drop pi pattern); reflexivity.
    + unfold literal in *. rewrite forallb_forall in *.
      intros c Hc. apply Hlit.
      apply list_elem_of_In. apply list_elem_of_In in Hc.
      apply list_elem_of_lookup in Hc as [i Hi].
      rewrite lookup_drop in Hi. eapply list_elem_of_lookup_2, Hi.
Qed.

(** Behind a final star every rest of the subject matches. *)
Lemma glob_loop_after_star pattern str sp :
  S sp = length pattern ->
  forall fuel si,
    (length str - si < fuel)%nat ->
    glob_loop fuel pattern str (S sp) si (Some sp) si = Some true.
Proof.
  intros Hsp. induction fuel as [|fuel IH]; intros si Hfuel; [lia|].
  cbn [glob_loop].
  replace (S sp <? length pattern)%nat with false
    by (symmetry; apply Nat.ltb_ge; lia).
  cbn [andb]. rewrite drop_ge by lia. cbn [only_stars].
  destruct (si <? length str)%nat eqn:Esi; [|reflexivity].
  apply Nat.ltb_lt in Esi. apply IH. lia.
Qed.

Lemma glob_loop_prefix lit str :
  literal lit = true ->
  forall fuel pi si,
    (pi <= length lit)%nat -> (si <= length str)%nat ->
    (length lit - pi + (length str - si) + 1 < fuel)%nat ->
    glob_loop fuel (lit ++ ["*"%char]) str pi si None 0
    = Some (bool_decide (drop pi lit = take (length lit - pi) (drop si str))).
Proof.
  intros Hlit. induction fuel as [|fuel IH]; intros pi si Hpi Hsi Hfuel;
    [lia|].
  cbn [glob_loop]. rewrite length_app. cbn [length].
  replace (pi <? length lit + 1)%nat with true
    by (symmetry; apply Nat.ltb_lt; lia).
  cbn [andb].
  destruct (si <? length str)%nat eqn:Esi.
  - apply Nat.ltb_lt in Esi.
    destruct (lookup_lt_is_Some_2 str si Esi) as [sc Hsc].
    rewrite (drop_S _ _ _ Hsc), (byte_at_lookup _ _ _ Hsc).
    destruct (decide (pi = length lit)) as [->|Hne].
    + (* the star *)
      rewrite (byte_at_lookup (lit ++ ["*"%char]) (length lit) "*"%char)
        by (rewrite lookup_app_r, Nat.sub_diag by lia; reflexivity).
      change (Ascii.eqb "*" "*") with true. cbv iota.
      rewrite glob_loop_after_star
        by (rewrite ?length_app; cbn [length]; lia).
      rewrite drop_ge, Nat.sub_diag by lia. reflexivity.
    + assert (pi < length lit)%nat as Hlt by lia.
      destruct (lookup_lt_is_Some_2 lit pi Hlt) as [pc Hpc].
      rewrite (byte_at_lookup (lit ++ ["*"%char]) pi pc)
        by (rewrite lookup_app_l by lia; exact Hpc).
      rewrite (drop_S _ _ _ Hpc).
      destruct (literal_lookup _ _ _ Hlit Hpc) as (-> & -> & ->).
      cbn [orb]. replace (length lit - pi)%nat with (S (length lit - S pi))
        by lia.
      cbn [take]. destruct (Ascii.eqb pc sc) eqn:E.
      * apply Ascii.eqb_eq in E as ->.
        rewrite IH by lia. f_equal. apply bool_decide_ext.
        split; [intros ->; reflexivity | intros [= ->]; reflexivity].
      * apply Ascii.eqb_neq in E. f_equal. symmetry.
        apply bool_decide_eq_false. intros [= H _]. contradiction.
  - apply Nat.ltb_ge in Esi. rewrite (drop_ge str) by lia.
    rewrite take_nil.
    rewrite drop_app_le by lia.
    destruct (drop pi lit) as [|pc rest] eqn:Ed.
    + reflexivity.
    + assert (lit !! pi = Some pc) as Hpc
        by (pose proof (lookup_drop lit pi 0) as H;
            rewrite Ed, Nat.add_0_r in H; symmetry; exact H).
      destruct (literal_lookup _ _ _ Hlit Hpc) as (E & _).
      cbn [app only_stars]. rewrite E. reflexivity.
Qed.

End GlobLiteral.

Section GlobTheorems.

Import Glob.

(** X24.  A pattern without star, question mark and opening bracket
    matches exactly the subject that is equal to it, byte for byte. *)
Theorem glob_literal_exact (pattern str : bytes) :
  literal pattern = true ->
  glob_match pattern str = Some (bool_decide (pattern = str)).
Proof.
  intros Hlit. unfold glob_match.
  rewrite (glob_loop_literal pattern str Hlit) by nia.
  rewrite !drop_0. reflexivity.
Qed.

Lemma glob_literal_exact_witness :
  glob_match (bs "user:1") (bs "user:10")
  = Some (bool_decide (bs "user:1" = bs "user:10")).
Proof.
  apply (glob_literal_exact (bs "user:1") (bs "user:10")). reflexivity.
Defined.

(** X25.  A pattern made of plain bytes followed by one star matches
    exactly the subjects that begin with those bytes; the pattern that is
    a single star matches every subject. *)
Theorem glob_prefix_star (lit str : bytes) :
  literal lit = true ->
  glob_match (lit ++ bs "*") str
  = Some (bool_decide (take (length lit) str = lit)) /\
  glob_match (bs "*") str = Some true.
Proof.
  intros Hlit.
  assert (forall l s, literal l = true ->
            glob_match (l ++ bs "*") s
            = Some (bool_decide (take (length l) s = l))) as H.
  { intros l s Hl. unfold glob_match.
    rewrite (glob_loop_prefix l s Hl)
      by (rewrite ?length_app; cbn [length bs list_ascii_of_string]; nia).
    rewrite !drop_0, Nat.sub_0_r. f_equal. apply bool_decide_ext.
    split; congruence. }
  split; [apply H, Hlit|]. exact (H [] str eq_refl).
Qed.

Lemma glob_prefix_star_witness :
  glob_match (bs "user:" ++ bs "*") (bs "user:42")
  = Some (bool_decide (take (length (bs "user:")) (bs "user:42")
                       = bs "user:")) /\
  glob_match (bs "*") (bs "user:42") = Some true.
Proof.
  apply (glob_prefix_star (bs "user:") (bs "user:42")). reflexivity.
Defined.

End GlobTheorems.

(** ** Replies, EXPIRE, and two basic facts *)

Section Replies.

Import Glob Commands.




Lemma cmd_expire_map now c store a k secs :
  Inv store ->
  match parse_int64 secs with
  | None =>
      cmd_expire (fun _ => now) c store [a; BulkString k; BulkString secs]
      = Some (resp_write_error c
                (bs "ERR value is not an integer or out of range"), store)
  | Some n =>
      exists store',
        cmd_expire (fun _ => now) c store [a; BulkString k; BulkString secs]
        = Some (resp_write_integer c
                  (if present (live_entry store k now) then 1 else 0),
                store') /\
        forall k',
          lookup_entry store' k'
          = if rstr_eq k' k
            then (fun e => mk_entry ENTRY_OCCUPIED k (value e)
                             (wrap64 (now + wrap64 (n * 1000))))
                   <$> live_entry store k now
            else lookup_entry store k'
  end.
Proof.
  intros HI. unfold cmd_expire. cbn [arg_str lookup list_lookup].
  destruct (parse_int64 secs) as [n|]; [|reflexivity].
  destruct (live_entry store k now) as [e|] eqn:Hl.
  - destruct (ht_get_live _ _ _ _ HI Hl) as (slot & _ & _ & _ & -> & _).
    cbn [negb present]. eexists. split; [reflexivity|]. intros k'.
    rewrite (ht_set_expire_map now store k _ HI), Hl. reflexivity.
  - destruct (ht_get_dead _ _ _ HI Hl) as (_ & _ & -> & Hk & _ & Hmap).
    cbn [negb present]. eexists. split; [reflexivity|]. intros k'.
    destruct (rstr_eq k' k) eqn:E.
    + apply rstr_eq_spec in E as ->. exact Hk.
    + apply Hmap, rstr_eq_false, E.
Qed.

End Replies.

Section ReplyTheorems.

Import Glob Commands.



(** X27.  EXPIRE key seconds on a reachable store, the clock showing
    [now] during the call: when the seconds are not an integer that
    [parse_int64] accepts the reply is an error and the store is
    untouched; otherwise the reply is 1 and the key gets the deadline
    [now + seconds * 1000] (computed in [int64_t]) when the key is visible,
    and 0 with the key not stored afterwards when it is not; value, other
    keys and their expiries stay as they are. *)
Theorem expire_sets_deadline (ops : list ht_op) (now : Z) (c : client_t)
    (store : hashtable_t) (k secs : bytes) :
  run_ops ops ht_create = Some store ->
  match parse_int64 secs with
  | None =>
      dispatch_command (fun _ => now) c store
        (Array [BulkString (bs "EXPIRE"); BulkString k; BulkString secs])
      = Some (resp_write_error c
                (bs "ERR value is not an integer or out of range"), store)
  | Some n =>
      exists store',
        dispatch_command (fun _ => now) c store
          (Array [BulkString (bs "EXPIRE"); BulkString k; BulkString secs])
        = Some (resp_write_integer c
                  (if present (live_entry store k now) then 1 else 0),
                store') /\
        forall k',
          lookup_entry store' k'
          = if rstr_eq k' k
            then (fun e => mk_entry ENTRY_OCCUPIED k (value e)
                             (wrap64 (now + wrap64 (n * 1000))))
                   <$> live_entry store k now
            else lookup_entry store k'
  end.
Proof.
  intros Hrun. pose proof (reachable_Inv ops store Hrun) as HI.
  exact (cmd_expire_map now c store (BulkString (bs "EXPIRE")) k secs HI).
Qed.

Lemma expire_sets_deadline_witness :
  exists store',
    dispatch_command (fun _ => 1000) empty_client colliding_table
      (Array [BulkString (bs "EXPIRE"); BulkString (bs "a");
              BulkString (bs "10")])
    = Some (resp_write_integer empty_client
              (if present (live_entry colliding_table (bs "a") 1000)
               then 1 else 0),
            store') /\
    forall k',
      lookup_entry store' k'
      = if rstr_eq k' (bs "a")
        then (fun e => mk_entry ENTRY_OCCUPIED (bs "a") (value e)
                         (wrap64 (1000 + wrap64 (10 * 1000))))
               <$> live_entry colliding_table (bs "a") 1000
        else lookup_entry colliding_table k'.
Proof.
  apply (expire_sets_deadline colliding_ops 1000 empty_client colliding_table
           (bs "a") (bs "10")).
  vm_compute. reflexivity.
Defined.


(** X29.  [rstr_eq] is equality of byte strings: it returns true exactly
    when both strings have the same length and the same bytes, zero bytes
    included; in particular it is reflexive and symmetric. *)
Theorem rstr_eq_is_equality (a b : rstr_t) :
  (rstr_eq a b = true <-> a = b) /\
  rstr_eq a a = true /\
  rstr_eq a b = rstr_eq b a.
Proof.
  split; [apply rstr_eq_spec|]. split; [apply rstr_eq_spec; reflexivity|].
  destruct (rstr_eq a b) eqn:E1, (rstr_eq b a) eqn:E2; try reflexivity.
  - apply rstr_eq_spec in E1 as ->.
    rewrite (proj2 (rstr_eq_spec b b) eq_refl) in E2. discriminate.
  - apply rstr_eq_spec in E2 as ->.
    rewrite (proj2 (rstr_eq_spec a a) eq_refl) in E1. discriminate.
Qed.

End ReplyTheorems.

(** ** DEL and EXISTS *)

Section Counting.

Import Glob Commands.

Variable now : Z.

Local Abbreviation visible store := (fun k => present (live_entry store k now)).

Lemma live_entry_after_get store k k' :
  Inv store ->
  live_entry (fst (ht_get now store k)) k' now = live_entry store k' now.
Proof.
  intros HI. destruct (ht_get_map now store k HI) as (_ & _ & Hmap & _).
  unfold live_entry at 1. rewrite Hmap.
  destruct (rstr_eq k' k) eqn:E; [|reflexivity].
  apply rstr_eq_spec in E as ->.
  unfold live_entry. destruct (lookup_entry store k) as [e|]; [|reflexivity].
  destruct (is_expired e now) eqn:Hx; [reflexivity|]. rewrite Hx. reflexivity.
Qed.

Lemma exists_loop_map : forall ks store i n,
  Inv store -> 0 <= n -> n + Z.of_nat (length ks) <= INT64_MAX ->
  snd (exists_loop (fun _ => now) store (BulkString <$> ks) i n)
  = n + Z.of_nat (length (List.filter (visible store) ks)) /\
  forall k',
    lookup_entry
      (fst (exists_loop (fun _ => now) store (BulkString <$> ks) i n)) k'
    = if existsb (rstr_eq k') ks then live_entry store k' now
      else lookup_entry store k'.
Proof.
  induction ks as [|k ks IH]; intros store i n HI Hn Hmax;
    cbn [fmap list_fmap exists_loop List.filter existsb length fst snd].
  - split; [cbn; lia | reflexivity].
  - cbn [arg_str lookup list_lookup].
    rewrite ht_exists_get, (ht_get_present now store k HI).
    pose proof (ht_get_Inv now store k HI) as HI1.
    destruct (ht_get_map now store k HI) as (_ & _ & Hmap & _).
    cbn [length] in Hmax.
    set (store1 := fst (ht_get now store k)) in *.
    set (n1 := if present (live_entry store k now) then wrap64 (n + 1) else n).
    assert (n1 = n + (if present (live_entry store k now) then 1 else 0))
      as Hn1.
    { subst n1. destruct (present _); [|lia].
      apply wrap64_id. unfold INT64_MIN, INT64_MAX in *. lia. }
    destruct (IH store1 (S i) n1 HI1) as [Hcnt Hlk].
    { rewrite Hn1. destruct (present _); lia. }
    { rewrite Hn1. destruct (present _); lia. }
    split.
    + rewrite Hcnt, Hn1.
      rewrite (List.filter_ext (visible store1) (visible store))
        by (intros x; subst store1; rewrite live_entry_after_get;
            [reflexivity | exact HI]).
      destruct (present (live_entry store k now)); cbn [length]; lia.
    + intros k'. rewrite Hlk. subst store1.
      rewrite live_entry_after_get by exact HI. rewrite Hmap.
      destruct (rstr_eq k' k) eqn:E; cbn [orb]; [|reflexivity].
      apply rstr_eq_spec in E as ->.
      destruct (existsb (rstr_eq k) ks); reflexivity.
Qed.

Lemma live_entry_after_delete store k k' :
  Inv store ->
  live_entry (fst (ht_delete now store k)) k' now
  = if rstr_eq k' k then None else live_entry store k' now.
Proof.
  intros HI. destruct (ht_delete_map now store k HI) as (_ & _ & Hmap & _).
  unfold live_entry. rewrite Hmap. destruct (rstr_eq k' k); reflexivity.
Qed.

(** Counting over a duplicate-free list when one element stops
    counting. *)
Lemma filter_length_drop_one (p q : rstr_t -> bool) k : forall l,
  NoDup l -> (forall x, x <> k -> q x = p x) -> q k = false ->
  Z.of_nat (length (List.filter p l))
  = (if bool_decide (k ∈ l) && p k then 1 else 0)
    + Z.of_nat (length (List.filter q l)).
Proof.
  induction l as [|x l IH]; intros Hnd Hoff Hk; [reflexivity|].
  apply NoDup_cons in Hnd as [Hx Hnd]. specialize (IH Hnd Hoff Hk).
  cbn [List.filter]. destruct (decide (x = k)) as [->|Hne].
  - rewrite Hk. rewrite bool_decide_eq_true_2 by left.
    rewrite (bool_decide_eq_false_2 (k ∈ l)) in IH by exact Hx.
    cbn [andb] in *. destruct (p k); cbn [length]; lia.
  - rewrite (Hoff x Hne).
    assert (bool_decide (k ∈ x :: l) = bool_decide (k ∈ l)) as ->.
    { apply bool_decide_ext. rewrite elem_of_cons. split; [|auto].
      intros [->|H]; [contradiction | exact H]. }
    destruct (p x); cbn [length]; lia.
Qed.

Lemma del_loop_map : forall ks store i n,
  Inv store -> 0 <= n -> n + Z.of_nat (length ks) <= INT64_MAX ->
  snd (del_loop (fun _ => now) store (BulkString <$> ks) i n)
  = n + Z.of_nat (length (List.filter (visible store) (remove_dups ks))) /\
  forall k',
    lookup_entry
      (fst (del_loop (fun _ => now) store (BulkString <$> ks) i n)) k'
    = if existsb (rstr_eq k') ks then None else lookup_entry store k'.
Proof.
  induction ks as [|k ks IH]; intros store i n HI Hn Hmax;
    cbn [fmap list_fmap del_loop existsb length fst snd].
  - split; [cbn; lia | reflexivity].
  - cbn [arg_str lookup list_lookup].
    destruct (ht_delete_map now store k HI) as (Hdel & HI1 & Hmap & _).
    destruct (ht_delete now store k) as [store1 deleted].
    cbn [fst snd] in Hdel, HI1, Hmap. subst deleted.
    cbn [length] in Hmax.
    set (n1 := if present (live_entry store k now) then wrap64 (n + 1) else n).
    assert (n1 = n + (if present (live_entry store k now) then 1 else 0))
      as Hn1.
    { subst n1. destruct (present _); [|lia].
      apply wrap64_id. unfold INT64_MIN, INT64_MAX in *. lia. }
    destruct (IH store1 (S i) n1 HI1) as [Hcnt Hlk].
    { rewrite Hn1. destruct (present _); lia. }
    { rewrite Hn1. destruct (present _); lia. }
    assert (forall x, visible store1 x
                      = if rstr_eq x k then false else visible store x)
      as Hvis.
    { intros x. unfold live_entry. rewrite Hmap.
      destruct (rstr_eq x k); reflexivity. }
    split.
    + rewrite Hcnt, Hn1.
      pose proof (filter_length_drop_one (visible store) (visible store1) k
                    (remove_dups ks) (NoDup_remove_dups ks)) as Hone.
      assert (Z.of_nat (length (List.filter (visible store) (remove_dups ks)))
              = (if bool_decide (k ∈ remove_dups ks) && visible store k
                 then 1 else 0)
                + Z.of_nat
                    (length (List.filter (visible store1) (remove_dups ks))))
        as Hone'.
      { apply Hone.
        - intros x Hx. rewrite Hvis. apply rstr_eq_false in Hx.
          rewrite Hx. reflexivity.
        - rewrite Hvis, rstr_eq_refl. reflexivity. }
      clear Hone. cbn [remove_dups].
      destruct (decide_rel elem_of k ks) as [Hin|Hin].
      * rewrite Hone'.
        rewrite bool_decide_eq_true_2 by (apply elem_of_remove_dups, Hin).
        cbn [andb]. destruct (present (live_entry store k now)); lia.
      * cbn [List.filter].
        rewrite (bool_decide_eq_false_2 (k ∈ remove_dups ks)) in Hone'
          by (rewrite elem_of_remove_dups; exact Hin).
        cbn [andb] in Hone'.
        destruct (present (live_entry store k now)); cbn [length]; lia.
    + intros k'. rewrite Hlk, Hmap.
      destruct (rstr_eq k' k); cbn [orb];
        destruct (existsb (rstr_eq k') ks); reflexivity.
Qed.

Lemma forallb_is_bulk (ks : list bytes) :
  forallb is_bulk (BulkString <$> ks) = true.
Proof. induction ks as [|k ks IH]; [reflexivity | exact IH]. Qed.

End Counting.

Section CountingTheorems.

Import Glob Commands.

(** X30.  EXISTS and DEL with the keys [ks], the clock showing [now]
    during the call.  EXISTS replies with the number of arguments, counted
    with repetitions, that are visible; it stores nothing and removes only
    expired entries of the keys named.  DEL replies with the number of
    different visible keys among the arguments; afterwards none of the
    keys named is stored and every other key is stored as before. *)
Theorem exists_and_del_count (ops : list ht_op) (now : Z) (c : client_t)
    (store : hashtable_t) (ks : list bytes) :
  run_ops ops ht_create = Some store ->
  (0 < length ks)%nat -> Z.of_nat (length ks) <= INT64_MAX ->
  (exists store',
     dispatch_command (fun _ => now) c store
       (Array (BulkString (bs "EXISTS") :: (BulkString <$> ks)))
     = Some (resp_write_integer c
               (Z.of_nat
                  (length (List.filter
                             (fun k => present (live_entry store k now))
                             ks))),
             store') /\
     forall k',
       lookup_entry store' k'
       = if existsb (rstr_eq k') ks then live_entry store k' now
         else lookup_entry store k') /\
  (exists store',
     dispatch_command (fun _ => now) c store
       (Array (BulkString (bs "DEL") :: (BulkString <$> ks)))
     = Some (resp_write_integer c
               (Z.of_nat
                  (length (List.filter
                             (fun k => present (live_entry store k now))
                             (remove_dups ks)))),
             store') /\
     forall k',
       lookup_entry store' k'
       = if existsb (rstr_eq k') ks then None else lookup_entry store k').
Proof.
  intros Hrun Hlen Hmax. pose proof (reachable_Inv ops store Hrun) as HI.
  assert (forall verb i entry,
            command_table !! i = Some entry ->
            strcmp_eq (map toupper (take 63 verb)) (name entry) = true ->
            min_args entry = 2 -> max_args entry = -1 ->
            dispatch_command (fun _ => now) c store
              (Array (BulkString verb :: (BulkString <$> ks)))
            = handler entry (fun _ => now) c store
                (BulkString verb :: (BulkString <$> ks))) as Hdisp.
  { intros verb i entry Hi Hname Hmin Hmaxa. unfold dispatch_command.
    cbn [length Nat.eqb forallb is_bulk orb andb arg_str lookup list_lookup].
    rewrite forallb_is_bulk. cbn [negb]. rewrite take_min_length.
    rewrite (dispatch_loop_known _ _ c store _ command_table i entry
               command_names_distinct Hi Hname).
    rewrite Hmin, Hmaxa. cbn [length]. rewrite length_fmap.
    replace (Z.of_nat (S (length ks)) <? 2) with false
      by (symmetry; apply Z.ltb_ge; lia).
    reflexivity. }
  split.
  - rewrite (Hdisp (bs "EXISTS") 5%nat (mk_cmd (bs "EXISTS") cmd_exists 2 (-1)))
      by reflexivity.
    cbn [handler]. unfold cmd_exists. cbn [drop].
    destruct (exists_loop_map now ks store 1 0 HI ltac:(lia) ltac:(lia))
      as [Hcnt Hlk].
    destruct (exists_loop _ _ _ _ _) as [store' n]. cbn [fst snd] in *.
    exists store'. rewrite Hcnt. split; [reflexivity | exact Hlk].
  - rewrite (Hdisp (bs "DEL") 4%nat (mk_cmd (bs "DEL") cmd_del 2 (-1)))
      by reflexivity.
    cbn [handler]. unfold cmd_del. cbn [drop].
    destruct (del_loop_map now ks store 1 0 HI ltac:(lia) ltac:(lia))
      as [Hcnt Hlk].
    destruct (del_loop _ _ _ _ _) as [store' n]. cbn [fst snd] in *.
    exists store'. rewrite Hcnt. split; [reflexivity | exact Hlk].
Qed.

Lemma exists_and_del_count_witness :
  (exists store',
     dispatch_command (fun _ => 0) empty_client colliding_table
       (Array (BulkString (bs "EXISTS")
               :: (BulkString <$> [bs "a"; bs "a"; bs "cv"])))
     = Some (resp_write_integer empty_client
               (Z.of_nat
                  (length (List.filter
                             (fun k => present
                                         (live_entry colliding_table k 0))
                             [bs "a"; bs "a"; bs "cv"]))),
             store') /\
     forall k',
       lookup_entry store' k'
       = if existsb (rstr_eq k') [bs "a"; bs "a"; bs "cv"]
         then live_entry colliding_table k' 0
         else lookup_entry colliding_table k') /\
  (exists store',
     dispatch_command (fun _ => 0) empty_client colliding_table
       (Array (BulkString (bs "DEL")
               :: (BulkString <$> [bs "a"; bs "a"; bs "cv"])))
     = Some (resp_write_integer empty_client
               (Z.of_nat
                  (length (List.filter
                             (fun k => present
                                         (live_entry colliding_table k 0))
                             (remove_dups [bs "a"; bs "a"; bs "cv"])))),
             store') /\
     forall k',
       lookup_entry store' k'
       = if existsb (rstr_eq k') [bs "a"; bs "a"; bs "cv"] then None
         else lookup_entry colliding_table k').
Proof.
  apply (exists_and_del_count colliding_ops 0 empty_client colliding_table
           [bs "a"; bs "a"; bs "cv"]);
    first [vm_compute; reflexivity | cbn; lia | vm_compute; discriminate].
Defined.

End CountingTheorems.
